(** * yt2rss: feed assembly over a paginated remote listing and a bbolt cache

    A shallow embedding of the service wired together by [main.go]:
    [Cache] (cache.go), [YoutubeAPIService.videos], [allPlaylistItems],
    [mapToFeedItem], [formatEnclosure] and [take] (the revision of the
    service whose [Cache] field is a [*Cache]), and the limit handling of
    [Server.channel] (handler.go).

    Conventions.
    - Go's [int] is modelled by [Z].  The only arithmetic the program does on
      limits is [o.limit - len(videos)], [counter++] and [max]; none of them
      leaves the range spanned by the limit and 0, so no wrap-around is
      written.  [strconv.Atoi] keeps its 64-bit range check.
    - A nilable pointer is an [option].
    - A Go function that can return an error or panic yields an [Outcome].
    - [encoding/json] on a [feeds.Item] is given by what it does to the
      item: which items [json.Marshal] refuses, and which item
      [json.Unmarshal] reads back from the text of an item.  The text
      itself is not spelled out.  For the older revisions, further down,
      the codec is a parameter. *)

From Stdlib Require Import ZArith Lia List Bool Ascii String DecimalString DecimalPos.
From stdpp Require Import base option list gmap strings.

Import ListNotations.
Local Open Scope string_scope.
Local Open Scope Z_scope.

(** ** Errors, panics, outcomes *)

Inductive error : Type :=
| ErrMsg (msg : string)                  (* an error value made by a library *)
| ErrCancelled                           (* the iterator's own errors.New("cancelled") *)
| ErrWrap (prefix : string) (cause : error).   (* fmt.Errorf("<prefix>: %w", cause) *)

Fixpoint errors_Is (e target : error) : bool :=
  match e, target with
  | ErrCancelled, ErrCancelled => true
  | ErrWrap _ cause, _ => errors_Is cause target
  | _, _ => false
  end.

Inductive panic : Type :=
| IndexOutOfRange
| NilDereference.

Inductive Outcome (A : Type) : Type :=
| Return (a : A)
| Fail (e : error)
| Crash (p : panic).
Arguments Return {A} a.
Arguments Fail {A} e.
Arguments Crash {A} p.

(** ** strconv *)

Module strconv.

Definition maxInt : Z := 9223372036854775807.
Definition minInt : Z := -9223372036854775808.

Definition ErrSyntax : error := ErrMsg "invalid syntax".
Definition ErrRange : error := ErrMsg "value out of range".

Definition digit_of (c : ascii) : option Z :=
  let n := Z.of_N (N_of_ascii c) in
  if (48 <=? n) && (n <=? 57) then Some (n - 48) else None.

Fixpoint digits (s : string) (acc : Z) : option Z :=
  match s with
  | EmptyString => Some acc
  | String c s' =>
      match digit_of c with
      | Some d => digits s' (acc * 10 + d)
      | None => None
      end
  end.

(** [Atoi] returns its value together with the error, as Go does: 0 with a
    syntax error, the nearest bound with a range error. *)
Definition Atoi (s : string) : Z * option error :=
  let '(neg, body) :=
    match s with
    | String "+"%char r => (false, r)
    | String "-"%char r => (true, r)
    | _ => (false, s)
    end in
  match body with
  | EmptyString => (0, Some ErrSyntax)
  | _ =>
      match digits body 0 with
      | None => (0, Some ErrSyntax)
      | Some n =>
          let v := if neg then - n else n in
          if v <? minInt then (minInt, Some ErrRange)
          else if maxInt <? v then (maxInt, Some ErrRange)
          else (v, None)
      end
  end.

Definition Itoa (z : Z) : string := NilZero.string_of_int (Z.to_int z).

End strconv.


(** ** time: the wall-clock reading of a [time.Time] and its RFC 3339 text *)

Module time.

(** A [time.Time] as [t.Date()], [t.Clock()], [t.Nanosecond()] and
    [t.Zone()] report it; [Offset] is in seconds east of UTC. *)
Record Time : Type := {
  Year : Z; Month : Z; Day : Z;
  Hour : Z; Minute : Z; Second : Z;
  Nanosecond : Z;
  Offset : Z
}.

Definition isLeap (y : Z) : bool :=
  (y mod 4 =? 0) && (negb (y mod 100 =? 0) || (y mod 400 =? 0)).

Definition daysBefore (m : Z) : Z :=
  nth (Z.to_nat (m - 1)) [0; 31; 59; 90; 120; 151; 181; 212; 243; 273; 304; 334] 365.

Definition daysIn (m y : Z) : Z :=
  if (m =? 2) && isLeap y then 29 else daysBefore (m + 1) - daysBefore m.

(** Days from 0001-01-01 to the first of January of year [y]. *)
Definition daysBeforeYear (y : Z) : Z :=
  365 * (y - 1) + (y - 1) / 4 - (y - 1) / 100 + (y - 1) / 400.

Definition yday (y m d : Z) : Z :=
  daysBefore m + (if isLeap y && (2 <? m) then 1 else 0) + d - 1.

(** Seconds since 0001-01-01T00:00:00Z: the instant the reading denotes. *)
Definition instant (t : Time) : Z :=
  (daysBeforeYear (Year t) + yday (Year t) (Month t) (Day t)) * 86400
  + Hour t * 3600 + Minute t * 60 + Second t - Offset t.

(** [a.Before(b)] *)
Definition Before (a b : Time) : Prop :=
  instant a < instant b
  \/ (instant a = instant b /\ Nanosecond a < Nanosecond b).

(** The readings a [time.Time] can have. *)
Definition valid (t : Time) : Prop :=
  1 <= Month t <= 12 /\ 1 <= Day t <= daysIn (Month t) (Year t)
  /\ 0 <= Hour t < 24 /\ 0 <= Minute t < 60 /\ 0 <= Second t < 60
  /\ 0 <= Nanosecond t < 1000000000.

Definition zeros (n : nat) : string := string_of_list_ascii (repeat "0"%char n).

(** The digit character of [d], and the two characters [tens[u], ones[u]]
    of Go's table of the numbers below 100. *)
Definition digit (d : Z) : ascii := ascii_of_N (Z.to_N (48 + d)).

Definition two_digits (u : Z) : string :=
  String (digit (u / 10)) (String (digit (u mod 10)) "").

(** [appendInt(b, x, width)]: a minus sign for a negative [x], then the
    decimal digits of its absolute value, zero-padded to [width]; as in Go,
    the widths 2 and 4 take their digits from the two-digit table when the
    value fits. *)
Definition appendInt (x : Z) (width : nat) : string :=
  let u := Z.abs x in
  (if x <? 0 then "-" else "")
    +:+ (if Nat.eqb width 2 && (u <? 100) then two_digits u
         else if Nat.eqb width 4 && (u <? 10000)
              then two_digits (u / 100) +:+ two_digits (u mod 100)
              else
                let ds := NilZero.string_of_uint (N.to_uint (Z.to_N u)) in
                zeros (width - String.length ds) +:+ ds).

(** The zone of the layout element [Z07:00]. *)
Definition appendZone (offset : Z) : string :=
  if offset =? 0 then "Z"
  else
    let zone := Z.quot offset 60 in
    (if zone <? 0 then "-" else "+")
      +:+ appendInt (Z.quot (Z.abs zone) 60) 2 +:+ ":"
      +:+ appendInt (Z.rem (Z.abs zone) 60) 2.

(** [t.Format(time.RFC3339)], layout [2006-01-02T15:04:05Z07:00]. *)
Definition Format_RFC3339 (t : Time) : string :=
  appendInt (Year t) 4 +:+ "-" +:+ appendInt (Month t) 2 +:+ "-"
    +:+ appendInt (Day t) 2 +:+ "T" +:+ appendInt (Hour t) 2 +:+ ":"
    +:+ appendInt (Minute t) 2 +:+ ":" +:+ appendInt (Second t) 2
    +:+ appendZone (Offset t).

(** [t.MarshalJSON()], the error alone.  It writes the RFC 3339 text with
    nanoseconds and then refuses it when the year does not have exactly four
    digits, or when the zone, printed in hours and minutes, has an hour of
    24 or more. *)
Definition MarshalJSON (t : Time) : option error :=
  if (Year t <? 0) || (9999 <? Year t)
  then Some (ErrMsg "Time.MarshalJSON: year outside of range [0,9999]")
  else if 24 <=? Z.quot (Z.abs (Z.quot (Offset t) 60)) 60
       then Some (ErrMsg "Time.MarshalJSON: timezone hour outside of range [0,23]")
       else None.

(** The reading [UnmarshalJSON] parses from the text [MarshalJSON] wrote for
    [t]: date, clock and nanoseconds as they were, and the zone in whole
    minutes, as it was printed. *)
Definition json_round_trip (t : Time) : Time :=
  {| Year := Year t; Month := Month t; Day := Day t;
     Hour := Hour t; Minute := Minute t; Second := Second t;
     Nanosecond := Nanosecond t;
     Offset := Z.quot (Offset t) 60 * 60 |}.

End time.



(** ** Data model *)

(** [feeds.Enclosure] *)
Record Enclosure : Type := {
  Url : string;
  Length : string;
  Type_ : string
}.

(** [feeds.Item], with [Link] reduced to its [Href]. *)
Record Item : Type := {
  Title : string;
  Link : string;
  Id : string;
  Created : time.Time;
  Description : string;
  Enclosure_ : option Enclosure
}.

(** [youtube.PlaylistItem].  [PublishedAt] is carried as what
    [time.Parse(time.RFC3339, item.Snippet.PublishedAt)] returns for it. *)
Record PlaylistItem : Type := {
  pi_Id : string;
  VideoId : string;
  pi_Title : string;
  pi_Description : string;
  PublishedAt : error + time.Time
}.

Record options : Type := {
  limit : Z;
  format : string;
  mimetype : string;
  enclosureBase : string
}.

Definition MaxInt : Z := strconv.maxInt.

Definition defaultOptions : options :=
  {| limit := MaxInt; format := "best[ext=mp4]"; mimetype := "video/mp4";
     enclosureBase := "" |}.

Definition Option := options -> options.

Definition WithLimit (l : Z) : Option :=
  fun o => {| limit := l; format := format o; mimetype := mimetype o;
              enclosureBase := enclosureBase o |}.

Definition WithFormat (f : string) : Option :=
  fun o => {| limit := limit o; format := f; mimetype := mimetype o;
              enclosureBase := enclosureBase o |}.

Definition WithMimeType (m : string) : Option :=
  fun o => {| limit := limit o; format := format o; mimetype := m;
              enclosureBase := enclosureBase o |}.

Definition WithEnclosureBase (b : string) : Option :=
  fun o => {| limit := limit o; format := format o; mimetype := mimetype o;
              enclosureBase := b |}.

(** The loop at the head of [Channel]: [options = opt(options)] for each
    option, starting from [defaultOptions]. *)
Definition apply_options (os : list Option) : options :=
  fold_left (fun o opt => opt o) os defaultOptions.

(** The cache key of an item:
    [fmt.Sprintf("%s-%s", item.Created.Format(time.RFC3339), item.Id)]. *)
Definition cache_key (item : Item) : string :=
  time.Format_RFC3339 (Created item) +:+ "-" +:+ Id item.

(** ** unicode/utf8 *)

Module utf8.

Definition byte (c : ascii) : Z := Z.of_N (N_of_ascii c).

(** Whether [s] has a first byte, and that byte lies in [lo..hi]. *)
Definition first_in (lo hi : Z) (s : string) : bool :=
  match s with
  | String c _ => (lo <=? byte c) && (byte c <=? hi)
  | EmptyString => false
  end.

Definition behead (s : string) : string :=
  match s with
  | String _ rest => rest
  | EmptyString => EmptyString
  end.

(** [DecodeRuneInString] on the string that starts with the byte [c],
    followed by [rest]: the size of the encoding it decodes, or [None]
    where it reports [RuneError] with size 1, which is for a byte that
    starts no encoding and for an encoding that is cut short or out of
    range.  The second byte is held to the range of its first byte (no
    overlong forms, no surrogates, nothing above U+10FFFF), the later ones
    to [0x80..0xBF]. *)
Definition rune_size (c : ascii) (rest : string) : option nat :=
  let x := byte c in
  if x <? 128 then Some 1%nat
  else if x <? 194 then None
  else if x <? 224 then
    if first_in 128 191 rest then Some 2%nat else None
  else if x <? 240 then
    let '(lo, hi) :=
      if x =? 224 then (160, 191) else if x =? 237 then (128, 159) else (128, 191) in
    if first_in lo hi rest && first_in 128 191 (behead rest) then Some 3%nat else None
  else if x <? 245 then
    let '(lo, hi) :=
      if x =? 240 then (144, 191) else if x =? 244 then (128, 143) else (128, 191) in
    if first_in lo hi rest && first_in 128 191 (behead rest)
       && first_in 128 191 (behead (behead rest))
    then Some 4%nat else None
  else None.

End utf8.

(** ** encoding/json on the strings and times of an item *)

(** The string [json.Unmarshal] returns for the JSON text [json.Marshal]
    wrote for [s].  The encoder writes the escape of U+FFFD for each byte
    that [DecodeRuneInString] does not decode and keeps every other rune
    (escaped where JSON wants it); the decoder gives the runes back in
    UTF-8.  [copy] counts the bytes still to copy of an encoding under
    way. *)
Fixpoint json_text (copy : nat) (s : string) : string :=
  match s with
  | EmptyString => EmptyString
  | String c rest =>
      match copy with
      | S k => String c (json_text k rest)
      | O =>
          match utf8.rune_size c rest with
          | Some n => String c (json_text (n - 1) rest)
          | None => String "239" (String "191" (String "189" (json_text 0 rest)))
          end
      end
  end.

Definition json_string (s : string) : string := json_text 0 s.

(** The item [json.Unmarshal] returns for the JSON text [json.Marshal] wrote
    for [i]. *)
Definition json_decoded (i : Item) : Item :=
  {| Title := json_string (Title i);
     Link := json_string (Link i);
     Id := json_string (Id i);
     Created := time.json_round_trip (Created i);
     Description := json_string (Description i);
     Enclosure_ :=
       match Enclosure_ i with
       | None => None
       | Some e =>
           Some {| Url := json_string (Url e); Length := json_string (Length e);
                   Type_ := json_string (Type_ e) |}
       end |}.

(** ** bbolt: buckets, cursors, transactions *)

(** A stored value: [Json i] is the JSON text that [json.Marshal] writes for
    the item [i]; [Text s] is plain text, the decimal rendering of a limit.
    The JSON text is known by the item it encodes, not byte by byte. *)
Inductive Value : Type :=
| Json (i : Item)
| Text (s : string).

(** [json.Marshal(item)].  The strings, the link and the enclosure of an
    item always encode; the one field that can refuse is the time, and the
    encoder wraps its error. *)
Definition json_Marshal (item : Item) : error + Value :=
  match time.MarshalJSON (Created item) with
  | Some e => inl (ErrWrap "json: error calling MarshalJSON for type time.Time" e)
  | None => inr (Json item)
  end.

(** [string(v)] as [strconv.Atoi] sees it: the text itself, or for a missing
    value the empty string.  The JSON text of an item opens with a brace, so
    it is no number either; [Atoi] only tells these apart from a number. *)
Definition Atoi_value (v : option Value) : Z * option error :=
  match v with
  | Some (Text s) => strconv.Atoi s
  | Some (Json _) => (0, Some strconv.ErrSyntax)
  | None => strconv.Atoi ""
  end.

Definition json_Unmarshal (v : Value) : error + Item :=
  match v with
  | Json i => inr (json_decoded i)
  | Text _ => inl (ErrMsg "json: cannot unmarshal number into Go value of type feeds.Item")
  end.

(** A bucket is the ordered content of its B+tree: records in strictly
    ascending bytewise key order. *)
Definition Bucket : Type := list (string * Value).

Module Bucket.

Definition ErrKeyRequired : error := ErrMsg "key required".
Definition ErrKeyTooLarge : error := ErrMsg "key too large".
Definition ErrValueTooLarge : error := ErrMsg "value too large".

Definition MaxKeySize : Z := 32768.
Definition MaxValueSize : Z := 2147483646.

Fixpoint Get (b : Bucket) (key : string) : option Value :=
  match b with
  | [] => None
  | (k, v) :: b' => if String.eqb k key then Some v else Get b' key
  end.

Fixpoint insert (b : Bucket) (key : string) (v : Value) : Bucket :=
  match b with
  | [] => [(key, v)]
  | (k, v0) :: b' =>
      match String.compare key k with
      | Lt => (key, v) :: b
      | Eq => (key, v) :: b'
      | Gt => (k, v0) :: insert b' key v
      end
  end.

(** [Put] refuses the empty key and a key of more than [MaxKeySize] bytes.
    bbolt also refuses a value of more than [MaxValueSize] bytes; a [Value]
    has no byte length, so that refusal is left out here, and what is proved
    of stored items is kept to items whose JSON text stays below that size
    ([storable] below). *)
Definition Put (b : Bucket) (key : string) (v : Value) : option error * Bucket :=
  match key with
  | EmptyString => (Some ErrKeyRequired, b)
  | _ =>
      if MaxKeySize <? Z.of_nat (String.length key) then (Some ErrKeyTooLarge, b)
      else (None, insert b key v)
  end.

(** A cursor is a bucket and a position in it; position [length b] is past
    the last record. *)
Record Cursor : Type := { elems : Bucket; pos : nat }.

Fixpoint seek_index (b : Bucket) (seek : string) : nat :=
  match b with
  | [] => O
  | (k, _) :: b' => if String.ltb k seek then S (seek_index b' seek) else O
  end.

(** [Seek]: move to the first record whose key is at least [seek]; past
    the end if there is none. *)
Definition Seek (b : Bucket) (seek : string) : Cursor :=
  {| elems := b; pos := seek_index b seek |}.

(** [Prev]: step back one record and return it; [None] (a nil key) at the
    first record. *)
Definition Prev (c : Cursor) : option (string * Value) * Cursor :=
  match pos c with
  | O => (None, c)
  | S p => (nth_error (elems c) p, {| elems := elems c; pos := p |})
  end.

End Bucket.

Abbreviation Tx := (gmap string Bucket).

Module Tx.

Definition ErrBucketNotFound : error := ErrMsg "bucket not found".
Definition ErrBucketNameRequired : error := ErrMsg "bucket name required".

Definition DeleteBucket (tx : Tx) (name : string) : option error * Tx :=
  match tx !! name with
  | None => (Some ErrBucketNotFound, tx)
  | Some _ => (None, delete name tx)
  end.

Definition CreateBucketIfNotExists (tx : Tx) (name : string) : (error + Bucket) * Tx :=
  match name with
  | EmptyString => (inl ErrBucketNameRequired, tx)
  | _ =>
      match tx !! name with
      | Some b => (inr b, tx)
      | None => (inr [], <[name := []]> tx)
      end
  end.

End Tx.

(** The database: its buckets, and the I/O faults still to come.  Each
    transaction that begins takes the next entry of [faults]; [Some e] makes
    [Begin] fail with [e]. *)
Record DB : Type := {
  faults : list (option error);
  buckets : gmap string Bucket
}.

Module DB.

Definition Begin (db : DB) : option error * DB :=
  match faults db with
  | [] => (None, db)
  | f :: fs => (f, {| faults := fs; buckets := buckets db |})
  end.

(** [db.Update(fn)]: commit what [fn] wrote unless it returns an error. *)
Definition Update (db : DB) (fn : Tx -> option error * Tx) : option error * DB :=
  let '(f, db') := Begin db in
  match f with
  | Some e => (Some e, db')
  | None =>
      let '(r, tx') := fn (buckets db') in
      match r with
      | Some e => (Some e, db')
      | None => (None, {| faults := faults db'; buckets := tx' |})
      end
  end.

End DB.

(** ** cache.go *)

(** A [*Cache] is [None] when nil, otherwise the database it wraps.  Every
    method returns the handle again, since a transaction uses up a fault. *)
Abbreviation Cache := (option DB).

Definition is_err (e : option error) : bool :=
  match e with Some _ => true | None => false end.

Definition has_value (v : option Value) : bool :=
  match v with Some _ => true | None => false end.

Definition InvalidateCacheIfDirty (c : Cache) (playlistId : string) (limit : Z) : Cache :=
  match c with
  | None => None
  | Some db =>
      let '(_, db') :=
        DB.Update db (fun tx =>
          match tx !! playlistId with
          | None => (None, tx)
          | Some b =>
              let '(lastLimit, err) := Atoi_value (Bucket.Get b "last-limit") in
              let '(derr, tx1) :=
                if (lastLimit <? limit) || is_err err
                then Tx.DeleteBucket tx playlistId
                else (None, tx) in
              match derr with
              | Some e => (Some e, tx1)
              | None =>
                  match Tx.CreateBucketIfNotExists tx1 playlistId with
                  | (inl e, tx2) => (Some e, tx2)
                  | (inr newBucket, tx2) =>
                      match Bucket.Put newBucket "last-limit" (Text (strconv.Itoa limit)) with
                      | (Some e, _) => (Some e, tx2)
                      | (None, nb) => (None, <[playlistId := nb]> tx2)
                      end
                  end
              end
          end) in
      Some db'      (* a failed transaction is logged, nothing else *)
  end.

Definition UpdateMaxLimit (c : Cache) (playlistId : string) (limit : Z) : Cache :=
  match c with
  | None => None
  | Some db =>
      let '(_, db') :=
        DB.Update db (fun tx =>
          match tx !! playlistId with
          | None => (None, tx)
          | Some b =>
              let '(parsed, err) := Atoi_value (Bucket.Get b "last-limit") in
              let lastLimit := if is_err err then 0 else parsed in
              match Bucket.Put b "last-limit" (Text (strconv.Itoa (Z.max lastLimit limit))) with
              | (Some e, _) => (Some e, tx)
              | (None, b') => (None, <[playlistId := b']> tx)
              end
          end) in
      Some db'
  end.

Definition HasItem (c : Cache) (playlistId : string) (item : Item) : bool * Cache :=
  match c with
  | None => (false, None)
  | Some db =>
      let '(f, db') := DB.Begin db in
      match f with
      | Some _ => (false, Some db')
      | None =>
          match buckets db' !! playlistId with
          | None => (false, Some db')
          | Some b => (has_value (Bucket.Get b (cache_key item)), Some db')
          end
      end
  end.

(** The loop of [Put] over its items: the first item that does not encode,
    or whose key the bucket refuses, ends it with the error. *)
Fixpoint put_items (b : Bucket) (items : list Item) : option error * Bucket :=
  match items with
  | [] => (None, b)
  | item :: rest =>
      match json_Marshal item with
      | inl e => (Some e, b)
      | inr data =>
          match Bucket.Put b (cache_key item) data with
          | (Some e, b') => (Some e, b')
          | (None, b') => put_items b' rest
          end
      end
  end.

Definition Put (c : Cache) (playlistId : string) (items : list Item) : Cache :=
  match c with
  | None => None
  | Some db =>
      let '(_, db') :=
        DB.Update db (fun tx =>
          match Tx.CreateBucketIfNotExists tx playlistId with
          | (inl e, tx1) => (Some e, tx1)
          | (inr b, tx1) =>
              match put_items b items with
              | (Some e, _) => (Some e, tx1)
              | (None, b') => (None, <[playlistId := b']> tx1)
              end
          end) in
      Some db'
  end.

(** ** Iterators: [iter.Seq2]

    A push iterator runs a [yield] callback over its elements until the
    callback answers [false].  [W] is the state the producer and the loop
    body share; [St] is the state private to the loop body.  A producer may
    panic before it returns. *)

Inductive Ran (S : Type) : Type :=
| Done (s : S)
| Panicked (p : panic).
Arguments Done {S} s.
Arguments Panicked {S} p.

Definition Yield (W K V St : Type) : Type := K -> V -> W * St -> bool * (W * St).

Definition Seq2 (W K V : Type) : Type :=
  forall St : Type, Yield W K V St -> W * St -> Ran (W * St).

(** [take]: the closure's [counter] starts at 0 when the iterator is
    created; every iterator the program builds is ranged over once. *)
Definition take {W K V : Type} (n : Z) (seq : Seq2 W K V) : Seq2 W K V :=
  fun St yield s =>
    if n <=? 0 then Done s
    else
      match seq (St * Z)%type
              (fun k v '(w, (st, counter)) =>
                 let '(more, (w', st')) := yield k v (w, st) in
                 if negb more then (false, (w', (st', counter)))
                 else
                   let counter := counter + 1 in
                   if counter >=? n then (false, (w', (st', counter)))
                   else (true, (w', (st', counter))))
              (fst s, (snd s, 0)) with
      | Done (w', (st', _)) => Done (w', st')
      | Panicked p => Panicked p
      end.

(** The loop of [Iter]: [for k, v := b.Prev(); k != nil; k, v = b.Prev()].
    [Prev] lowers the cursor position each round, so [fuel] above the
    starting position is never used up ([iter_loop_fuel] below). *)
Fixpoint iter_loop {W St : Type} (fuel : nat) (cur : Bucket.Cursor)
    (yield : Yield W (option Item) (option error) St) (s : W * St)
  : option error * (W * St) :=
  match fuel with
  | O => (None, s)
  | S fuel' =>
      match Bucket.Prev cur with
      | (None, _) => (None, s)
      | (Some (_, v), cur') =>
          match json_Unmarshal v with
          | inl e => (Some e, s)
          | inr item =>
              let '(more, s') := yield (Some item) None s in
              if more then iter_loop fuel' cur' yield s' else (None, s')
          end
      end
  end.

(** [Cache.Iter].  The receiver is read when the iterator runs; [c.View] on
    a nil receiver dereferences it, and so does [Cursor()] on the nil bucket
    that [tx.Bucket] returns for a missing name (the test [b == nil] looks
    at the cursor, which is never nil). *)
Definition Iter (playlistId after : string) : Seq2 Cache (option Item) (option error) :=
  fun St yield s =>
    match fst s with
    | None => Panicked NilDereference
    | Some db =>
        let '(f, db') := DB.Begin db in
        let s0 := (Some db', snd s) in
        match f with
        | Some e => Done (snd (yield None (Some e) s0))
        | None =>
            match buckets db' !! playlistId with
            | None => Panicked NilDereference
            | Some b =>
                let cur := Bucket.Seek b after in
                let '(err, s') := iter_loop (S (Bucket.pos cur)) cur yield s0 in
                match err with
                | Some e => Done (snd (yield None (Some e) s'))
                | None => Done s'
                end
            end
        end
    end.

(** ** The remote listing and the mapping to feed items *)

(** What the successive page requests of a [PlaylistItemsListCall] answer:
    an error text, or a page of items.  After the last entry there is no
    next page token. *)
Definition ListCall : Type := list (string + list PlaylistItem).

(** The service's view of the remote side: [y.client(ctx)] fails with
    [client_err], or gives a client whose listing call is [responses]. *)
Record Remote : Type := {
  client_err : option string;
  responses : ListCall
}.

(** [call.Pages(ctx, f)] *)
Fixpoint Pages {S : Type} (call : ListCall)
    (f : list PlaylistItem -> S -> option error * S) (s : S) : option error * S :=
  match call with
  | [] => (None, s)
  | inl msg :: _ => (Some (ErrMsg msg), s)
  | inr pl :: rest =>
      let '(r, s') := f pl s in
      match r with
      | Some e => (Some e, s')
      | None => Pages rest f s'
      end
  end.

(** The page callback of [allPlaylistItems]:
    [for _, e := range pl.Items { if !yield(e, nil) { return cancel } }]. *)
Fixpoint page_items {W St : Type} (cancel : error) (items : list PlaylistItem)
    (yield : Yield W (option PlaylistItem) (option error) St) (s : W * St)
  : option error * (W * St) :=
  match items with
  | [] => (None, s)
  | e :: rest =>
      let '(more, s') := yield (Some e) None s in
      if negb more then (Some cancel, s') else page_items cancel rest yield s'
  end.

Definition allPlaylistItems {W : Type} (call : ListCall)
  : Seq2 W (option PlaylistItem) (option error) :=
  fun St yield s =>
    let cancel := ErrCancelled in
    let '(err, s') := Pages call (fun pl => page_items cancel pl yield) s in
    match err with
    | Some e =>
        if negb (errors_Is e cancel) then Done (snd (yield None (Some e) s'))
        else Done s'
    | None => Done s'
    end.

(** The standard-library calls of [formatEnclosure], kept as parameters:
    [mime.ExtensionsByType], [url.Parse], and the text of a parsed URL once
    its [RawQuery] is the encoding of the given query values. *)
Record Library : Type := {
  mime_ExtensionsByType : string -> error + list string;
  url_Parse : string -> error + string;
  url_String : string -> list (string * string) -> string
}.

Section Service.

Variable lib : Library.

Definition formatEnclosure (v : PlaylistItem) (o : options) : error + option Enclosure :=
  match enclosureBase o with
  | EmptyString => inr None
  | _ =>
      let vId := VideoId v in
      match mime_ExtensionsByType lib (mimetype o) with
      | inl e => inl e
      | inr extension =>
          let '(enc, query) :=
            match extension with
            | [] => (url_Parse lib (enclosureBase o +:+ "/watch"), [("v", vId)])
            | _ =>
                (url_Parse lib
                   (enclosureBase o +:+ "/watch/" +:+ vId +:+ List.last extension ""),
                 [])
            end in
          match enc with
          | inl e => inl (ErrWrap "could not parse enclosure base url" e)
          | inr u =>
              let query :=
                if negb (String.eqb (format o) (format defaultOptions))
                then (query ++ [("format", format o)])%list
                else query in
              inr (Some {| Url := url_String lib u query; Length := "-1";
                           Type_ := mimetype o |})
          end
      end
  end.

Definition mapToFeedItem (item : PlaylistItem) (o : options) : error + Item :=
  match PublishedAt item with
  | inl e => inl (ErrWrap ("could not parse published date of video " +:+ pi_Id item) e)
  | inr published =>
      match formatEnclosure item o with
      | inl e => inl (ErrWrap "could not format enclosure url" e)
      | inr enclosure =>
          inr {| Title := pi_Title item;
                 Link := "https://youtube.com/watch?v=" +:+ VideoId item;
                 Id := VideoId item;
                 Created := published;
                 Description := pi_Description item;
                 Enclosure_ := enclosure |}
      end
  end.

(** ** [videos]: the feed assembly *)

(** The variables a loop body of [videos] writes: the slice [videos], and
    the result of a [return] executed inside the body. *)
Record Loop : Type := {
  vids : list Item;
  returned : option (Outcome (list Item))
}.

(** Body of the first loop. *)
Definition live_body (playlistId : string) (o : options)
  : Yield Cache (option PlaylistItem) (option error) Loop :=
  fun item err '(c, st) =>
    match err with
    | Some e => (false, (c, {| vids := vids st; returned := Some (Fail e) |}))
    | None =>
        match item with
        | None =>
            (false, (c, {| vids := vids st; returned := Some (Crash NilDereference) |}))
        | Some item =>
            match mapToFeedItem item o with
            | inl e => (false, (c, {| vids := vids st; returned := Some (Fail e) |}))
            | inr video =>
                let videos := (vids st ++ [video])%list in
                let '(cached, c') := HasItem c playlistId video in
                (negb cached, (c', {| vids := videos; returned := None |}))
            end
        end
    end.

(** Body of the second loop.  [Iter] yields an item or an error, never two
    nils; a nil item would be appended as a nil pointer, which a list of
    items does not hold, so that case leaves the slice as it is. *)
Definition fallback_body : Yield Cache (option Item) (option error) Loop :=
  fun item err '(c, st) =>
    match err with
    | Some e => (false, (c, {| vids := vids st; returned := Some (Fail e) |}))
    | None =>
        match item with
        | None => (true, (c, {| vids := vids st; returned := None |}))
        | Some item => (true, (c, {| vids := (vids st ++ [item])%list; returned := None |}))
        end
    end.

Definition len {A : Type} (l : list A) : Z := Z.of_nat (length l).

(** The first loop of [videos], over [take(o.limit, allPlaylistItems)]. *)
Definition live_phase (c : Cache) (call : ListCall) (playlistId : string) (o : options)
  : Ran (Cache * Loop) :=
  take (limit o) (allPlaylistItems call) Loop (live_body playlistId o)
    (c, {| vids := []; returned := None |}).

(** The second loop, over [take(max(0, o.limit-len(videos)), Iter)]. *)
Definition fallback_phase (c : Cache) (playlistId : string) (o : options)
    (videos : list Item) (after : string) : Ran (Cache * Loop) :=
  take (Z.max 0 (limit o - len videos)) (Iter playlistId after) Loop fallback_body
    (c, {| vids := videos; returned := None |}).

Definition videos (c : Cache) (remote : Remote) (playlistId : string) (o : options)
  : Outcome (list Item) * Cache :=
  let c := InvalidateCacheIfDirty c playlistId (limit o) in
  match client_err remote with
  | Some msg => (Fail (ErrWrap "could not create youtube client" (ErrMsg msg)), c)
  | None =>
      match live_phase c (responses remote) playlistId o with
      | Panicked p => (Crash p, c)
      | Done (c, st) =>
          match returned st with
          | Some r => (r, c)
          | None =>
              let c := Put c playlistId (vids st) in
              match last (vids st) with
              | None => (Crash IndexOutOfRange, c)   (* videos[len(videos)-1] *)
              | Some newest_cached =>
                  let after := time.Format_RFC3339 (Created newest_cached) in
                  match fallback_phase c playlistId o (vids st) after with
                  | Panicked p => (Crash p, c)
                  | Done (c, st) =>
                      match returned st with
                      | Some r => (r, c)
                      | None => (Return (vids st), UpdateMaxLimit c playlistId (limit o))
                      end
                  end
              end
          end
      end
  end.

End Service.

(** ** handler.go: the limit of a channel request *)

Record Server : Type := {
  BaseUrl : string;
  Limit : Z;
  MimeType : string;
  YtdlCommand : string;
  Format : string
}.

(** [url.Values] and its [Get]: the first value of the key, or the empty
    string. *)
Abbreviation Values := (gmap string (list string)).

Definition Values_Get (q : Values) (key : string) : string :=
  match q !! key with
  | Some (v :: _) => v
  | _ => ""
  end.

(** The [limit] that [Server.channel] hands to [WithLimit]. *)
Definition channel_limit (s : Server) (query : Values) : Z :=
  let '(limit, err) := strconv.Atoi (Values_Get query "limit") in
  if is_err err || (limit =? 0) then Limit s else limit.

Definition channel_mimeType (s : Server) (query : Values) : string :=
  match Values_Get query "mimeType" with
  | EmptyString => MimeType s
  | m => m
  end.

Definition channel_format (s : Server) (query : Values) : string :=
  match Values_Get query "format" with
  | EmptyString => Format s
  | f => f
  end.

(** The options [Server.channel] passes to [Svc.Channel], and the [options]
    value [Channel] builds from them for [videos]. *)
Definition channel_options (s : Server) (query : Values) : options :=
  apply_options
    [WithLimit (channel_limit s query);
     WithFormat (channel_format s query);
     WithEnclosureBase (BaseUrl s);
     WithMimeType (channel_mimeType s query)].

(** ** Reference iterators over lists

    [range tick l] is the loop [for _, e := range l { tick; if !yield(e)
    { return } }]: the behaviour of an iterator that produces the elements
    of [l] one at a time, doing [tick] on the shared state for each element
    it produces.  The iterators of the program are shown equal to such
    loops, and an instrumented one counts what is pulled from it. *)

Fixpoint range {W K V St : Type} (tick : W -> W) (l : list (K * V))
    (yield : Yield W K V St) (s : W * St) : W * St :=
  match l with
  | [] => s
  | (k, v) :: l' =>
      let '(more, s') := yield k v (tick (fst s), snd s) in
      if more then range tick l' yield s' else s'
  end.

Definition list_source {W K V : Type} (tick : W -> W) (l : list (K * V)) : Seq2 W K V :=
  fun St yield s => Done (range tick l yield s).

(** A source that counts, in the shared state, the elements pulled from it. *)
Definition counting_source {K V : Type} (l : list (K * V)) : Seq2 Z K V :=
  list_source (fun pulls => pulls + 1) l.

(** A loop body that has no access to the shared state. *)
Definition private_body {W K V St : Type} (body : K -> V -> St -> bool * St)
  : Yield W K V St :=
  fun k v '(w, st) => let '(more, st') := body k v st in (more, (w, st')).

(** What a loop body receives from a list source: the number of elements it
    is handed before it stops the loop, and its final state. *)
Fixpoint handed {K V St : Type} (body : K -> V -> St -> bool * St)
    (l : list (K * V)) (st : St) : nat * St :=
  match l with
  | [] => (O, st)
  | (k, v) :: l' =>
      let '(more, st') := body k v st in
      if more then let '(n, st'') := handed body l' st' in (S n, st'')
      else (1%nat, st')
  end.

(** The body of [for k, v := range seq { acc = append(acc, (k, v)) }]. *)
Definition collect {K V : Type} : K -> V -> list (K * V) -> bool * list (K * V) :=
  fun k v acc => (true, (acc ++ [(k, v)])%list).

(** The wrapper [take] hands to the underlying iterator. *)
Definition take_yield {W K V St : Type} (n : Z) (yield : Yield W K V St)
  : Yield W K V (St * Z) :=
  fun k v '(w, (st, counter)) =>
    let '(more, (w', st')) := yield k v (w, st) in
    if negb more then (false, (w', (st', counter)))
    else
      let counter := counter + 1 in
      if counter >=? n then (false, (w', (st', counter)))
      else (true, (w', (st', counter))).

Definition drop_counter {W St : Type} (s : W * (St * Z)) : W * St :=
  (fst s, fst (snd s)).

(** The elements [allPlaylistItems] produces when nothing stops it: the
    items of the pages up to the first failed request, then that failure. *)
Fixpoint emitted (call : ListCall) : list (option PlaylistItem * option error) :=
  match call with
  | [] => []
  | inl msg :: _ => [(None, Some (ErrMsg msg))]
  | inr pl :: rest => (map (fun e => (Some e, None)) pl ++ emitted rest)%list
  end.

(** The elements [Iter] produces from the records its cursor walks over:
    the items decoded, up to the first record that does not decode, then the
    decoding error. *)
Fixpoint decoded (records : list (string * Value)) : list (option Item * option error) :=
  match records with
  | [] => []
  | (_, v) :: rest =>
      match json_Unmarshal v with
      | inl e => [(None, Some e)]
      | inr item => (Some item, None) :: decoded rest
      end
  end.

(** The records of a bucket whose key is bytewise below [key]. *)
Definition below (key : string) (b : Bucket) : Bucket :=
  List.filter (fun kv => String.ltb (fst kv) key) b.

(** The order invariant of a bucket: keys strictly ascending. *)
Inductive sorted : Bucket -> Prop :=
| sorted_nil : sorted []
| sorted_cons k v b :
    Forall (fun kv => String.ltb k (fst kv) = true) b -> sorted b -> sorted ((k, v) :: b).

(** What a record of a well-formed bucket looks like: an item sits under its
    own cache key, text only under the key of the limit. *)
Definition keyed (kv : string * Value) : Prop :=
  match snd kv with
  | Json i => fst kv = cache_key i
  | Text _ => fst kv = "last-limit"
  end.

Definition well_formed (b : Bucket) : Prop := sorted b /\ Forall keyed b.

(** The items stored in a list of records. *)
Fixpoint payloads (records : list (string * Value)) : list Item :=
  match records with
  | [] => []
  | (_, Json i) :: rest => i :: payloads rest
  | (_, Text _) :: rest => payloads rest
  end.

(** Whether the bucket of [playlistId] holds a record under the item's key:
    what [HasItem] answers when its transaction begins. *)
Definition cached (c : Cache) (playlistId : string) (item : Item) : bool :=
  match c with
  | None => false
  | Some db =>
      match buckets db !! playlistId with
      | None => false
      | Some b => has_value (Bucket.Get b (cache_key item))
      end
  end.

(** The cache handle after [n] transactions have begun: the next [n] faults
    are used up, the buckets are as they were. *)
Definition spend (n : nat) (c : Cache) : Cache :=
  match c with
  | None => None
  | Some db => Some {| faults := skipn n (faults db); buckets := buckets db |}
  end.

Definition cache_buckets (c : Cache) : gmap string Bucket :=
  match c with
  | None => ∅
  | Some db => buckets db
  end.

(** An element of a remote listing, as the iterator yields it. *)
Definition listed (e : PlaylistItem) : option PlaylistItem * option error := (Some e, None).

(** An item of the cache, as [Iter] yields it. *)
Definition stored (i : Item) : option Item * option error := (Some i, None).

(** The bucket after [put_items] has written every item. *)
Definition insert_all (b : Bucket) (items : list Item) : Bucket :=
  fold_left (fun b i => Bucket.insert b (cache_key i) (Json i)) items b.

(** The bytes of the strings of an item. *)
Definition item_bytes (i : Item) : Z :=
  Z.of_nat (String.length (Title i)) + Z.of_nat (String.length (Link i))
  + Z.of_nat (String.length (Id i)) + Z.of_nat (String.length (Description i))
  + match Enclosure_ i with
    | None => 0
    | Some e =>
        Z.of_nat (String.length (Url e)) + Z.of_nat (String.length (Length e))
        + Z.of_nat (String.length (Type_ e))
    end.

(** An item that [Put] stores: its time encodes, its key is no longer than
    the bucket takes, and its strings are short enough for its JSON text to
    be a value the bucket takes.  The JSON text has at most six bytes for a
    byte of a string (an escape of the form [\uXXXX]) and fewer than 1024
    bytes besides the strings: the field names, the two times and the
    fields that are empty. *)
Definition storable (i : Item) : Prop :=
  time.MarshalJSON (Created i) = None
  /\ Z.of_nat (String.length (cache_key i)) <= Bucket.MaxKeySize
  /\ 6 * item_bytes i + 1024 <= Bucket.MaxValueSize.

(** An item that [Put] cannot store: its time does not encode, or its key is
    longer than the bucket takes. *)
Definition refused (i : Item) : Prop :=
  time.MarshalJSON (Created i) <> None
  \/ Bucket.MaxKeySize < Z.of_nat (String.length (cache_key i)).

(** An item that comes out of the cache as it went in. *)
Definition round_trips (i : Item) : Prop := json_decoded i = i.

Definition is_json (kv : string * Value) : Prop :=
  match snd kv with
  | Json _ => True
  | Text _ => False
  end.

(** ** Concrete collections, used to run the model *)

Module Scenario.

(** No MIME extension is known and every URL parses. *)
Definition lib : Library :=
  {| mime_ExtensionsByType := fun _ => inr [];
     url_Parse := fun s => inr s;
     url_String := fun u _ => u |}.

(** Noon UTC on a day of January 2024, [s] seconds and [ns] nanoseconds
    past the hour. *)
Definition at_noon (day s ns : Z) : time.Time :=
  {| time.Year := 2024; time.Month := 1; time.Day := day;
     time.Hour := 12; time.Minute := 0; time.Second := s;
     time.Nanosecond := ns; time.Offset := 0 |}.

Definition entry (id : string) (t : time.Time) : PlaylistItem :=
  {| pi_Id := id; VideoId := id; pi_Title := id; pi_Description := "";
     PublishedAt := inr t |}.

(** What [mapToFeedItem] makes of [entry id t] when no enclosure base is set. *)
Definition video (id : string) (t : time.Time) : Item :=
  {| Title := id; Link := "https://youtube.com/watch?v=" +:+ id; Id := id;
     Created := t; Description := ""; Enclosure_ := None |}.

Definition record (i : Item) : string * Value := (cache_key i, Json i).

Definition playlist : string := "UULFchannel".

Definition with_limit (l : Z) : options := WithLimit l defaultOptions.

Definition listing (pages : list (list PlaylistItem)) : Remote :=
  {| client_err := None; responses := map inr pages |}.

Definition store (b : Bucket) : DB :=
  {| faults := []; buckets := {[ playlist := b ]} |}.

(** Three days, newest first. *)
Definition v3 : Item := video "v3" (at_noon 3 0 0).
Definition v2 : Item := video "v2" (at_noon 2 0 0).
Definition v1 : Item := video "v1" (at_noon 1 0 0).
Definition e3 : PlaylistItem := entry "v3" (at_noon 3 0 0).
Definition e2 : PlaylistItem := entry "v2" (at_noon 2 0 0).
Definition e1 : PlaylistItem := entry "v1" (at_noon 1 0 0).

(** A bucket that holds [v2] and [v1], filled by a request of limit 5. *)
Definition two_days : Bucket := [record v1; record v2; ("last-limit", Text "5")].

(** Two videos published within the same second of day 2, and one of day 1,
    all cached by a request of limit 4; [n3] is new. *)
Definition twin_b : Item := video "b" (at_noon 2 0 0).
Definition twin_a : Item := video "a" (at_noon 2 0 0).
Definition twins : Bucket :=
  [record v1; record twin_a; record twin_b; ("last-limit", Text "4")].
Definition twins_remote : Remote :=
  listing [[e3; entry "b" (at_noon 2 0 0); entry "a" (at_noon 2 0 0); e1]].

(** Two videos of one second: ["a"] nine tenths into it, ["b"] one tenth. *)
Definition tenth_9 : Item := video "a" (at_noon 2 0 900000000).
Definition tenth_1 : Item := video "b" (at_noon 2 0 100000000).

(** A video stamped 00:30 on day 2 at two hours east of UTC, that is 22:30
    UTC on day 1, and one stamped 23:00 UTC on day 1. *)
Definition east : Item :=
  video "e"
    {| time.Year := 2024; time.Month := 1; time.Day := 2; time.Hour := 0;
       time.Minute := 30; time.Second := 0; time.Nanosecond := 0; time.Offset := 7200 |}.
Definition west : Item :=
  video "w"
    {| time.Year := 2024; time.Month := 1; time.Day := 1; time.Hour := 23;
       time.Minute := 0; time.Second := 0; time.Nanosecond := 0; time.Offset := 0 |}.

(** A database whose next transactions fail. *)
Definition broken (n : nat) : DB :=
  {| faults := repeat (Some (ErrMsg "input/output error")) n; buckets := ∅ |}.

(** The live videos of an outcome. *)
Definition ids (r : Outcome (list Item)) : Outcome (list string) :=
  match r with
  | Return l => Return (map Id l)
  | Fail e => Fail e
  | Crash p => Crash p
  end.

End Scenario.

(** The loop variables a phase ends with, when it does not panic. *)
Definition loop_of (r : Ran (Cache * Loop)) : option Loop :=
  match r with
  | Done (_, st) => Some st
  | Panicked _ => None
  end.

(** The value stored under ["last-limit"] in the bucket of a playlist. *)
Definition stored_limit (c : Cache) (playlistId : string) : option Value :=
  match c with
  | None => None
  | Some db =>
      match buckets db !! playlistId with
      | None => None
      | Some b => Bucket.Get b "last-limit"
      end
  end.

(** ** Order of wall-clock readings *)

(** Lexicographic combination of two comparisons. *)
Definition lex (c1 c2 : comparison) : comparison :=
  match c1 with
  | Eq => c2
  | _ => c1
  end.

(** Comparison of two readings field by field, from the year down to the
    second. *)
Definition compare_fields (a b : time.Time) : comparison :=
  lex (time.Year a ?= time.Year b)
    (lex (time.Month a ?= time.Month b)
       (lex (time.Day a ?= time.Day b)
          (lex (time.Hour a ?= time.Hour b)
             (lex (time.Minute a ?= time.Minute b)
                (time.Second a ?= time.Second b))))).

(** A reading in UTC with a four-digit year: what the listing of a playlist
    carries. *)
Definition utc (t : time.Time) : Prop :=
  time.valid t /\ time.Offset t = 0 /\ 0 <= time.Year t <= 9999.

(** * Further definitions *)

(** ** Numbers in decimal *)

(** The value [strconv.digits] reaches on the digits of [d], most
    significant first, starting from [acc]. *)
Fixpoint decimal_value (d : Decimal.uint) (acc : Z) : Z :=
  match d with
  | Decimal.Nil => acc
  | Decimal.D0 d => decimal_value d (acc * 10)
  | Decimal.D1 d => decimal_value d (acc * 10 + 1)
  | Decimal.D2 d => decimal_value d (acc * 10 + 2)
  | Decimal.D3 d => decimal_value d (acc * 10 + 3)
  | Decimal.D4 d => decimal_value d (acc * 10 + 4)
  | Decimal.D5 d => decimal_value d (acc * 10 + 5)
  | Decimal.D6 d => decimal_value d (acc * 10 + 6)
  | Decimal.D7 d => decimal_value d (acc * 10 + 7)
  | Decimal.D8 d => decimal_value d (acc * 10 + 8)
  | Decimal.D9 d => decimal_value d (acc * 10 + 9)
  end.

(** The values of Go's [int] on a 64-bit platform. *)
Definition is_int (z : Z) : Prop := strconv.minInt <= z <= strconv.maxInt.

(** ** Invariants of the cache *)

(** Every bucket of the cache is well formed. *)
Definition well_kept (c : Cache) : Prop :=
  forall name b, cache_buckets c !! name = Some b -> well_formed b.

(** The limit [UpdateMaxLimit] reads from a bucket: the stored number, or 0
    when the stored value is missing or no number. *)
Definition last_limit (b : Bucket) : Z :=
  let '(parsed, err) := Atoi_value (Bucket.Get b "last-limit") in
  if is_err err then 0 else parsed.

(** The bucket a transaction finds under a name: the stored one, or the
    empty bucket [CreateBucketIfNotExists] makes. *)
Definition bucket_of (m : gmap string Bucket) (name : string) : Bucket :=
  match m !! name with
  | Some b => b
  | None => []
  end.

(** ** Loop states *)

(** A loop state whose [return], if any, is an error or a panic: the loops
    of [videos] return no list from inside their bodies. *)
Definition no_return (st : Loop) : Prop :=
  forall vs : list Item, returned st <> Some (Return vs).

(** ** The cache as a record of a listing *)

(** The records [Put] writes for a list of items. *)
Definition records (items : list Item) : Bucket :=
  map (fun i => (cache_key i, Json i)) items.

(** A listing newest first: readings in UTC with four-digit years, each item
    at least a second later than every item after it. *)
Inductive newest_first : list Item -> Prop :=
| newest_first_nil : newest_first []
| newest_first_cons i l :
    utc (Created i) ->
    Forall (fun j => time.instant (Created j) < time.instant (Created i)) l ->
    newest_first l ->
    newest_first (i :: l).

(** The bucket that holds the items [X], given newest first, and the limit [n]. *)
Definition holding (X : list Item) (n : Z) : Bucket :=
  (rev (records X) ++ [("last-limit", Text (strconv.Itoa n))])%list.

(** The cache follows the listing [R] of a playlist: it has no bucket for
    it yet, or the bucket holds some items of [R] and a limit [n], and the
    first [n] items held are the first [n] of [R]. *)
Definition tracks (db : DB) (playlistId : string) (R : list Item) : Prop :=
  buckets db !! playlistId = None
  \/ exists (X : list Item) (n : Z),
      buckets db !! playlistId = Some (holding X n)
      /\ is_int n
      /\ X `sublist_of` R
      /\ firstn (Z.to_nat n) X = firstn (Z.to_nat n) R.

(** ** main.go: the options of single mode *)

(** The options [main] passes to [Channel] in single mode, from the flags
    [-l], [-f] and [-t]; no enclosure base is given. *)
Definition single_options (limit : Z) (format mimeType : string) : options :=
  apply_options [WithLimit limit; WithFormat format; WithMimeType mimeType].

(** ** [Channel]: the feed of a channel *)

(** The channel lookup: [channelCall.ForHandle(id)] or [channelCall.Id(id)]. *)
Inductive ChannelQuery : Type :=
| ForHandle (id : string)
| ForId (id : string).

(** [youtube.Thumbnail], [youtube.ThumbnailDetails], [youtube.ChannelSnippet]
    and [youtube.Channel], reduced to the fields [Channel] reads.  A field of
    pointer type is [None] when nil. *)
Record Thumbnail : Type := {
  th_Url : string;
  th_Width : Z;
  th_Height : Z
}.

Record ThumbnailDetails : Type := {
  Default : option Thumbnail
}.

Record ChannelSnippet : Type := {
  cs_Title : string;
  cs_Description : string;
  Thumbnails : option ThumbnailDetails
}.

Record ChannelItem : Type := {
  ch_Id : string;
  Snippet : option ChannelSnippet
}.

(** [channelCall.Do()]: an error text, or the items of the response. *)
Definition ChannelsDo : Type := ChannelQuery -> string + list ChannelItem.

(** [feeds.Image] and [feeds.Feed], with [Link] reduced to its [Href]. *)
Record Image : Type := {
  im_Url : string;
  Width : Z;
  Height : Z
}.

Record Feed : Type := {
  fd_Title : string;
  fd_Image : Image;
  fd_Id : string;
  fd_Link : string;
  Items : list Item;
  fd_Description : string
}.

(** [s[n:]] for a string of [n] bytes or more. *)
Fixpoint slice_from (n : nat) (s : string) : string :=
  match n, s with
  | O, _ => s
  | S n', String _ s' => slice_from n' s'
  | S _, EmptyString => EmptyString
  end.

(** The panics met outside [videos] as well: those above, and a slice
    expression out of bounds, as [channel.Id[2:]] on an id of fewer than two
    bytes. *)
Inductive go_panic : Type :=
| Runtime (p : panic)
| SliceBoundsOutOfRange.

(** What a call comes to: its value, its error, or a panic. *)
Inductive Result (A : Type) : Type :=
| Returns (a : A)
| Fails (e : error)
| Panics (p : go_panic).
Arguments Returns {A} a.
Arguments Fails {A} e.
Arguments Panics {A} p.

Definition channel_query (id : string) : ChannelQuery :=
  if String.prefix "@" id then ForHandle id else ForId id.

(** The playlist of a channel's uploads without shorts. *)
Definition uploads_playlist (channelId : string) : string :=
  "UULF" +:+ slice_from 2 channelId.

Definition Channel (lib : Library) (c : Cache) (remote : Remote) (do : ChannelsDo)
    (id : string) (o : list Option) : Result Feed * Cache :=
  let options := apply_options o in
  match client_err remote with
  | Some msg => (Fails (ErrWrap "could not create youtube client" (ErrMsg msg)), c)
  | None =>
      match do (channel_query id) with
      | inl msg => (Fails (ErrWrap "could not read channel details" (ErrMsg msg)), c)
      | inr [channel] =>
          if (String.length (ch_Id channel) <? 2)%nat
          then (Panics SliceBoundsOutOfRange, c)
          else
            let playlistId := uploads_playlist (ch_Id channel) in
            match videos lib c remote playlistId options with
            | (Fail e, c') =>
                (Fails (ErrWrap ("could not load videos from channel " +:+ id) e), c')
            | (Crash p, c') => (Panics (Runtime p), c')
            | (Return videos, c') =>
                match Snippet channel with
                | None => (Panics (Runtime NilDereference), c')
                | Some snippet =>
                    match Thumbnails snippet with
                    | None => (Panics (Runtime NilDereference), c')
                    | Some details =>
                        match Default details with
                        | None => (Panics (Runtime NilDereference), c')
                        | Some thumbnail =>
                            (Returns
                               {| fd_Title := cs_Title snippet;
                                  fd_Image := {| im_Url := th_Url thumbnail;
                                                 Width := th_Width thumbnail;
                                                 Height := th_Height thumbnail |};
                                  fd_Id := ch_Id channel;
                                  fd_Link := "https://youtube.com/channel/" +:+ ch_Id channel;
                                  Items := videos;
                                  fd_Description := cs_Description snippet |},
                             c')
                        end
                    end
                end
            end
      | inr _ => (Fails (ErrMsg ("could not find channel with id " +:+ id)), c)
      end
  end.

(** ** A channel, to run the model *)

Module Studio.

(** The channel whose uploads are the playlist of [Scenario]. *)
Definition channel : ChannelItem :=
  {| ch_Id := "UCchannel";
     Snippet :=
       Some {| cs_Title := "A channel"; cs_Description := "";
               Thumbnails :=
                 Some {| Default :=
                           Some {| th_Url := "https://example.org/88.jpg";
                                   th_Width := 88; th_Height := 88 |} |} |} |}.

(** A lookup that knows this channel by its id and no channel by handle. *)
Definition lookup : ChannelsDo :=
  fun q =>
    match q with
    | ForId id => if String.eqb id "UCchannel" then inr [channel] else inr []
    | ForHandle _ => inl "handle not found"
    end.

End Studio.

(** * Earlier revisions *)

(** ** The first revision: pages and a limit, no cache
    (src/unnamed/part_001, lines 1 to 182) *)

Module Paged.

(** What this revision asks of [net/url]: [url.Parse], the query values of
    a parsed URL ([enc.Query()], in order), and the text of a parsed URL once
    its [RawQuery] is the encoding of the given query values. *)
Record Library : Type := {
  url_Parse : string -> error + string;
  url_Query : string -> list (string * string);
  url_String : string -> list (string * string) -> string
}.

Definition formatEnclosure (lib : Library) (v : PlaylistItem) (o : options)
  : error + option Enclosure :=
  match enclosureBase o with
  | EmptyString => inr None
  | _ =>
      match url_Parse lib (enclosureBase o +:+ "/watch") with
      | inl e => inl (ErrWrap "could not parse enclosure base url" e)
      | inr enc =>
          let query := url_Query lib enc in
          let query :=
            if negb (String.eqb (format o) (format defaultOptions))
            then (query ++ [("format", format o)])%list
            else query in
          let query := (query ++ [("v", VideoId v)])%list in
          inr (Some {| Url := url_String lib enc query; Length := "-1";
                       Type_ := mimetype o |})
      end
  end.

(** The errors the page callback returns and [Pages] passes on: the
    package's own value [limitReached], which [errors.Is] recognises, or
    another error. *)
Inductive page_error : Type :=
| limitReached
| other (e : error).

(** The body of the callback's loop for one entry: the item it appends, or
    the error it returns. *)
Definition entry_item (lib : Library) (e : PlaylistItem) (o : options) : error + Item :=
  match PublishedAt e with
  | inl err => inl (ErrWrap ("could not parse published date of video " +:+ pi_Id e) err)
  | inr published =>
      match formatEnclosure lib e o with
      | inl err => inl (ErrWrap "could not format enclosure url" err)
      | inr enclosure =>
          inr {| Title := pi_Title e;
                 Link := "https://youtube.com/watch?v=" +:+ VideoId e;
                 Id := VideoId e;
                 Created := published;
                 Description := pi_Description e;
                 Enclosure_ := enclosure |}
      end
  end.

(** The loop of the page callback over [pl.Items]; it appends to the slice
    [videos] of the enclosing function. *)
Fixpoint page_items (lib : Library) (o : options) (items : list PlaylistItem)
    (videos : list Item) : option error * list Item :=
  match items with
  | [] => (None, videos)
  | e :: rest =>
      match entry_item lib e o with
      | inl err => (Some err, videos)
      | inr video => page_items lib o rest (videos ++ [video])%list
      end
  end.

(** The page callback: after the items of the page,
    [if len(videos) >= o.limit { videos = videos[:o.limit]; return limitReached }]. *)
Definition on_page (lib : Library) (o : options) (pl : list PlaylistItem)
    (videos : list Item) : go_panic + (option page_error * list Item) :=
  match page_items lib o pl videos with
  | (Some e, videos) => inr (Some (other e), videos)
  | (None, videos) =>
      if len videos >=? limit o
      then if limit o <? 0
           then inl SliceBoundsOutOfRange
           else inr (Some limitReached, firstn (Z.to_nat (limit o)) videos)
      else inr (None, videos)
  end.

(** [call.Pages(ctx, f)] *)
Fixpoint Pages (call : ListCall)
    (f : list PlaylistItem -> list Item -> go_panic + (option page_error * list Item))
    (videos : list Item) : go_panic + (option page_error * list Item) :=
  match call with
  | [] => inr (None, videos)
  | inl msg :: _ => inr (Some (other (ErrMsg msg)), videos)
  | inr pl :: rest =>
      match f pl videos with
      | inl p => inl p
      | inr (Some e, videos) => inr (Some e, videos)
      | inr (None, videos) => Pages rest f videos
      end
  end.

Definition videos (lib : Library) (remote : Remote) (o : options) : Result (list Item) :=
  match client_err remote with
  | Some msg => Fails (ErrWrap "could not create youtube client" (ErrMsg msg))
  | None =>
      match Pages (responses remote) (on_page lib o) [] with
      | inl p => Panics p
      | inr (Some (other e), _) => Fails e      (* err != nil && !errors.Is(err, limitReached) *)
      | inr (_, videos) => Returns videos
      end
  end.

End Paged.

(** Every URL parses and has no query of its own. *)
Definition plain_urls : Paged.Library :=
  {| Paged.url_Parse := fun s => inr s;
     Paged.url_Query := fun _ => [];
     Paged.url_String := fun u _ => u |}.

(** ** The second revision: playlist entries cached one by one, and counted
    (src/youtube.go) *)

Module Counted.

(** [youtube.PlaylistItem], reduced to the fields the cache path reads:
    [Snippet.PlaylistId], [Snippet.PublishedAt] and [ContentDetails.VideoId]. *)
Record Entry : Type := {
  PlaylistId : string;
  PublishedAt : string;
  VideoId : string
}.

(** [encoding/json] on a playlist entry. *)
Record Library : Type := {
  json_Marshal : Entry -> error + string;
  json_Unmarshal : string -> error + Entry
}.

(** The key of an entry:
    [fmt.Sprintf("%s-%s", item.Snippet.PublishedAt, item.ContentDetails.VideoId)]. *)
Definition key (item : Entry) : string := PublishedAt item +:+ "-" +:+ VideoId item.

(** *** [encoding/binary]: a [uint32] in four bytes, least significant first *)

Definition uint32 (z : Z) : Z := z mod 4294967296.

Definition byte (z : Z) : ascii := ascii_of_N (Z.to_N (z mod 256)).

(** [binary.LittleEndian.PutUint32(b[:], v)] on a four-byte array. *)
Definition PutUint32 (v : Z) : string :=
  String (byte v)
    (String (byte (v / 256))
       (String (byte (v / 65536))
          (String (byte (v / 16777216)) ""))).

(** [binary.LittleEndian.Uint32(b)]: it reads [b[3]] first, and so panics
    on fewer than four bytes. *)
Definition Uint32 (b : string) : panic + Z :=
  match b with
  | String b0 (String b1 (String b2 (String b3 _))) =>
      inr (Z.of_N (N_of_ascii b0) + 256 * Z.of_N (N_of_ascii b1)
           + 65536 * Z.of_N (N_of_ascii b2) + 16777216 * Z.of_N (N_of_ascii b3))
  | _ => inl IndexOutOfRange
  end.

(** *** bbolt, with values as bytes *)

Definition Bucket : Type := list (string * string).

Fixpoint Get (b : Bucket) (k : string) : option string :=
  match b with
  | [] => None
  | (k0, v) :: b' => if String.eqb k0 k then Some v else Get b' k
  end.

Fixpoint insert (b : Bucket) (k : string) (v : string) : Bucket :=
  match b with
  | [] => [(k, v)]
  | (k0, v0) :: b' =>
      match String.compare k k0 with
      | Lt => (k, v) :: b
      | Eq => (k, v) :: b'
      | Gt => (k0, v0) :: insert b' k v
      end
  end.

(** [Put] refuses the empty key, a key of more than [MaxKeySize] bytes and a
    value of more than [MaxValueSize] bytes. *)
Definition Put (b : Bucket) (k : string) (v : string) : option error * Bucket :=
  match k with
  | EmptyString => (Some Bucket.ErrKeyRequired, b)
  | _ =>
      if Bucket.MaxKeySize <? Z.of_nat (String.length k)
      then (Some Bucket.ErrKeyTooLarge, b)
      else if Bucket.MaxValueSize <? Z.of_nat (String.length v)
           then (Some Bucket.ErrValueTooLarge, b)
           else (None, insert b k v)
  end.

(** The position [Seek] moves to: that of the first record whose key is at
    least [seek]; the number of records if there is none. *)
Fixpoint seek_index (b : Bucket) (seek : string) : nat :=
  match b with
  | [] => O
  | (k, _) :: b' => if String.ltb k seek then S (seek_index b' seek) else O
  end.

Record DB : Type := {
  faults : list (option error);
  buckets : gmap string Bucket
}.

Definition Begin (db : DB) : option error * DB :=
  match faults db with
  | [] => (None, db)
  | f :: fs => (f, {| faults := fs; buckets := buckets db |})
  end.

(** [db.Update(fn)]: what [fn] wrote is committed unless [fn] returns an
    error or panics; the result is the error or the panic, and the database
    as it then is. *)
Definition Update (db : DB) (fn : gmap string Bucket -> panic + (option error * gmap string Bucket))
  : (panic + option error) * DB :=
  let '(f, db') := Begin db in
  match f with
  | Some e => (inr (Some e), db')
  | None =>
      match fn (buckets db') with
      | inl p => (inl p, db')
      | inr (Some e, _) => (inr (Some e), db')
      | inr (None, tx') => (inr None, {| faults := faults db'; buckets := tx' |})
      end
  end.

Definition CreateBucketIfNotExists (tx : gmap string Bucket) (name : string)
  : (error + Bucket) * gmap string Bucket :=
  match name with
  | EmptyString => (inl Tx.ErrBucketNameRequired, tx)
  | _ =>
      match tx !! name with
      | Some b => (inr b, tx)
      | None => (inr [], <[name := []]> tx)
      end
  end.

Definition DeleteBucket (tx : gmap string Bucket) (name : string)
  : option error * gmap string Bucket :=
  match tx !! name with
  | None => (Some Tx.ErrBucketNotFound, tx)
  | Some _ => (None, delete name tx)
  end.

(** *** The service *)

(** [y.Cache], a [*bbolt.DB]: [None] when nil. *)
Abbreviation Cache := (option DB).

(** [countArr := b.Get([]byte("count"))] and the [uint32] read from it, 0
    when there is none. *)
Definition count (b : Bucket) : panic + Z :=
  match Get b "count" with
  | None => inr 0
  | Some countArr => Uint32 countArr
  end.

(** The methods return the panic, if any, and the cache handle. *)
Definition invalidateCacheIfDirty (c : Cache) (playlistId : string) (limit : Z)
  : option panic * Cache :=
  match c with
  | None => (None, None)
  | Some db =>
      match Update db (fun tx =>
              match tx !! playlistId with
              | None => inr (None, tx)
              | Some b =>
                  match count b with
                  | inl p => inl p
                  | inr n =>
                      if n <? uint32 limit
                      then inr (DeleteBucket tx playlistId)
                      else inr (None, tx)
                  end
              end) with
      | (inl p, db') => (Some p, Some db')
      | (inr _, db') => (None, Some db')      (* an error is logged, nothing else *)
      end
  end.

Definition isCached (c : Cache) (item : Entry) : bool * Cache :=
  match c with
  | None => (false, None)
  | Some db =>
      let '(f, db') := Begin db in
      match f with
      | Some _ => (false, Some db')
      | None =>
          match buckets db' !! PlaylistId item with
          | None => (false, Some db')
          | Some b =>
              (match Get b (key item) with Some _ => true | None => false end, Some db')
          end
      end
  end.

Definition cache (lib : Library) (c : Cache) (item : Entry) : option panic * Cache :=
  match c with
  | None => (None, None)
  | Some db =>
      match Update db (fun tx =>
              match CreateBucketIfNotExists tx (PlaylistId item) with
              | (inl e, tx1) => inr (Some e, tx1)
              | (inr b, tx1) =>
                  match json_Marshal lib item with
                  | inl e => inr (Some e, tx1)
                  | inr data =>
                      match Put b (key item) data with
                      | (Some e, _) => inr (Some e, tx1)
                      | (None, b1) =>
                          match count b1 with
                          | inl p => inl p
                          | inr n =>
                              match Put b1 "count" (PutUint32 (uint32 (n + 1))) with
                              | (Some e, _) => inr (Some e, tx1)
                              | (None, b2) => inr (None, <[PlaylistId item := b2]> tx1)
                              end
                          end
                      end
                  end
              end) with
      | (inl p, db') => (Some p, Some db')
      | (inr _, db') => (None, Some db')
      end
  end.

(** The loop of [iterCache]:
    [for k, v := b.Seek(start); k != nil; k, v = b.Prev()].  With [n] one
    more than the cursor position, a round reads the record at the position
    and steps back; a position past the last record, where [Seek] lands when
    no key is at least [start], has a nil key, and so has the first record's
    predecessor. *)
Fixpoint walk {W St : Type} (lib : Library) (b : Bucket) (n : nat)
    (yield : Yield W (option Entry) (option error) St) (s : W * St)
  : option error * (W * St) :=
  match n with
  | O => (None, s)
  | S p =>
      match nth_error b p with
      | None => (None, s)
      | Some (_, v) =>
          match json_Unmarshal lib v with
          | inl e => (Some e, s)
          | inr item =>
              let '(more, s') := yield (Some item) None s in
              if more then walk lib b p yield s' else (None, s')
          end
      end
  end.

(** [iterCache].  [View] on a nil database dereferences it, and so does
    [Cursor()] on the nil bucket of a missing name. *)
Definition iterCache (lib : Library) (playlistId start : string)
  : Seq2 Cache (option Entry) (option error) :=
  fun St yield s =>
    match fst s with
    | None => Panicked NilDereference
    | Some db =>
        let '(f, db') := Begin db in
        let s0 := (Some db', snd s) in
        match f with
        | Some e => Done (snd (yield None (Some e) s0))
        | None =>
            match buckets db' !! playlistId with
            | None => Panicked NilDereference
            | Some b =>
                let '(err, s') := walk lib b (S (seek_index b start)) yield s0 in
                match err with
                | Some e => Done (snd (yield None (Some e) s'))
                | None => Done s'
                end
            end
        end
    end.

(** The remote side: the client, and the answers to the page requests. *)
Record Remote : Type := {
  client_err : option string;
  responses : list (string + list Entry)
}.

(** What the page callback leaves: whether it returned [cancel], the
    variables [continueAt] and [limit], and the state of the loop. *)
Record Paging (St : Type) : Type := {
  cancelled : bool;
  continueAt : option Entry;
  limit_left : Z;
  state : Cache * St
}.
Arguments cancelled {St} _.
Arguments continueAt {St} _.
Arguments limit_left {St} _.
Arguments state {St} _.

(** The page callback of [allPlaylistItems], over [pl.Items]. *)
Fixpoint page_items {St : Type} (lib : Library) (items : list Entry)
    (yield : Yield Cache (option Entry) (option error) St) (limit : Z) (s : Cache * St)
  : Ran (Paging St) :=
  match items with
  | [] => Done {| cancelled := false; continueAt := None; limit_left := limit; state := s |}
  | e :: rest =>
      let '(found, c1) := isCached (fst s) e in
      if found
      then Done {| cancelled := true; continueAt := Some e; limit_left := limit;
                   state := (c1, snd s) |}
      else
        match cache lib c1 e with
        | (Some p, _) => Panicked p
        | (None, c2) =>
            let limit := limit - 1 in
            let '(more, s') := yield (Some e) None (c2, snd s) in
            if negb more || (limit <=? 0)
            then Done {| cancelled := true; continueAt := None; limit_left := limit;
                         state := s' |}
            else page_items lib rest yield limit s'
        end
  end.

(** [call.Pages(ctx, f)]: the error of a failed request, if any, and what
    the last callback left. *)
Fixpoint Pages {St : Type} (lib : Library) (call : list (string + list Entry))
    (yield : Yield Cache (option Entry) (option error) St) (limit : Z) (s : Cache * St)
  : Ran (option error * Paging St) :=
  match call with
  | [] => Done (None, {| cancelled := false; continueAt := None; limit_left := limit;
                         state := s |})
  | inl msg :: _ =>
      Done (Some (ErrMsg msg),
            {| cancelled := false; continueAt := None; limit_left := limit; state := s |})
  | inr pl :: rest =>
      match page_items lib pl yield limit s with
      | Panicked p => Panicked p
      | Done r =>
          if cancelled r then Done (None, r)
          else Pages lib rest yield (limit_left r) (state r)
      end
  end.

(** [allPlaylistItems].  The dirty check runs when the iterator is made,
    which the one caller does right before ranging over it; here it opens the
    run.  The closure's [limit] goes down with every element handed on. *)
Definition allPlaylistItems (lib : Library) (remote : Remote) (playlistId : string)
    (limit : Z) : Seq2 Cache (option Entry) (option error) :=
  fun St yield s =>
    match invalidateCacheIfDirty (fst s) playlistId limit with
    | (Some p, _) => Panicked p
    | (None, c0) =>
        match client_err remote with
        | Some msg =>
            Done (snd (yield None
                         (Some (ErrWrap "could not create youtube client" (ErrMsg msg)))
                         (c0, snd s)))
        | None =>
            match Pages lib (responses remote) yield limit (c0, snd s) with
            | Panicked p => Panicked p
            | Done (Some e, r) => Done (snd (yield None (Some e) (state r)))
            | Done (None, r) =>
                match continueAt r with
                | None => Done (state r)
                | Some e =>
                    match iterCache lib playlistId (PublishedAt e) (St * Z)%type
                            (fun item err '(w, (st, limit)) =>
                               let limit := limit - 1 in
                               let '(more, (w', st')) := yield item err (w, st) in
                               (negb (negb more || (limit <=? 0)), (w', (st', limit))))
                            (fst (state r), (snd (state r), limit_left r)) with
                    | Panicked p => Panicked p
                    | Done (w', (st', _)) => Done (w', st')
                    end
                end
            end
        end
    end.

End Counted.

(** The elements [Counted.iterCache] produces from the records its cursor
    walks over: the entries decoded, up to the first record that does not
    decode, then the decoding error. *)
Fixpoint unmarshalled (lib : Counted.Library) (records : list (string * string))
  : list (option Counted.Entry * option error) :=
  match records with
  | [] => []
  | (_, v) :: rest =>
      match Counted.json_Unmarshal lib v with
      | inl e => [(None, Some e)]
      | inr item => (Some item, None) :: unmarshalled lib rest
      end
  end.

(** A key and a value that a bucket of the second revision takes. *)
Definition Counted_fits (e : Counted.Entry) (data : string) : Prop :=
  Z.of_nat (String.length (Counted.key e)) <= Bucket.MaxKeySize
  /\ Z.of_nat (String.length data) <= Bucket.MaxValueSize.

(** An entry the second revision can cache: it encodes, and its key and its
    encoded text are within the sizes the bucket takes. *)
Definition Counted_storable (lib : Counted.Library) (e : Counted.Entry) : Prop :=
  exists data, Counted.json_Marshal lib e = inr data /\ Counted_fits e data.

(** The bucket a transaction of the second revision finds under a name. *)
Definition Counted_bucket_of (c : Counted.Cache) (name : string) : Counted.Bucket :=
  match c with
  | None => []
  | Some db =>
      match Counted.buckets db !! name with
      | Some b => b
      | None => []
      end
  end.

(** A concrete database and codec for the second revision: one playlist
    with an empty bucket, and JSON texts that are the video ids. *)
Definition counted_store : Counted.DB :=
  {| Counted.faults := []; Counted.buckets := {[ "PL" := [] ]} |}.

Definition counted_codec : Counted.Library :=
  {| Counted.json_Marshal := fun e => inr (Counted.VideoId e);
     Counted.json_Unmarshal :=
       fun s => inr {| Counted.PlaylistId := "PL"; Counted.PublishedAt := "";
                       Counted.VideoId := s |} |}.

Definition counted_entry (published id : string) : Counted.Entry :=
  {| Counted.PlaylistId := "PL"; Counted.PublishedAt := published; Counted.VideoId := id |}.

(** Two entries a day apart, cached. *)
Definition counted_two : Counted.DB :=
  {| Counted.faults := [];
     Counted.buckets := {[ "PL" := [("2024-01-01-a", "a"); ("2024-01-02-b", "b")] ]} |}.

(** An entry of a listing, as the iterator of the second revision yields it. *)
Definition yielded (e : Counted.Entry) : option Counted.Entry * option error := (Some e, None).

(** * Properties *)

(** ** Sanity checks of the library models *)

Example Atoi_12 : strconv.Atoi "12" = (12, None).
Proof. reflexivity. Qed.

Example Atoi_neg : strconv.Atoi "-7" = (-7, None).
Proof. reflexivity. Qed.

Example Atoi_empty : strconv.Atoi "" = (0, Some strconv.ErrSyntax).
Proof. reflexivity. Qed.

Example Atoi_big : strconv.Atoi "99999999999999999999" = (strconv.maxInt, Some strconv.ErrRange).
Proof. reflexivity. Qed.

Example Itoa_neg : strconv.Itoa (-30) = "-30".
Proof. reflexivity. Qed.

Example format_utc :
  time.Format_RFC3339
    {| time.Year := 2024; time.Month := 3; time.Day := 9; time.Hour := 7;
       time.Minute := 5; time.Second := 0; time.Nanosecond := 0; time.Offset := 0 |}
  = "2024-03-09T07:05:00Z".
Proof. reflexivity. Qed.

Example format_zone :
  time.Format_RFC3339
    {| time.Year := 2024; time.Month := 12; time.Day := 31; time.Hour := 23;
       time.Minute := 59; time.Second := 58; time.Nanosecond := 5; time.Offset := -12600 |}
  = "2024-12-31T23:59:58-03:30".
Proof. reflexivity. Qed.

Example instant_of_unix_epoch :
  time.instant
    {| time.Year := 1970; time.Month := 1; time.Day := 1; time.Hour := 0;
       time.Minute := 0; time.Second := 0; time.Nanosecond := 0; time.Offset := 0 |}
  = 62135596800.
Proof. reflexivity. Qed.

Example instant_over_leap_day :
  time.instant
    {| time.Year := 2024; time.Month := 3; time.Day := 1; time.Hour := 0;
       time.Minute := 0; time.Second := 0; time.Nanosecond := 0; time.Offset := 0 |}
  - time.instant
      {| time.Year := 2024; time.Month := 2; time.Day := 28; time.Hour := 0;
         time.Minute := 0; time.Second := 0; time.Nanosecond := 0; time.Offset := 3600 |}
  = 2 * 86400 + 3600.
Proof. reflexivity. Qed.

Example format_year_5_digits :
  time.appendInt 12024 4 = "12024" /\ time.appendInt (-44) 4 = "-0044"
  /\ time.appendInt 7 2 = "07".
Proof. repeat split. Qed.

(** [json.Marshal] refuses a year of five digits and a zone of a day or
    more; a zone with seconds comes back in whole minutes. *)
Example MarshalJSON_refuses :
  time.MarshalJSON
    {| time.Year := 12024; time.Month := 1; time.Day := 1; time.Hour := 0;
       time.Minute := 0; time.Second := 0; time.Nanosecond := 0; time.Offset := 0 |}
  = Some (ErrMsg "Time.MarshalJSON: year outside of range [0,9999]")
  /\ time.MarshalJSON
       {| time.Year := 2024; time.Month := 1; time.Day := 1; time.Hour := 0;
          time.Minute := 0; time.Second := 0; time.Nanosecond := 0; time.Offset := 86400 |}
     = Some (ErrMsg "Time.MarshalJSON: timezone hour outside of range [0,23]")
  /\ time.Offset
       (time.json_round_trip
          {| time.Year := 2024; time.Month := 1; time.Day := 1; time.Hour := 0;
             time.Minute := 0; time.Second := 0; time.Nanosecond := 5;
             time.Offset := -3630 |})
     = -3600.
Proof. repeat split. Qed.

(** Strings through JSON: ASCII and well-formed runes of two and four bytes
    come back as they were; a stray byte, a rune cut short and each byte of
    an encoded surrogate come back as U+FFFD. *)
Example json_string_rounds :
  json_string "v1" = "v1"
  /\ json_string (String "195" (String "169" "a")) = String "195" (String "169" "a")
  /\ json_string (String "240" (String "159" (String "152" (String "128" ""))))
     = String "240" (String "159" (String "152" (String "128" "")))
  /\ json_string (String "255" "a") = String "239" (String "191" (String "189" "a"))
  /\ json_string (String "195" "a") = String "239" (String "191" (String "189" "a"))
  /\ json_string (String "237" (String "160" (String "128" "")))
     = String "239" (String "191" (String "189"
         (String "239" (String "191" (String "189"
            (String "239" (String "191" (String "189" "")))))))).
Proof. repeat split. Qed.

(** ** [take] *)

Section TakeFacts.

Context {W K V : Type}.

Lemma take_unfold (n : Z) (seq : Seq2 W K V) St (yield : Yield W K V St) s :
  take n seq St yield s =
    if n <=? 0 then Done s
    else match seq (St * Z)%type (take_yield n yield) (fst s, (snd s, 0)) with
         | Done s' => Done (drop_counter s')
         | Panicked p => Panicked p
         end.
Proof.
  unfold take, take_yield, drop_counter.
  destruct (n <=? 0); [reflexivity|].
  destruct (seq _ _ _) as [[w' [st' c]]|p]; reflexivity.
Qed.

Lemma range_take_yield (tick : W -> W) (n : Z) St (yield : Yield W K V St) :
  forall (l : list (K * V)) (w : W) (st : St) (counter : Z),
    0 <= counter < n ->
    drop_counter (range tick l (take_yield n yield) (w, (st, counter)))
    = range tick (firstn (Z.to_nat (n - counter)) l) yield (w, st).
Proof.
  induction l as [|[k v] l IH]; intros w st counter Hc.
  - rewrite firstn_nil. reflexivity.
  - destruct (Z.to_nat (n - counter)) as [|m] eqn:Hm; [lia|].
    cbn [firstn range fst snd]. unfold take_yield at 1.
    destruct (yield k v (tick w, st)) as [more [w' st']].
    destruct more; cbn [negb].
    + destruct (counter + 1 >=? n) eqn:Hge.
      * assert (m = O) by lia. subst m. reflexivity.
      * rewrite IH by lia.
        replace (Z.to_nat (n - (counter + 1))) with m by lia. reflexivity.
    + reflexivity.
Qed.

(** Taking [n] from a list-backed iterator is running the iterator of the
    first [n] elements, whatever the loop body does. *)
Lemma take_list_source (tick : W -> W) (n : Z) (l : list (K * V))
    St (yield : Yield W K V St) (s : W * St) :
  take n (list_source tick l) St yield s
  = list_source tick (firstn (Z.to_nat n) l) St yield s.
Proof.
  rewrite take_unfold. unfold list_source.
  destruct (n <=? 0) eqn:Hn.
  - replace (Z.to_nat n) with O by lia. reflexivity.
  - destruct s as [w st]. cbn [fst snd].
    rewrite range_take_yield by lia. rewrite Z.sub_0_r. reflexivity.
Qed.

(** The same for an iterator that behaves as a list source once it has
    moved the shared state from [fst s] to [w0]. *)
Lemma take_as_list (tick : W -> W) (n : Z) (seq : Seq2 W K V)
    (l : list (K * V)) (w w0 : W) :
  (forall St (yield : Yield W K V St) st,
      seq St yield (w, st) = Done (range tick l yield (w0, st))) ->
  0 < n ->
  forall St (yield : Yield W K V St) st,
    take n seq St yield (w, st)
    = Done (range tick (firstn (Z.to_nat n) l) yield (w0, st)).
Proof.
  intros Hseq Hn St yield st. rewrite take_unfold.
  destruct (n <=? 0) eqn:Hle; [lia|]. cbn [fst snd].
  rewrite Hseq, range_take_yield by lia. rewrite Z.sub_0_r. reflexivity.
Qed.

Lemma take_panics (n : Z) (seq : Seq2 W K V) (w : W) (p : panic) :
  (forall St (yield : Yield W K V St) st, seq St yield (w, st) = Panicked p) ->
  0 < n ->
  forall St (yield : Yield W K V St) st,
    take n seq St yield (w, st) = Panicked p.
Proof.
  intros Hseq Hn St yield st. rewrite take_unfold.
  destruct (n <=? 0) eqn:Hle; [lia|]. cbn [fst snd]. rewrite Hseq. reflexivity.
Qed.

Lemma take_nothing (n : Z) (seq : Seq2 W K V) St (yield : Yield W K V St) s :
  n <= 0 -> take n seq St yield s = Done s.
Proof.
  intros Hn. rewrite take_unfold. destruct (n <=? 0) eqn:Hle; [reflexivity|lia].
Qed.

End TakeFacts.

Section Counting.

Context {K V St : Type}.

Lemma range_counting (body : K -> V -> St -> bool * St) :
  forall (l : list (K * V)) (pulls : Z) (st : St),
    range (fun p => p + 1) l (private_body body) (pulls, st)
    = (pulls + Z.of_nat (fst (handed body l st)), snd (handed body l st)).
Proof.
  induction l as [|[k v] l IH]; intros pulls st; cbn [range handed fst snd].
  - f_equal. lia.
  - unfold private_body at 1. destruct (body k v st) as [more st'].
    destruct more.
    + rewrite IH. destruct (handed body l st') as [m st'']. cbn [fst snd].
      f_equal. lia.
    + reflexivity.
Qed.

Lemma handed_at_most (body : K -> V -> St -> bool * St) :
  forall (l : list (K * V)) (st : St), (fst (handed body l st) <= length l)%nat.
Proof.
  induction l as [|[k v] l IH]; intros st; cbn [handed fst length]; [lia|].
  destruct (body k v st) as [more st']. destruct more; cbn [fst]; [|lia].
  specialize (IH st'). destruct (handed body l st'). cbn [fst] in *. lia.
Qed.

End Counting.

Lemma handed_collect {K V : Type} :
  forall (l acc : list (K * V)),
    handed collect l acc = (length l, (acc ++ l)%list).
Proof.
  induction l as [|[k v] l IH]; intros acc; cbn [handed collect length].
  - rewrite app_nil_r. reflexivity.
  - rewrite IH, <- app_assoc. reflexivity.
Qed.

(** C8.  [take n] over a source of [M] elements that counts what is pulled
    from it: whatever the loop body does (also when it stops early), the
    body is handed a prefix of the first [n] elements and the source's
    counter grows by exactly the number of elements handed over, which is
    at most [min n M]; a body that never stops receives exactly the first
    [min n M] elements, in source order, for [min n M] pulls. *)
Theorem take_pulls_at_most_n {K V St : Type} (n : Z) (l : list (K * V))
    (body : K -> V -> St -> bool * St) (st : St) (pulls : Z) :
  let first := firstn (Z.to_nat n) l in
  let bound := Nat.min (Z.to_nat n) (length l) in
  take n (counting_source l) St (private_body body) (pulls, st)
  = Done (pulls + Z.of_nat (fst (handed body first st)), snd (handed body first st))
  /\ (fst (handed body first st) <= bound)%nat
  /\ take n (counting_source l) _ (private_body collect) (pulls, [])
     = Done (pulls + Z.of_nat bound, first)
  /\ length first = bound.
Proof.
  intros first bound.
  assert (Hlen : length first = bound) by apply length_firstn.
  unfold counting_source. rewrite !take_list_source. unfold list_source.
  rewrite !range_counting. fold first.
  split; [reflexivity|]. split.
  - rewrite <- Hlen. apply handed_at_most.
  - split; [|exact Hlen]. rewrite handed_collect. cbn [fst snd app].
    rewrite Hlen. reflexivity.
Qed.

(** ** Bytewise order on keys *)

Lemma ascii_compare_refl (c : ascii) : Ascii.compare c c = Eq.
Proof. unfold Ascii.compare. apply N.compare_refl. Qed.

Lemma string_compare_refl (s : string) : String.compare s s = Eq.
Proof.
  induction s as [|c s IH]; cbn [String.compare]; [reflexivity|].
  rewrite ascii_compare_refl. exact IH.
Qed.

Lemma string_compare_eq (s1 s2 : string) : String.compare s1 s2 = Eq <-> s1 = s2.
Proof.
  split; [apply String.compare_eq_iff|]. intros ->. apply string_compare_refl.
Qed.

Lemma string_compare_lt_trans :
  forall s1 s2 s3 : string,
    String.compare s1 s2 = Lt -> String.compare s2 s3 = Lt -> String.compare s1 s3 = Lt.
Proof.
  induction s1 as [|c1 s1 IH]; intros [|c2 s2] [|c3 s3]; cbn [String.compare];
    try discriminate; try reflexivity.
  unfold Ascii.compare.
  destruct (N.compare_spec (N_of_ascii c1) (N_of_ascii c2)) as [E12|L12|G12];
    try discriminate;
    destruct (N.compare_spec (N_of_ascii c2) (N_of_ascii c3)) as [E23|L23|G23];
    try discriminate; intros H12 H23.
  - rewrite E12, E23, N.compare_refl. eapply IH; eassumption.
  - rewrite E12. apply N.compare_lt_iff in L23. rewrite L23. reflexivity.
  - rewrite <- E23. apply N.compare_lt_iff in L12. rewrite L12. reflexivity.
  - assert (L13 : (N_of_ascii c1 < N_of_ascii c3)%N) by lia.
    apply N.compare_lt_iff in L13. rewrite L13. reflexivity.
Qed.

Lemma string_compare_gt_lt (s1 s2 : string) :
  String.compare s1 s2 = Gt <-> String.compare s2 s1 = Lt.
Proof.
  rewrite (String.compare_antisym s2 s1).
  destruct (String.compare s1 s2); cbn; split; congruence.
Qed.

Lemma ltb_lt (s1 s2 : string) : String.ltb s1 s2 = true <-> String.compare s1 s2 = Lt.
Proof. unfold String.ltb. destruct (String.compare s1 s2); split; congruence. Qed.

Lemma ltb_irrefl (s : string) : String.ltb s s = false.
Proof. unfold String.ltb. rewrite string_compare_refl. reflexivity. Qed.

Lemma ltb_trans (s1 s2 s3 : string) :
  String.ltb s1 s2 = true -> String.ltb s2 s3 = true -> String.ltb s1 s3 = true.
Proof. rewrite !ltb_lt. apply string_compare_lt_trans. Qed.

(** [s2] is not below [s1]: then everything below [s1] is below [s2]. *)
Lemma ltb_le_trans (s1 s2 s3 : string) :
  String.ltb s1 s2 = true -> String.ltb s3 s2 = false -> String.ltb s1 s3 = true.
Proof.
  rewrite !ltb_lt. unfold String.ltb. intros H12 H32.
  destruct (String.compare s3 s2) eqn:E; try discriminate.
  - apply string_compare_eq in E. subst. exact H12.
  - apply string_compare_gt_lt in E. eapply string_compare_lt_trans; eassumption.
Qed.

Lemma ltb_asym (s1 s2 : string) : String.ltb s1 s2 = true -> String.ltb s2 s1 = false.
Proof.
  rewrite ltb_lt. intros H. unfold String.ltb.
  rewrite String.compare_antisym, H. reflexivity.
Qed.

Lemma append_nil (s : string) : "" +:+ s = s.
Proof. reflexivity. Qed.

Lemma append_cons (c : ascii) (p s : string) : String c p +:+ s = String c (p +:+ s).
Proof. reflexivity. Qed.

Lemma string_append_assoc (a b c : string) : (a +:+ b) +:+ c = a +:+ (b +:+ c).
Proof.
  induction a as [|x a IH]; [reflexivity|]. rewrite !append_cons, IH. reflexivity.
Qed.

(** A string is never below one of its prefixes. *)
Lemma ltb_prefix (p s : string) : String.ltb (p +:+ s) p = false.
Proof.
  unfold String.ltb.
  induction p as [|c p IH].
  - rewrite append_nil. destruct s; reflexivity.
  - rewrite append_cons. cbn [String.compare].
    rewrite ascii_compare_refl. exact IH.
Qed.

(** Prefixes of one length decide the order of the strings they start. *)
Lemma compare_app_same_length :
  forall p1 p2 s1 s2 : string,
    String.length p1 = String.length p2 ->
    String.compare (p1 +:+ s1) (p2 +:+ s2)
    = match String.compare p1 p2 with
      | Eq => String.compare s1 s2
      | c => c
      end.
Proof.
  induction p1 as [|c1 p1 IH]; intros [|c2 p2] s1 s2 Hlen;
    cbn [String.length] in Hlen; try discriminate.
  - reflexivity.
  - rewrite !append_cons. cbn [String.compare].
    destruct (Ascii.compare c1 c2); try reflexivity.
    apply IH. congruence.
Qed.

Lemma length_append (s1 s2 : string) :
  String.length (s1 +:+ s2) = (String.length s1 + String.length s2)%nat.
Proof.
  induction s1 as [|c s1 IH]; [reflexivity|].
  rewrite append_cons. cbn [String.length]. rewrite IH. reflexivity.
Qed.

(** ** The iterators of the program as list sources *)

Section Sources.

Context {W St : Type}.
Variable yield : Yield W (option PlaylistItem) (option error) St.

Let items_of (pl : list PlaylistItem) : list (option PlaylistItem * option error) :=
  map (fun e => (Some e, None)) pl.

Lemma page_items_spec (cancel : error) :
  forall (pl : list PlaylistItem) (s : W * St) rest,
    match page_items cancel pl yield s with
    | (None, s') =>
        range (fun w => w) (items_of pl ++ rest) yield s = range (fun w => w) rest yield s'
    | (Some e, s') =>
        e = cancel /\ range (fun w => w) (items_of pl ++ rest) yield s = s'
    end.
Proof.
  induction pl as [|e pl IH]; intros [w st] rest; cbn [page_items items_of map app range fst snd].
  - reflexivity.
  - destruct (yield (Some e) None (w, st)) as [more s']. destruct more; cbn [negb].
    + apply IH.
    + split; reflexivity.
Qed.

Lemma allPlaylistItems_as_list :
  forall (call : ListCall) (s : W * St),
    allPlaylistItems call St yield s = Done (range (fun w => w) (emitted call) yield s).
Proof.
  unfold allPlaylistItems.
  induction call as [|[msg|pl] call IH]; intros [w st]; cbn [Pages emitted].
  - reflexivity.
  - cbn [errors_Is negb range fst snd].
    destruct (yield None (Some (ErrMsg msg)) (w, st)) as [more s']. destruct more; reflexivity.
  - pose proof (page_items_spec ErrCancelled pl (w, st) (emitted call)) as Hpage.
    fold (items_of pl).
    destruct (page_items ErrCancelled pl yield (w, st)) as [[e|] s'].
    + destruct Hpage as [-> Hpage]. cbn [errors_Is negb]. rewrite Hpage. reflexivity.
    + rewrite Hpage. apply IH.
Qed.

End Sources.

(** ** Buckets and cursors *)

Lemma firstn_succ_nth {A : Type} :
  forall (l : list A) (p : nat) (x : A),
    nth_error l p = Some x -> firstn (S p) l = (firstn p l ++ [x])%list.
Proof.
  induction l as [|a l IH]; intros [|p] x H; cbn in H; try discriminate.
  - injection H as ->. reflexivity.
  - cbn [firstn app]. f_equal. apply (IH p x H).
Qed.

Lemma seek_index_le (b : Bucket) (key : string) :
  (Bucket.seek_index b key <= length b)%nat.
Proof.
  induction b as [|[k v] b IH]; cbn [Bucket.seek_index length]; [lia|].
  destruct (String.ltb k key); lia.
Qed.

(** In a sorted bucket the records before the seek position are the records
    below the key, and no record from the position on is below it. *)
Lemma seek_index_below (b : Bucket) (key : string) :
  sorted b -> firstn (Bucket.seek_index b key) b = below key b.
Proof.
  induction 1 as [|k v b Hall Hs IH]; [reflexivity|].
  cbn [Bucket.seek_index below List.filter fst].
  destruct (String.ltb k key) eqn:Hk.
  - cbn [firstn]. f_equal. exact IH.
  - cbn [firstn]. symmetry. clear IH Hs.
    induction b as [|[k' v'] b IHb]; [reflexivity|].
    inversion Hall as [|? ? Hk' Hall']; subst. cbn [List.filter fst] in *.
    destruct (String.ltb k' key) eqn:Hk'key.
    + rewrite (ltb_trans _ _ _ Hk' Hk'key) in Hk. discriminate.
    + apply IHb. exact Hall'.
Qed.

Lemma seek_index_rest (b : Bucket) (key : string) :
  sorted b ->
  Forall (fun kv => String.ltb (fst kv) key = false) (skipn (Bucket.seek_index b key) b).
Proof.
  induction 1 as [|k v b Hall Hs IH]; [constructor|].
  cbn [Bucket.seek_index].
  destruct (String.ltb k key) eqn:Hk; [exact IH|].
  cbn [skipn]. constructor; [exact Hk|].
  eapply Forall_impl; [exact Hall|]. intros [k' v'] Hk'. cbn [fst] in *.
  destruct (String.ltb k' key) eqn:Hk'key; [|reflexivity].
  rewrite (ltb_trans _ _ _ Hk' Hk'key) in Hk. discriminate.
Qed.

Section IterFacts.

Context {W St : Type}.
Variable yield : Yield W (option Item) (option error) St.

Lemma iter_loop_fuel (b : Bucket) :
  forall (p fuel : nat) (s : W * St),
    (p < fuel)%nat ->
    iter_loop fuel {| Bucket.elems := b; Bucket.pos := p |} yield s
    = iter_loop (S p) {| Bucket.elems := b; Bucket.pos := p |} yield s.
Proof.
  induction p as [|p IH]; intros [|fuel] s Hlt; try lia.
  - reflexivity.
  - cbn [iter_loop Bucket.Prev Bucket.pos Bucket.elems].
    destruct (nth_error b p) as [[k v]|]; [|reflexivity].
    destruct (json_Unmarshal v) as [e|item]; [reflexivity|].
    destruct (yield (Some item) None s) as [more s']. destruct more; [|reflexivity].
    rewrite (IH fuel) by lia. reflexivity.
Qed.

(** The loop walks the records before the cursor position, last first. *)
Lemma iter_loop_spec (b : Bucket) :
  forall (p : nat) (s : W * St),
    (p <= length b)%nat ->
    match iter_loop (S p) {| Bucket.elems := b; Bucket.pos := p |} yield s with
    | (Some e, s') => snd (yield None (Some e) s')
    | (None, s') => s'
    end
    = range (fun w => w) (decoded (rev (firstn p b))) yield s.
Proof.
  induction p as [|p IH]; intros [w st] Hle.
  - reflexivity.
  - cbn [iter_loop Bucket.Prev Bucket.pos Bucket.elems].
    destruct (nth_error b p) as [[k v]|] eqn:Hnth.
    2:{ apply nth_error_None in Hnth. lia. }
    rewrite (firstn_succ_nth _ _ _ Hnth), rev_app_distr.
    cbn [rev app decoded].
    destruct (json_Unmarshal v) as [e|item]; cbn [range fst snd].
    + destruct (yield None (Some e) (w, st)) as [more s']. destruct more; reflexivity.
    + destruct (yield (Some item) None (w, st)) as [more s']. destruct more; [|reflexivity].
      apply IH. lia.
Qed.

End IterFacts.

Section IterRuns.

Context {St : Type}.
Variable yield : Yield Cache (option Item) (option error) St.

Lemma Iter_runs (db db' : DB) (playlistId after : string) (b : Bucket) (st : St) :
  DB.Begin db = (None, db') ->
  buckets db' !! playlistId = Some b ->
  Iter playlistId after St yield (Some db, st)
  = Done (range (fun w => w)
            (decoded (rev (firstn (Bucket.seek_index b after) b))) yield (Some db', st)).
Proof.
  intros Hbegin Hb. unfold Iter. cbn [fst snd]. rewrite Hbegin, Hb.
  unfold Bucket.Seek. cbn [Bucket.pos].
  pose proof (iter_loop_spec yield b (Bucket.seek_index b after) (Some db', st)
                (seek_index_le b after)) as Hloop.
  destruct (iter_loop _ _ yield (Some db', st)) as [[e|] s']; rewrite <- Hloop; reflexivity.
Qed.

Lemma Iter_fault (db db' : DB) (playlistId after : string) (e : error) (st : St) :
  DB.Begin db = (Some e, db') ->
  Iter playlistId after St yield (Some db, st)
  = Done (range (fun w => w) [(None, Some e)] yield (Some db', st)).
Proof.
  intros Hbegin. unfold Iter. cbn [fst snd]. rewrite Hbegin. cbn [range fst snd].
  destruct (yield None (Some e) (Some db', st)) as [more s']. destruct more; reflexivity.
Qed.

Lemma Iter_no_bucket (db db' : DB) (playlistId after : string) (st : St) :
  DB.Begin db = (None, db') ->
  buckets db' !! playlistId = None ->
  Iter playlistId after St yield (Some db, st) = Panicked NilDereference.
Proof. intros Hbegin Hb. unfold Iter. cbn [fst snd]. rewrite Hbegin, Hb. reflexivity. Qed.

End IterRuns.

(** ** Records of a bucket *)

Lemma Get_insert_eq (b : Bucket) (key : string) (v : Value) :
  Bucket.Get (Bucket.insert b key v) key = Some v.
Proof.
  induction b as [|[k v0] b IH]; cbn [Bucket.insert Bucket.Get].
  - rewrite String.eqb_refl. reflexivity.
  - destruct (String.compare key k) eqn:Hc; cbn [Bucket.Get].
    + rewrite String.eqb_refl. reflexivity.
    + rewrite String.eqb_refl. reflexivity.
    + destruct (String.eqb k key) eqn:He; [|exact IH].
      apply String.eqb_eq in He. subst. rewrite string_compare_refl in Hc. discriminate.
Qed.

Lemma Get_insert_ne (b : Bucket) (key key' : string) (v : Value) :
  key <> key' -> Bucket.Get (Bucket.insert b key v) key' = Bucket.Get b key'.
Proof.
  intros Hne.
  assert (Hk : String.eqb key key' = false) by (apply String.eqb_neq; exact Hne).
  induction b as [|[k v0] b IH]; cbn [Bucket.insert Bucket.Get].
  - rewrite Hk. reflexivity.
  - destruct (String.compare key k) eqn:Hc; cbn [Bucket.Get].
    + apply string_compare_eq in Hc. subst k. rewrite Hk. reflexivity.
    + rewrite Hk. reflexivity.
    + rewrite IH. reflexivity.
Qed.

Lemma insert_keys_above (b : Bucket) (k key : string) (v : Value) :
  Forall (fun kv => String.ltb k (fst kv) = true) b ->
  String.ltb k key = true ->
  Forall (fun kv => String.ltb k (fst kv) = true) (Bucket.insert b key v).
Proof.
  intros Hall Hk. induction b as [|[k0 v0] b IH]; cbn [Bucket.insert].
  - constructor; [exact Hk|constructor].
  - inversion Hall as [|? ? Hk0 Hall']; subst.
    destruct (String.compare key k0); constructor; auto.
Qed.

Lemma sorted_insert (b : Bucket) (key : string) (v : Value) :
  sorted b -> sorted (Bucket.insert b key v).
Proof.
  induction 1 as [|k v0 b Hall Hs IH]; cbn [Bucket.insert].
  - constructor; constructor.
  - destruct (String.compare key k) eqn:Hc.
    + apply string_compare_eq in Hc. subst k. constructor; assumption.
    + constructor; [|constructor; assumption].
      constructor; [apply ltb_lt; exact Hc|].
      eapply Forall_impl; [exact Hall|]. intros [k' v'] Hk'. cbn [fst] in *.
      eapply ltb_trans; [apply ltb_lt; exact Hc|exact Hk'].
    + constructor; [|exact IH].
      apply insert_keys_above; [exact Hall|].
      apply ltb_lt, string_compare_gt_lt. exact Hc.
Qed.

Lemma Forall_insert (P : string * Value -> Prop) (b : Bucket) (key : string) (v : Value) :
  Forall P b -> P (key, v) -> Forall P (Bucket.insert b key v).
Proof.
  intros Hall Hp. induction b as [|[k0 v0] b IH]; cbn [Bucket.insert].
  - constructor; [exact Hp|constructor].
  - inversion Hall as [|? ? Hk0 Hall']; subst.
    destruct (String.compare key k0); constructor; auto.
Qed.

(** Writing at or above [bound] leaves the records below [bound] alone. *)
Lemma below_insert (b : Bucket) (bound key : string) (v : Value) :
  String.ltb key bound = false -> below bound (Bucket.insert b key v) = below bound b.
Proof.
  intros Hkey. unfold below.
  induction b as [|[k0 v0] b IH]; cbn [Bucket.insert List.filter fst].
  - rewrite Hkey. reflexivity.
  - destruct (String.compare key k0) eqn:Hc; cbn [List.filter fst].
    + apply string_compare_eq in Hc. subst k0. rewrite Hkey. reflexivity.
    + rewrite Hkey. reflexivity.
    + rewrite IH. reflexivity.
Qed.

Lemma well_formed_insert_item (b : Bucket) (item : Item) :
  well_formed b -> well_formed (Bucket.insert b (cache_key item) (Json item)).
Proof.
  intros [Hs Hk]. split; [apply sorted_insert; exact Hs|].
  apply Forall_insert; [exact Hk|reflexivity].
Qed.

Lemma well_formed_insert_limit (b : Bucket) (s : string) :
  well_formed b -> well_formed (Bucket.insert b "last-limit" (Text s)).
Proof.
  intros [Hs Hk]. split; [apply sorted_insert; exact Hs|].
  apply Forall_insert; [exact Hk|reflexivity].
Qed.

(** ** Shape of the keys *)

Lemma string_of_uint_head (d : Decimal.uint) :
  exists c rest,
    NilZero.string_of_uint d = String c rest /\ (48 <= N_of_ascii c <= 57)%N.
Proof.
  destruct d; cbn; eexists _, _; (split; [reflexivity|vm_compute; split; discriminate]).
Qed.

Lemma digit_code (d : Z) : 0 <= d <= 9 -> N_of_ascii (time.digit d) = Z.to_N (48 + d).
Proof.
  intros Hd. unfold time.digit. apply N_ascii_embedding. lia.
Qed.

Lemma two_digits_head (u : Z) (rest : string) :
  0 <= u < 100 ->
  exists c rest', time.two_digits u +:+ rest = String c rest' /\ (N_of_ascii c < 108)%N.
Proof.
  intros Hu. unfold time.two_digits. eexists _, _.
  split; [rewrite append_cons; reflexivity|].
  assert (Hq : 0 <= u / 10 <= 9)
    by (split; [apply Z.div_pos; lia|apply Z.lt_succ_r, Z.div_lt_upper_bound; lia]).
  rewrite digit_code by exact Hq. lia.
Qed.

(** A year is printed with a leading minus sign or a leading digit. *)
Lemma appendInt_year_head (x : Z) (rest : string) :
  exists c rest', time.appendInt x 4 +:+ rest = String c rest' /\ (N_of_ascii c < 108)%N.
Proof.
  unfold time.appendInt. destruct (x <? 0).
  - eexists _, _. split; [rewrite !append_cons; reflexivity|cbn; lia].
  - rewrite append_nil. cbn [Nat.eqb andb].
    destruct (Z.abs x <? 10000) eqn:Hsmall.
    + apply Z.ltb_lt in Hsmall.
      destruct (two_digits_head (Z.abs x / 100)
                  (time.two_digits (Z.abs x mod 100) +:+ rest)) as (c & rest' & Heq & Hc).
      * split; [apply Z.div_pos; lia|apply Z.div_lt_upper_bound; lia].
      * exists c, rest'. split; [|exact Hc].
        rewrite <- Heq. apply string_append_assoc.
    + destruct (string_of_uint_head (N.to_uint (Z.to_N (Z.abs x)))) as (c & tl & -> & Hc).
      destruct (4 - String.length (String c tl))%nat as [|n].
      * eexists _, _. split; [cbn [time.zeros repeat string_of_list_ascii];
          rewrite append_nil, !append_cons; reflexivity|lia].
      * eexists _, _. split; [cbn [time.zeros repeat string_of_list_ascii];
          rewrite !append_cons; reflexivity|cbn; lia].
Qed.

(** An RFC 3339 text begins with a digit or a minus sign. *)
Lemma Format_head (t : time.Time) :
  exists c rest,
    time.Format_RFC3339 t = String c rest /\ (N_of_ascii c < 108)%N.
Proof. unfold time.Format_RFC3339. apply appendInt_year_head. Qed.

Lemma limit_key_not_below (c : ascii) (rest : string) :
  (N_of_ascii c < 108)%N -> String.ltb "last-limit" (String c rest) = false.
Proof.
  intros Hc. unfold String.ltb. cbn [String.compare]. unfold Ascii.compare.
  change (N_of_ascii "l") with 108%N.
  destruct (N.compare_spec 108 (N_of_ascii c)) as [E|L|G]; first [lia|reflexivity].
Qed.

Lemma limit_key_not_below_time (t : time.Time) :
  String.ltb "last-limit" (time.Format_RFC3339 t) = false.
Proof.
  destruct (Format_head t) as (c & rest & -> & Hc). apply limit_key_not_below, Hc.
Qed.

Lemma cache_key_head (i : Item) :
  exists c rest, cache_key i = String c rest /\ (N_of_ascii c < 108)%N.
Proof.
  unfold cache_key. destruct (Format_head (Created i)) as (c & rest & -> & Hc).
  eexists _, _. split; [rewrite append_cons; reflexivity|exact Hc].
Qed.

Lemma cache_key_not_limit (i : Item) : cache_key i <> "last-limit".
Proof.
  destruct (cache_key_head i) as (c & rest & -> & Hc). intros H.
  injection H as -> _. cbn in Hc. lia.
Qed.

Lemma cache_key_not_below_time (i : Item) :
  String.ltb (cache_key i) (time.Format_RFC3339 (Created i)) = false.
Proof. unfold cache_key. apply ltb_prefix. Qed.

Lemma Put_limit_key (b : Bucket) (v : Value) :
  Bucket.Put b "last-limit" v = (None, Bucket.insert b "last-limit" v).
Proof. reflexivity. Qed.

Lemma Put_cache_key (b : Bucket) (i : Item) (v : Value) :
  Z.of_nat (String.length (cache_key i)) <= Bucket.MaxKeySize ->
  Bucket.Put b (cache_key i) v = (None, Bucket.insert b (cache_key i) v).
Proof.
  intros Hsize. unfold Bucket.Put.
  destruct (cache_key_head i) as (c & rest & Hkey & _). rewrite Hkey in Hsize |- *.
  apply Z.ltb_ge in Hsize. rewrite Hsize. reflexivity.
Qed.

Lemma Put_key_too_large (b : Bucket) (key : string) (v : Value) :
  Bucket.MaxKeySize < Z.of_nat (String.length key) ->
  Bucket.Put b key v = (Some Bucket.ErrKeyTooLarge, b).
Proof.
  intros Hsize. unfold Bucket.Put.
  destruct key as [|c rest]; [unfold Bucket.MaxKeySize in Hsize; cbn in Hsize; lia|].
  apply Z.ltb_lt in Hsize. rewrite Hsize. reflexivity.
Qed.

(** [Put] writes to the bucket at hand or returns it as it is. *)
Lemma Put_cases (b : Bucket) (key : string) (v : Value) :
  Bucket.Put b key v = (None, Bucket.insert b key v)
  \/ exists e, Bucket.Put b key v = (Some e, b).
Proof.
  unfold Bucket.Put. destruct key as [|c rest]; [right; eexists; reflexivity|].
  destruct (Bucket.MaxKeySize <? _); [right; eexists; reflexivity|left; reflexivity].
Qed.

Lemma json_Marshal_storable (i : Item) : storable i -> json_Marshal i = inr (Json i).
Proof. intros [Htime _]. unfold json_Marshal. rewrite Htime. reflexivity. Qed.

Lemma storable_not_refused (i : Item) : storable i -> ~ refused i.
Proof. intros (Htime & Hkey & _) [H|H]; [contradiction|lia]. Qed.

(** [json.Marshal] returns the text of the item or an error. *)
Lemma json_Marshal_cases (i : Item) :
  json_Marshal i = inr (Json i) \/ exists e, json_Marshal i = inl e.
Proof.
  unfold json_Marshal. destruct (time.MarshalJSON (Created i));
    [right; eexists; reflexivity|left; reflexivity].
Qed.

(** ** Transactions and faults *)

Lemma Begin_spend (db : DB) :
  DB.Begin db
  = (hd None (faults db), {| faults := skipn 1 (faults db); buckets := buckets db |}).
Proof. destruct db as [[|f fs] bs]; reflexivity. Qed.

Lemma Begin_no_fault (db : DB) : faults db = [] -> DB.Begin db = (None, db).
Proof. destruct db as [fs bs]. cbn. intros ->. reflexivity. Qed.

Lemma spend_spend (n m : nat) (c : Cache) : spend n (spend m c) = spend (m + n) c.
Proof.
  destruct c as [db|]; [|reflexivity]. cbn [spend faults buckets].
  rewrite skipn_skipn. do 3 f_equal. lia.
Qed.

Lemma spend_0 (c : Cache) : spend 0 c = c.
Proof. destruct c as [[fs bs]|]; reflexivity. Qed.

Lemma spend_no_fault (n : nat) (db : DB) : faults db = [] -> spend n (Some db) = Some db.
Proof.
  destruct db as [fs bs]. cbn. intros ->. rewrite skipn_nil. reflexivity.
Qed.

Lemma cache_buckets_spend (n : nat) (c : Cache) : cache_buckets (spend n c) = cache_buckets c.
Proof. destruct c; reflexivity. Qed.

Lemma cached_spend (n : nat) (c : Cache) (playlistId : string) (i : Item) :
  cached (spend n c) playlistId i = cached c playlistId i.
Proof. destruct c; reflexivity. Qed.

Lemma HasItem_spend (c : Cache) (playlistId : string) (i : Item) :
  snd (HasItem c playlistId i) = spend 1 c.
Proof.
  destruct c as [db|]; [|reflexivity]. unfold HasItem. rewrite Begin_spend.
  destruct (hd None (faults db)); [reflexivity|]. cbn [buckets].
  destruct (buckets db !! playlistId); reflexivity.
Qed.

Lemma HasItem_absent (c : Cache) (playlistId : string) (i : Item) :
  cached c playlistId i = false -> fst (HasItem c playlistId i) = false.
Proof.
  destruct c as [db|]; [|reflexivity]. unfold HasItem, cached. rewrite Begin_spend.
  destruct (hd None (faults db)); [reflexivity|]. cbn [buckets].
  destruct (buckets db !! playlistId); [intros ->|]; reflexivity.
Qed.

Lemma HasItem_present (db : DB) (playlistId : string) (i : Item) :
  hd None (faults db) = None ->
  fst (HasItem (Some db) playlistId i) = cached (Some db) playlistId i.
Proof.
  intros Hf. unfold HasItem, cached. rewrite Begin_spend, Hf. cbn [buckets].
  destruct (buckets db !! playlistId); reflexivity.
Qed.

(** ** The live phase *)

Section LivePhase.

Variable lib : Library.
Variable playlistId : string.
Variable o : options.

Let body := live_body lib playlistId o.
Local Abbreviation idw := (fun w : Cache => w) (only parsing).

Lemma live_phase_as_list (c : Cache) (call : ListCall) :
  live_phase lib c call playlistId o
  = Done (range idw (firstn (Z.to_nat (limit o)) (emitted call)) body
            (c, {| vids := []; returned := None |})).
Proof.
  unfold live_phase. destruct (Z.le_gt_cases (limit o) 0) as [Hle|Hgt].
  - rewrite take_nothing by exact Hle.
    replace (Z.to_nat (limit o)) with O by lia. reflexivity.
  - apply (take_as_list idw); [|lia].
    intros St yield st. apply allPlaylistItems_as_list.
Qed.

(** Items that map and are not cached are appended, one transaction each. *)
Lemma live_range_new :
  forall (pis : list PlaylistItem) (its : list Item),
    Forall2 (fun e i => mapToFeedItem lib e o = inr i) pis its ->
    forall (rest : list (option PlaylistItem * option error)) (c : Cache) (vs : list Item),
      Forall (fun i => cached c playlistId i = false) its ->
      range idw (map listed pis ++ rest) body (c, {| vids := vs; returned := None |})
      = range idw rest body
          (spend (length pis) c, {| vids := vs ++ its; returned := None |}).
Proof.
  induction 1 as [|e i pis its Hmap Hall IH]; intros rest c vs Hnew.
  - cbn [map app length]. rewrite spend_0, app_nil_r. reflexivity.
  - inversion Hnew as [|? ? Hi Hnew']; subst.
    cbn [map app listed range fst snd length]. unfold body at 1, live_body. cbv beta.
    cbn [vids]. rewrite Hmap.
    pose proof (HasItem_absent c playlistId i Hi) as Hfst.
    pose proof (HasItem_spend c playlistId i) as Hsnd.
    destruct (HasItem c playlistId i) as [has c']. cbn [fst snd] in Hfst, Hsnd. subst has c'.
    cbn [negb]. fold body. rewrite IH.
    + rewrite spend_spend, <- app_assoc. reflexivity.
    + eapply Forall_impl; [exact Hnew'|]. intros x Hx. rewrite cached_spend. exact Hx.
Qed.

(** A cached item is appended and ends the loop. *)
Lemma live_range_pivot (e : PlaylistItem) (p : Item)
    (rest : list (option PlaylistItem * option error)) (c : Cache) (vs : list Item) :
  mapToFeedItem lib e o = inr p ->
  fst (HasItem c playlistId p) = true ->
  range idw (listed e :: rest) body (c, {| vids := vs; returned := None |})
  = (spend 1 c, {| vids := vs ++ [p]; returned := None |}).
Proof.
  intros Hmap Hhas. cbn [listed range fst snd]. unfold body, live_body. cbv beta.
  cbn [vids]. rewrite Hmap.
  pose proof (HasItem_spend c playlistId p) as Hsnd.
  destruct (HasItem c playlistId p) as [has c']. cbn [fst snd] in Hhas, Hsnd. subst has c'.
  reflexivity.
Qed.

(** An error element makes the body return it. *)
Lemma live_range_error (err : error)
    (rest : list (option PlaylistItem * option error)) (c : Cache) (vs : list Item) :
  range idw ((None, Some err) :: rest) body (c, {| vids := vs; returned := None |})
  = (c, {| vids := vs; returned := Some (Fail err) |}).
Proof. reflexivity. Qed.

(** An item that does not map makes the body return the mapping error. *)
Lemma live_range_unmapped (e : PlaylistItem) (err : error)
    (rest : list (option PlaylistItem * option error)) (c : Cache) (vs : list Item) :
  mapToFeedItem lib e o = inl err ->
  range idw (listed e :: rest) body (c, {| vids := vs; returned := None |})
  = (c, {| vids := vs; returned := Some (Fail err) |}).
Proof.
  intros Hmap. cbn [listed range fst snd]. unfold body, live_body. cbv beta.
  cbn [vids]. rewrite Hmap. reflexivity.
Qed.

(** The loop never writes to the buckets. *)
Lemma live_range_buckets :
  forall (l : list (option PlaylistItem * option error)) (c : Cache) (st : Loop),
    cache_buckets (fst (range idw l body (c, st))) = cache_buckets c.
Proof.
  induction l as [|[item err] l IH]; intros c st; [reflexivity|].
  cbn [range fst snd]. unfold body at 1, live_body. cbv beta.
  destruct err as [e|]; [reflexivity|].
  destruct item as [e|]; [|reflexivity].
  destruct (mapToFeedItem lib e o) as [e'|video]; [reflexivity|].
  pose proof (HasItem_spend c playlistId video) as Hsnd.
  destruct (HasItem c playlistId video) as [has c']. cbn [snd] in Hsnd. subst c'.
  destruct has; cbn [negb].
  - apply cache_buckets_spend.
  - fold body. rewrite IH. apply cache_buckets_spend.
Qed.

End LivePhase.

(** ** The cache methods when their transaction runs *)

Lemma Invalidate_fault (db : DB) (playlistId : string) (lim : Z) (e : error) :
  hd None (faults db) = Some e ->
  InvalidateCacheIfDirty (Some db) playlistId lim
  = Some {| faults := skipn 1 (faults db); buckets := buckets db |}.
Proof.
  intros Hf. unfold InvalidateCacheIfDirty, DB.Update. rewrite Begin_spend, Hf. reflexivity.
Qed.

Lemma Invalidate_no_bucket (db : DB) (playlistId : string) (lim : Z) :
  buckets db !! playlistId = None ->
  InvalidateCacheIfDirty (Some db) playlistId lim
  = Some {| faults := skipn 1 (faults db); buckets := buckets db |}.
Proof.
  intros Hb. unfold InvalidateCacheIfDirty, DB.Update. rewrite Begin_spend.
  destruct (hd None (faults db)); [reflexivity|]. cbn [buckets faults]. rewrite Hb. reflexivity.
Qed.

(** The stored limit covers the request: the bucket stays, and the stored
    limit becomes the requested one. *)
Lemma Invalidate_trusted (db : DB) (playlistId : string) (lim n : Z) (b : Bucket) :
  hd None (faults db) = None ->
  playlistId <> "" ->
  buckets db !! playlistId = Some b ->
  Atoi_value (Bucket.Get b "last-limit") = (n, None) ->
  lim <= n ->
  InvalidateCacheIfDirty (Some db) playlistId lim
  = Some {| faults := skipn 1 (faults db);
            buckets := <[playlistId := Bucket.insert b "last-limit" (Text (strconv.Itoa lim))]>
                         (buckets db) |}.
Proof.
  intros Hf Hname Hb Hparse Hle.
  unfold InvalidateCacheIfDirty, DB.Update. rewrite Begin_spend, Hf. cbn [buckets faults].
  rewrite Hb, Hparse.
  replace (n <? lim) with false by (symmetry; apply Z.ltb_ge; exact Hle).
  cbn [orb is_err]. unfold Tx.CreateBucketIfNotExists.
  destruct playlistId as [|a s]; [contradiction|]. rewrite Hb. reflexivity.
Qed.

(** The stored limit is missing, unreadable or too small: the bucket is
    dropped and made anew, holding the requested limit only. *)
Lemma Invalidate_stale (db : DB) (playlistId : string) (lim : Z) (b : Bucket) :
  hd None (faults db) = None ->
  playlistId <> "" ->
  buckets db !! playlistId = Some b ->
  (fst (Atoi_value (Bucket.Get b "last-limit")) <? lim)
    || is_err (snd (Atoi_value (Bucket.Get b "last-limit"))) = true ->
  InvalidateCacheIfDirty (Some db) playlistId lim
  = Some {| faults := skipn 1 (faults db);
            buckets := <[playlistId := [("last-limit", Text (strconv.Itoa lim))]]>
                         (buckets db) |}.
Proof.
  intros Hf Hname Hb Hstale.
  unfold InvalidateCacheIfDirty, DB.Update. rewrite Begin_spend, Hf. cbn [buckets faults].
  rewrite Hb. destruct (Atoi_value (Bucket.Get b "last-limit")) as [lastLimit err].
  cbn [fst snd] in Hstale. rewrite Hstale.
  unfold Tx.DeleteBucket. rewrite Hb. unfold Tx.CreateBucketIfNotExists.
  destruct playlistId as [|a s]; [contradiction|].
  rewrite lookup_delete_eq, Put_limit_key. cbn [Bucket.insert].
  rewrite insert_insert_eq, insert_delete_eq. reflexivity.
Qed.

Lemma put_items_ok :
  forall (items : list Item) (b : Bucket),
    Forall storable items ->
    put_items b items = (None, insert_all b items).
Proof.
  induction items as [|i items IH]; intros b Hall; cbn [put_items insert_all fold_left].
  - reflexivity.
  - inversion Hall as [|? ? Hi Hall']; subst.
    rewrite (json_Marshal_storable i Hi), Put_cache_key by apply (proj1 (proj2 Hi)).
    apply IH, Hall'.
Qed.

(** The loop of [Put] stores every item, or ends with an error. *)
Lemma put_items_cases :
  forall (items : list Item) (b : Bucket),
    put_items b items = (None, insert_all b items)
    \/ exists e b', put_items b items = (Some e, b').
Proof.
  induction items as [|i items IH]; intros b; cbn [put_items insert_all fold_left].
  - left. reflexivity.
  - destruct (json_Marshal_cases i) as [-> | [e ->]]; [|right; eexists _, _; reflexivity].
    destruct (Put_cases b (cache_key i) (Json i)) as [-> | [e ->]];
      [apply IH|right; eexists _, _; reflexivity].
Qed.

(** An item that cannot be stored fails the whole batch. *)
Lemma put_items_refused :
  forall (items : list Item) (b : Bucket),
    Exists refused items -> exists e b', put_items b items = (Some e, b').
Proof.
  induction items as [|i items IH]; intros b Hex; [inversion Hex|].
  cbn [put_items].
  destruct (json_Marshal_cases i) as [Hm | [e ->]]; [|eexists _, _; reflexivity].
  rewrite Hm.
  destruct (Put_cases b (cache_key i) (Json i)) as [Hp | [e ->]];
    [|eexists _, _; reflexivity].
  rewrite Hp. apply IH. inversion Hex as [? ? Hi|? ? Hrest]; subst; [|exact Hrest].
  exfalso. destruct Hi as [Htime|Hkey].
  - unfold json_Marshal in Hm.
    destruct (time.MarshalJSON (Created i)); [discriminate|contradiction].
  - rewrite Put_key_too_large in Hp by exact Hkey. discriminate.
Qed.

Lemma Put_fault (db : DB) (playlistId : string) (items : list Item) (e : error) :
  hd None (faults db) = Some e ->
  Put (Some db) playlistId items
  = Some {| faults := skipn 1 (faults db); buckets := buckets db |}.
Proof.
  intros Hf. unfold Put, DB.Update. rewrite Begin_spend, Hf. reflexivity.
Qed.

Lemma Put_existing (db : DB) (playlistId : string) (items : list Item) (b : Bucket) :
  hd None (faults db) = None ->
  playlistId <> "" ->
  buckets db !! playlistId = Some b ->
  Forall storable items ->
  Put (Some db) playlistId items
  = Some {| faults := skipn 1 (faults db);
            buckets := <[playlistId := insert_all b items]> (buckets db) |}.
Proof.
  intros Hf Hname Hb Hall. unfold Put, DB.Update. rewrite Begin_spend, Hf. cbn [buckets faults].
  unfold Tx.CreateBucketIfNotExists. destruct playlistId as [|a s]; [contradiction|].
  rewrite Hb, put_items_ok by exact Hall. reflexivity.
Qed.

Lemma Put_fresh (db : DB) (playlistId : string) (items : list Item) :
  hd None (faults db) = None ->
  playlistId <> "" ->
  buckets db !! playlistId = None ->
  Forall storable items ->
  Put (Some db) playlistId items
  = Some {| faults := skipn 1 (faults db);
            buckets := <[playlistId := insert_all [] items]> (buckets db) |}.
Proof.
  intros Hf Hname Hb Hall. unfold Put, DB.Update. rewrite Begin_spend, Hf. cbn [buckets faults].
  unfold Tx.CreateBucketIfNotExists. destruct playlistId as [|a s]; [contradiction|].
  rewrite Hb, put_items_ok, insert_insert_eq by exact Hall. reflexivity.
Qed.

(** A batch with an item that cannot be stored is rolled back as a whole. *)
Lemma Put_refused (db : DB) (playlistId : string) (items : list Item) :
  Exists refused items ->
  Put (Some db) playlistId items
  = Some {| faults := skipn 1 (faults db); buckets := buckets db |}.
Proof.
  intros Hnot. unfold Put, DB.Update. rewrite Begin_spend.
  destruct (hd None (faults db)); [reflexivity|]. cbn [buckets faults].
  unfold Tx.CreateBucketIfNotExists. destruct playlistId as [|a s]; [reflexivity|].
  destruct (buckets db !! String a s) as [b|].
  - destruct (put_items_refused items b Hnot) as (e & b' & ->). reflexivity.
  - destruct (put_items_refused items [] Hnot) as (e & b' & ->). reflexivity.
Qed.

(** [Put] stores the whole batch in the bucket of the playlist, or leaves
    the buckets as they are. *)
Lemma Put_cases_db (db : DB) (playlistId : string) (items : list Item) :
  Put (Some db) playlistId items
  = Some {| faults := skipn 1 (faults db);
            buckets := <[playlistId := insert_all (bucket_of (buckets db) playlistId) items]>
                         (buckets db) |}
  \/ Put (Some db) playlistId items
     = Some {| faults := skipn 1 (faults db); buckets := buckets db |}.
Proof.
  unfold Put, DB.Update, bucket_of. rewrite Begin_spend.
  destruct (hd None (faults db)); [right; reflexivity|]. cbn [buckets faults].
  unfold Tx.CreateBucketIfNotExists. destruct playlistId as [|a s]; [right; reflexivity|].
  destruct (buckets db !! String a s) as [b|].
  - destruct (put_items_cases items b) as [-> | (e & b' & ->)];
      [left; reflexivity|right; reflexivity].
  - destruct (put_items_cases items []) as [-> | (e & b' & ->)];
      [left; rewrite insert_insert_eq; reflexivity|right; reflexivity].
Qed.

Lemma insert_all_app (b : Bucket) (xs ys : list Item) :
  insert_all b (xs ++ ys) = insert_all (insert_all b xs) ys.
Proof. unfold insert_all. apply fold_left_app. Qed.

Lemma well_formed_insert_all :
  forall (items : list Item) (b : Bucket), well_formed b -> well_formed (insert_all b items).
Proof.
  induction items as [|i items IH]; intros b Hb; [exact Hb|].
  cbn [insert_all fold_left]. apply IH, well_formed_insert_item, Hb.
Qed.

Lemma below_insert_all (bound : string) :
  forall (items : list Item) (b : Bucket),
    Forall (fun i => String.ltb (cache_key i) bound = false) items ->
    below bound (insert_all b items) = below bound b.
Proof.
  induction items as [|i items IH]; intros b Hall; [reflexivity|].
  inversion Hall as [|? ? Hi Hall']; subst.
  cbn [insert_all fold_left]. fold (insert_all (Bucket.insert b (cache_key i) (Json i)) items).
  rewrite IH by exact Hall'. apply below_insert, Hi.
Qed.

Lemma Get_insert_all_other (key : string) :
  forall (items : list Item) (b : Bucket),
    Forall (fun i => cache_key i <> key) items ->
    Bucket.Get (insert_all b items) key = Bucket.Get b key.
Proof.
  induction items as [|i items IH]; intros b Hall; [reflexivity|].
  inversion Hall as [|? ? Hi Hall']; subst.
  cbn [insert_all fold_left]. fold (insert_all (Bucket.insert b (cache_key i) (Json i)) items).
  rewrite IH by exact Hall'. apply Get_insert_ne, Hi.
Qed.

(** ** The fallback phase *)

Lemma decoded_json (records : list (string * Value)) :
  Forall is_json records ->
  decoded records = map stored (map json_decoded (payloads records)).
Proof.
  induction 1 as [|[k v] records Hj Hall IH]; [reflexivity|].
  destruct v as [i|s]; [|destruct Hj]. cbn [decoded json_Unmarshal payloads map].
  rewrite IH. reflexivity.
Qed.

(** Items that come out of the cache as they went in. *)
Lemma map_round_trips (items : list Item) :
  Forall round_trips items -> map json_decoded items = items.
Proof.
  induction 1 as [|i items Hi Hall IH]; [reflexivity|].
  cbn [map]. rewrite Hi, IH. reflexivity.
Qed.

Lemma below_json (bound : string) (b : Bucket) :
  Forall keyed b -> String.ltb "last-limit" bound = false -> Forall is_json (below bound b).
Proof.
  intros Hk Hbound. unfold below.
  induction Hk as [|[k v] b Hkv Hall IH]; cbn [List.filter fst]; [constructor|].
  destruct (String.ltb k bound) eqn:Hlt; [|exact IH].
  constructor; [|exact IH]. unfold keyed, is_json in *. cbn [fst snd] in *.
  destruct v as [i|s]; [exact I|]. subst k. congruence.
Qed.

Lemma below_keyed (bound : string) (b : Bucket) :
  Forall keyed b ->
  Forall (fun i => String.ltb (cache_key i) bound = true) (payloads (below bound b)).
Proof.
  intros Hk. unfold below.
  induction Hk as [|[k v] b Hkv Hall IH]; cbn [List.filter fst]; [constructor|].
  destruct (String.ltb k bound) eqn:Hlt; [|exact IH].
  destruct v as [i|s]; cbn [payloads]; [|exact IH].
  constructor; [|exact IH]. unfold keyed in Hkv. cbn [fst snd] in Hkv. subst k. exact Hlt.
Qed.

Lemma payloads_app (xs ys : list (string * Value)) :
  payloads (xs ++ ys) = (payloads xs ++ payloads ys)%list.
Proof.
  induction xs as [|[k [i|s]] xs IH]; cbn [app payloads]; [reflexivity| |exact IH].
  rewrite IH. reflexivity.
Qed.

Lemma payloads_rev (xs : list (string * Value)) : payloads (rev xs) = rev (payloads xs).
Proof.
  induction xs as [|[k [i|s]] xs IH]; cbn [rev payloads]; [reflexivity| |].
  - rewrite payloads_app, IH. reflexivity.
  - rewrite payloads_app, IH. cbn [payloads]. apply app_nil_r.
Qed.

Lemma fallback_range_stored :
  forall (items : list Item) (c : Cache) (vs : list Item),
    range (fun w : Cache => w) (map stored items) fallback_body
      (c, {| vids := vs; returned := None |})
    = (c, {| vids := vs ++ items; returned := None |}).
Proof.
  induction items as [|i items IH]; intros c vs; cbn [map range stored fst snd].
  - rewrite app_nil_r. reflexivity.
  - unfold fallback_body at 1. cbn [vids]. rewrite IH, <- app_assoc. reflexivity.
Qed.

(** With the bucket at hand and its transaction running, the second loop
    appends the stored items below [after], highest key first, as far as the
    limit leaves room. *)
Lemma fallback_phase_runs (db : DB) (playlistId after : string) (o : options)
    (vs : list Item) (b : Bucket) :
  hd None (faults db) = None ->
  buckets db !! playlistId = Some b ->
  sorted b ->
  Forall is_json (below after b) ->
  exists c',
    fallback_phase (Some db) playlistId o vs after
    = Done (c', {| vids := vs ++ firstn (Z.to_nat (limit o - len vs))
                                  (map json_decoded (payloads (rev (below after b))));
                   returned := None |})
    /\ cache_buckets c' = buckets db.
Proof.
  intros Hf Hb Hs Hj. unfold fallback_phase.
  destruct (Z.le_gt_cases (limit o - len vs) 0) as [Hle|Hgt].
  - exists (Some db). rewrite take_nothing by lia.
    replace (Z.to_nat (limit o - len vs)) with O by lia.
    cbn [firstn]. rewrite app_nil_r. split; reflexivity.
  - exists (Some {| faults := skipn 1 (faults db); buckets := buckets db |}).
    split; [|reflexivity].
    rewrite (take_as_list (fun w : Cache => w) _ _
               (decoded (rev (below after b))) (Some db)
               (Some {| faults := skipn 1 (faults db); buckets := buckets db |})).
    + replace (Z.to_nat (Z.max 0 (limit o - len vs)))
        with (Z.to_nat (limit o - len vs)) by lia.
      rewrite decoded_json by (apply Forall_rev; exact Hj).
      rewrite firstn_map, fallback_range_stored. reflexivity.
    + intros St yield st. rewrite <- (seek_index_below b after Hs).
      apply Iter_runs; [rewrite Begin_spend, Hf; reflexivity|exact Hb].
    + lia.
Qed.

(** ** Feed assembly around a pivot *)

Lemma firstn_covers {A : Type} (n : nat) (xs ys : list A) :
  (length xs <= n)%nat -> firstn n (xs ++ ys) = (xs ++ firstn (n - length xs) ys)%list.
Proof.
  intros Hle. rewrite firstn_app. f_equal. apply firstn_all2. exact Hle.
Qed.

Lemma Forall2_length_eq {A B : Type} (R : A -> B -> Prop) (xs : list A) (ys : list B) :
  Forall2 R xs ys -> length xs = length ys.
Proof. induction 1; cbn; congruence. Qed.

(** The second loop after a live phase that ended at the pivot [p], over a
    bucket [b2] that has the records of [b] below the pivot's timestamp. *)
Lemma fallback_after_pivot (db2 : DB) (playlistId : string) (o : options)
    (its : list Item) (p : Item) (b b2 : Bucket) :
  faults db2 = [] ->
  buckets db2 !! playlistId = Some b2 ->
  well_formed b2 ->
  Forall keyed b ->
  below (time.Format_RFC3339 (Created p)) b2 = below (time.Format_RFC3339 (Created p)) b ->
  exists c',
    fallback_phase (Some db2) playlistId o (its ++ [p]) (time.Format_RFC3339 (Created p))
    = Done (c', {| vids := its ++ p :: firstn (Z.to_nat (limit o - len its - 1))
                                     (map json_decoded
                                        (payloads
                                           (rev (below (time.Format_RFC3339 (Created p)) b))));
                   returned := None |}).
Proof.
  intros Hf Hb2 Hwf Hk Hbelow.
  destruct (fallback_phase_runs db2 playlistId (time.Format_RFC3339 (Created p)) o
              (its ++ [p]) b2) as (c' & Hrun & _).
  - rewrite Hf. reflexivity.
  - exact Hb2.
  - apply Hwf.
  - rewrite Hbelow. apply below_json; [exact Hk|apply limit_key_not_below_time].
  - exists c'. rewrite Hrun, Hbelow, <- app_assoc. cbn [app].
    replace (len (its ++ [p])) with (len its + 1)
      by (unfold len; rewrite length_app; cbn [length]; lia).
    replace (limit o - (len its + 1)) with (limit o - len its - 1) by lia.
    reflexivity.
Qed.

Section Pivot.

Variable lib : Library.

(** The remote lists new items [its], then an item [p] that the bucket
    already holds; the stored limit covers the request and no transaction
    fails.  Then [videos] returns the new items, the pivot, and the stored
    items below the pivot's timestamp, highest key first, up to the limit. *)
Lemma videos_pivot (db : DB) (remote : Remote) (playlistId : string) (o : options)
    (b : Bucket) (n : Z) (pis : list PlaylistItem) (ppi : PlaylistItem)
    (its : list Item) (p : Item) (rest : list (option PlaylistItem * option error)) :
  faults db = [] ->
  playlistId <> "" ->
  buckets db !! playlistId = Some b ->
  well_formed b ->
  Atoi_value (Bucket.Get b "last-limit") = (n, None) ->
  limit o <= n ->
  client_err remote = None ->
  emitted (responses remote) = (map listed (pis ++ [ppi]) ++ rest)%list ->
  Forall2 (fun e i => mapToFeedItem lib e o = inr i) pis its ->
  mapToFeedItem lib ppi o = inr p ->
  len its < limit o ->
  Forall (fun i => Bucket.Get b (cache_key i) = None) its ->
  Bucket.Get b (cache_key p) <> None ->
  Forall (fun i => String.ltb (cache_key i) (time.Format_RFC3339 (Created p)) = false) its ->
  fst (videos lib (Some db) remote playlistId o)
  = Return (its ++ p :: firstn (Z.to_nat (limit o - len its - 1))
                         (map json_decoded
                            (payloads (rev (below (time.Format_RFC3339 (Created p)) b)))))%list.
Proof.
  intros Hf Hname Hb Hwf Hparse Hle Hclient Hemit Hmaps Hmap Hroom Hnew Hpivot Habove.
  pose proof (Forall2_length_eq _ _ _ Hmaps) as Hlen.
  set (b1 := Bucket.insert b "last-limit" (Text (strconv.Itoa (limit o)))).
  set (db1 := {| faults := []; buckets := <[playlistId := b1]> (buckets db) |}).
  assert (Hget1 : forall i, Bucket.Get b1 (cache_key i) = Bucket.Get b (cache_key i)).
  { intros i. apply Get_insert_ne. intros H. symmetry in H. exact (cache_key_not_limit i H). }
  assert (Hcached1 : forall i,
             cached (Some db1) playlistId i = has_value (Bucket.Get b (cache_key i))).
  { intros i. unfold cached, db1. cbn [buckets]. rewrite lookup_insert_eq, Hget1. reflexivity. }
  unfold videos.
  rewrite (Invalidate_trusted db playlistId (limit o) n b) by (try rewrite Hf; auto).
  rewrite Hf. cbn [skipn]. fold b1. fold db1.
  rewrite Hclient, live_phase_as_list, Hemit.
  rewrite firstn_covers by (rewrite length_map, length_app; cbn [length]; unfold len in Hroom; lia).
  rewrite map_app, <- app_assoc. cbn [map app].
  rewrite (live_range_new lib playlistId o pis its Hmaps).
  2:{ eapply Forall_impl; [exact Hnew|]. intros i Hi. rewrite Hcached1, Hi. reflexivity. }
  rewrite (spend_no_fault _ db1) by reflexivity.
  rewrite (live_range_pivot lib playlistId o ppi p _ _ _ Hmap).
  2:{ rewrite HasItem_present by reflexivity. rewrite Hcached1.
      destruct (Bucket.Get b (cache_key p)); [reflexivity|contradiction]. }
  rewrite (spend_no_fault _ db1) by reflexivity. cbn [returned vids app].
  set (after := time.Format_RFC3339 (Created p)).
  assert (Hb1 : buckets db1 !! playlistId = Some b1)
    by (unfold db1; cbn [buckets]; apply lookup_insert_eq).
  assert (Hbelow1 : below after b1 = below after b)
    by apply below_insert, limit_key_not_below_time.
  assert (Hwf1 : well_formed b1) by apply well_formed_insert_limit, Hwf.
  rewrite last_snoc. fold after.
  destruct (Put_cases_db db1 playlistId (its ++ [p])) as [HP|HP]; rewrite HP; clear HP.
  - (* the batch is stored *)
    unfold bucket_of. rewrite Hb1.
    set (b2 := insert_all b1 (its ++ [p])).
    destruct (fallback_after_pivot
                {| faults := skipn 1 (faults db1);
                   buckets := <[playlistId := b2]> (buckets db1) |}
                playlistId o its p b b2) as (c' & Hrun).
    + reflexivity.
    + cbn [buckets]. apply lookup_insert_eq.
    + apply well_formed_insert_all, Hwf1.
    + apply Hwf.
    + fold after. unfold b2. rewrite below_insert_all; [exact Hbelow1|].
      apply Forall_app. split; [exact Habove|].
      constructor; [apply cache_key_not_below_time|constructor].
    + fold after in Hrun. rewrite Hrun. reflexivity.
  - (* the batch is rolled back *)
    destruct (fallback_after_pivot
                {| faults := skipn 1 (faults db1); buckets := buckets db1 |}
                playlistId o its p b b1) as (c' & Hrun).
    + reflexivity.
    + exact Hb1.
    + exact Hwf1.
    + apply Hwf.
    + exact Hbelow1.
    + fold after in Hrun. rewrite Hrun. reflexivity.
Qed.

End Pivot.

(** ** What the remote side emits *)

Lemma emitted_pages (pages : list (list PlaylistItem)) :
  emitted (map inr pages) = map listed (concat pages).
Proof.
  induction pages as [|pl pages IH]; [reflexivity|].
  cbn [map emitted concat]. rewrite IH, map_app. reflexivity.
Qed.

Lemma emitted_error (pages : list (list PlaylistItem)) (msg : string) (later : ListCall) :
  emitted (map inr pages ++ inl msg :: later)%list
  = (map listed (concat pages) ++ [(None, Some (ErrMsg msg))])%list.
Proof.
  induction pages as [|pl pages IH]; [reflexivity|].
  cbn [map app emitted concat]. rewrite IH, map_app, <- app_assoc. reflexivity.
Qed.

(** ** Claims about the feed assembly *)

Section Assembly.

Variable lib : Library.

(** C1 (the code departs from the claim).  A request of limit 0 on any
    collection, and any request on a collection without items, ends in the
    panic of [videos[len(videos)-1]] on the empty slice; no empty list is
    returned. *)
Theorem videos_panics_on_empty_live_phase
    (c : Cache) (playlistId : string) (o : options) (answers : ListCall) :
  fst (videos lib c {| client_err := None; responses := answers |} playlistId (WithLimit 0 o))
  = Crash IndexOutOfRange
  /\ fst (videos lib c {| client_err := None; responses := [inr []] |} playlistId o)
     = Crash IndexOutOfRange.
Proof.
  split; unfold videos; cbn [client_err responses];
    rewrite live_phase_as_list.
  - cbn [limit WithLimit Z.to_nat firstn range returned vids last]. reflexivity.
  - cbn [emitted map app]. rewrite firstn_nil.
    cbn [range returned vids last]. reflexivity.
Qed.

(** C4.  The page requests answer [pages] and then fail with [msg]; the
    items of those pages map to [its], are fewer than the limit and are not
    in the cache once the dirty check is done, so that the live loop
    reaches the failure.  Then [videos] fails with that error, returns no
    item, and leaves the cache as the dirty check left it, up to the faults
    used by the lookups: nothing of the batch is stored. *)
Theorem remote_error_aborts_without_persisting
    (c : Cache) (remote : Remote) (playlistId : string) (o : options)
    (pages : list (list PlaylistItem)) (msg : string) (later : ListCall)
    (its : list Item) :
  client_err remote = None ->
  responses remote = (map inr pages ++ inl msg :: later)%list ->
  Forall2 (fun e i => mapToFeedItem lib e o = inr i) (concat pages) its ->
  len its < limit o ->
  Forall (fun i => cached (InvalidateCacheIfDirty c playlistId (limit o)) playlistId i = false)
    its ->
  let checked := InvalidateCacheIfDirty c playlistId (limit o) in
  videos lib c remote playlistId o = (Fail (ErrMsg msg), spend (length its) checked)
  /\ cache_buckets (snd (videos lib c remote playlistId o)) = cache_buckets checked
  /\ Forall (fun i => cached (snd (videos lib c remote playlistId o)) playlistId i = false) its.
Proof.
  intros Hclient Hanswers Hmaps Hroom Hnew checked.
  pose proof (Forall2_length_eq _ _ _ Hmaps) as Hlen.
  assert (Hrun : videos lib c remote playlistId o
                 = (Fail (ErrMsg msg), spend (length its) checked)).
  { unfold videos. fold checked. rewrite Hclient, live_phase_as_list, Hanswers, emitted_error.
    rewrite firstn_all2
      by (rewrite length_app, length_map; cbn [length]; unfold len in Hroom; lia).
    rewrite (live_range_new lib playlistId o _ its Hmaps) by exact Hnew.
    cbn [range fst snd live_body vids returned]. rewrite Hlen. reflexivity. }
  rewrite Hrun. cbn [snd]. split; [reflexivity|]. split.
  - apply cache_buckets_spend.
  - eapply Forall_impl; [exact Hnew|]. intros i Hi. rewrite cached_spend. exact Hi.
Qed.

End Assembly.

(** Witness of C4: two items are listed, then the third page request fails. *)
Lemma remote_error_aborts_without_persisting_witness :
  videos Scenario.lib (Some (Scenario.store Scenario.two_days))
    {| client_err := None;
       responses := [inr [Scenario.e3]; inr []; inl "quota exceeded"; inr [Scenario.e2]] |}
    Scenario.playlist (Scenario.with_limit 3)
  = (Fail (ErrMsg "quota exceeded"),
     spend 1 (InvalidateCacheIfDirty (Some (Scenario.store Scenario.two_days))
                Scenario.playlist 3)).
Proof.
  apply (remote_error_aborts_without_persisting Scenario.lib
           (Some (Scenario.store Scenario.two_days)) _ Scenario.playlist
           (Scenario.with_limit 3) [[Scenario.e3]; []] "quota exceeded"
           [inr [Scenario.e2]] [Scenario.v3]).
  - reflexivity.
  - reflexivity.
  - repeat constructor.
  - reflexivity.
  - repeat constructor.
Defined.

Section PivotClaims.

Variable lib : Library.

(** The live loop up to a cached item: the items before it are appended,
    then the cached item itself, and the loop ends there. *)
Lemma live_phase_pivot (c : Cache) (call : ListCall) (playlistId : string) (o : options)
    (pis : list PlaylistItem) (ppi : PlaylistItem) (its : list Item) (p : Item)
    (rest : list (option PlaylistItem * option error)) :
  emitted call = (map listed (pis ++ [ppi]) ++ rest)%list ->
  Forall2 (fun e i => mapToFeedItem lib e o = inr i) pis its ->
  mapToFeedItem lib ppi o = inr p ->
  len its < limit o ->
  Forall (fun i => cached c playlistId i = false) its ->
  fst (HasItem (spend (length pis) c) playlistId p) = true ->
  live_phase lib c call playlistId o
  = Done (spend (S (length pis)) c, {| vids := its ++ [p]; returned := None |}).
Proof.
  intros Hemit Hmaps Hmap Hroom Hnew Hhas.
  pose proof (Forall2_length_eq _ _ _ Hmaps) as Hlen.
  rewrite live_phase_as_list, Hemit.
  rewrite firstn_covers
    by (rewrite length_map, length_app; cbn [length]; unfold len in Hroom; lia).
  rewrite map_app, <- app_assoc. cbn [map app].
  rewrite (live_range_new lib playlistId o pis its Hmaps) by exact Hnew.
  rewrite (live_range_pivot lib playlistId o ppi p _ _ _ Hmap Hhas).
  rewrite spend_spend. cbn [app]. do 3 f_equal. lia.
Qed.

(** C2, as the code has it.  The remote lists new items [its] and then an
    item [p] the cache already holds (the stored limit covers the request
    and no transaction fails).  The live loop appends [p] itself to the
    result and stops there: the pivot is the last item of the live path.
    The fallback then adds only stored items whose key is strictly below the
    pivot's, each as [json.Unmarshal] returns it (as it was stored, when it
    comes back from JSON unchanged), so the record of the pivot is not read
    again. *)
Theorem pivot_ends_live_phase_and_fallback_is_older
    (db : DB) (remote : Remote) (playlistId : string) (o : options)
    (b : Bucket) (n : Z) (pis : list PlaylistItem) (ppi : PlaylistItem)
    (its : list Item) (p : Item) (rest : list (option PlaylistItem * option error)) :
  faults db = [] ->
  playlistId <> "" ->
  buckets db !! playlistId = Some b ->
  well_formed b ->
  Atoi_value (Bucket.Get b "last-limit") = (n, None) ->
  limit o <= n ->
  client_err remote = None ->
  emitted (responses remote) = (map listed (pis ++ [ppi]) ++ rest)%list ->
  Forall2 (fun e i => mapToFeedItem lib e o = inr i) pis its ->
  mapToFeedItem lib ppi o = inr p ->
  len its < limit o ->
  Forall (fun i => Bucket.Get b (cache_key i) = None) its ->
  Bucket.Get b (cache_key p) <> None ->
  Forall (fun i => String.ltb (cache_key i) (time.Format_RFC3339 (Created p)) = false) its ->
  loop_of (live_phase lib (InvalidateCacheIfDirty (Some db) playlistId (limit o))
             (responses remote) playlistId o)
  = Some {| vids := its ++ [p]; returned := None |}
  /\ exists older,
      fst (videos lib (Some db) remote playlistId o)
      = Return ((its ++ [p]) ++ map json_decoded older)%list
      /\ Forall (fun i => String.ltb (cache_key i) (cache_key p) = true) older
      /\ (Forall round_trips older ->
          fst (videos lib (Some db) remote playlistId o)
          = Return ((its ++ [p]) ++ older)%list).
Proof.
  intros Hf Hname Hb Hwf Hparse Hle Hclient Hemit Hmaps Hmap Hroom Hnew Hpivot Habove.
  split.
  - rewrite (Invalidate_trusted db playlistId (limit o) n b) by (try rewrite Hf; auto).
    rewrite Hf. cbn [skipn].
    set (b1 := Bucket.insert b "last-limit" (Text (strconv.Itoa (limit o)))).
    set (db1 := {| faults := []; buckets := <[playlistId := b1]> (buckets db) |}).
    assert (Hcached1 : forall i,
               cached (Some db1) playlistId i = has_value (Bucket.Get b (cache_key i))).
    { intros i. unfold cached, db1. cbn [buckets]. rewrite lookup_insert_eq.
      unfold b1. rewrite Get_insert_ne; [reflexivity|].
      intros H. symmetry in H. exact (cache_key_not_limit i H). }
    rewrite (live_phase_pivot (Some db1) _ playlistId o pis ppi its p rest); auto.
    + eapply Forall_impl; [exact Hnew|]. intros i Hi. rewrite Hcached1, Hi. reflexivity.
    + rewrite (spend_no_fault _ db1) by reflexivity.
      rewrite HasItem_present by reflexivity. rewrite Hcached1.
      destruct (Bucket.Get b (cache_key p)); [reflexivity|contradiction].
  - assert (Hrun : fst (videos lib (Some db) remote playlistId o)
                   = Return ((its ++ [p])
                             ++ map json_decoded
                                  (firstn (Z.to_nat (limit o - len its - 1))
                                     (payloads
                                        (rev (below (time.Format_RFC3339 (Created p)) b)))))%list).
    { rewrite (videos_pivot lib db remote playlistId o b n pis ppi its p rest); auto.
      rewrite <- app_assoc, <- firstn_map. reflexivity. }
    eexists. split; [exact Hrun|]. split.
    + apply Forall_take. rewrite payloads_rev. apply Forall_rev.
      eapply Forall_impl; [apply below_keyed, Hwf|].
      intros i Hi. cbn beta in Hi.
      eapply ltb_le_trans; [exact Hi|apply cache_key_not_below_time].
    + intros Hrt. rewrite Hrun, (map_round_trips _ Hrt). reflexivity.
Qed.

(** The merge when the stored items below the pivot's timestamp decode to
    exactly the items after the pivot in the collection: [videos] returns the first
    [limit] items of the collection, the new ones, the pivot, then the older
    ones. *)
Lemma videos_pivot_merge
    (db : DB) (remote : Remote) (playlistId : string) (o : options)
    (b : Bucket) (n : Z) (pis : list PlaylistItem) (ppi : PlaylistItem)
    (its : list Item) (p : Item) (older : list Item)
    (rest : list (option PlaylistItem * option error)) :
  faults db = [] ->
  playlistId <> "" ->
  buckets db !! playlistId = Some b ->
  well_formed b ->
  Atoi_value (Bucket.Get b "last-limit") = (n, None) ->
  limit o <= n ->
  client_err remote = None ->
  emitted (responses remote) = (map listed (pis ++ [ppi]) ++ rest)%list ->
  Forall2 (fun e i => mapToFeedItem lib e o = inr i) pis its ->
  mapToFeedItem lib ppi o = inr p ->
  len its < limit o ->
  Forall (fun i => Bucket.Get b (cache_key i) = None) its ->
  Bucket.Get b (cache_key p) <> None ->
  Forall (fun i => String.ltb (cache_key i) (time.Format_RFC3339 (Created p)) = false) its ->
  map json_decoded (payloads (rev (below (time.Format_RFC3339 (Created p)) b))) = older ->
  fst (videos lib (Some db) remote playlistId o)
  = Return (firstn (Z.to_nat (limit o)) (its ++ p :: older)).
Proof.
  intros Hf Hname Hb Hwf Hparse Hle Hclient Hemit Hmaps Hmap Hroom Hnew Hpivot Habove Holder.
  rewrite (videos_pivot lib db remote playlistId o b n pis ppi its p rest); auto.
  rewrite Holder. f_equal.
  rewrite firstn_covers by (unfold len in Hroom; lia).
  f_equal.
  destruct (Z.to_nat (limit o) - length its)%nat as [|k] eqn:Hk;
    [unfold len in Hroom; lia|].
  cbn [firstn]. do 2 f_equal. unfold len. lia.
Qed.

End PivotClaims.

(** Witness of C2: [v3] is new, [v2] is cached. *)
Lemma pivot_ends_live_phase_and_fallback_is_older_witness :
  loop_of (live_phase Scenario.lib
             (InvalidateCacheIfDirty (Some (Scenario.store Scenario.two_days))
                Scenario.playlist 3)
             (map inr [[Scenario.e3; Scenario.e2; Scenario.e1]])
             Scenario.playlist (Scenario.with_limit 3))
  = Some {| vids := [Scenario.v3; Scenario.v2]; returned := None |}.
Proof.
  refine (proj1 (pivot_ends_live_phase_and_fallback_is_older Scenario.lib
                   (Scenario.store Scenario.two_days)
                   (Scenario.listing [[Scenario.e3; Scenario.e2; Scenario.e1]])
                   Scenario.playlist (Scenario.with_limit 3) Scenario.two_days 5
                   [Scenario.e3] Scenario.e2 [Scenario.v3] Scenario.v2
                   [listed Scenario.e1] _ _ _ _ _ _ _ _ _ _ _ _ _ _)).
  - reflexivity.
  - discriminate.
  - reflexivity.
  - split; repeat constructor.
  - reflexivity.
  - discriminate.
  - reflexivity.
  - reflexivity.
  - repeat constructor.
  - reflexivity.
  - reflexivity.
  - repeat constructor.
  - discriminate.
  - repeat constructor.
Defined.

(** Counterexample to C2 as stated: [v2] is in the cache when the live loop
    meets it, and the live loop returns it; the fallback adds [v1] only. *)
Lemma pivot_is_added_by_the_live_path :
  let checked :=
    InvalidateCacheIfDirty (Some (Scenario.store Scenario.two_days)) Scenario.playlist 2 in
  cached checked Scenario.playlist Scenario.v2 = true
  /\ loop_of (live_phase Scenario.lib checked (map inr [[Scenario.e2; Scenario.e1]])
               Scenario.playlist (Scenario.with_limit 2))
     = Some {| vids := [Scenario.v2]; returned := None |}
  /\ fst (videos Scenario.lib (Some (Scenario.store Scenario.two_days))
            (Scenario.listing [[Scenario.e2; Scenario.e1]])
            Scenario.playlist (Scenario.with_limit 2))
     = Return [Scenario.v2; Scenario.v1].
Proof. cbv zeta. split; [|split]; vm_compute; reflexivity. Qed.

(** C5 (the code departs from the claim).  Without a cache and with a limit
    above the number of remote items, the second loop runs [Iter] on the nil
    handle, which panics; the one remote item is not returned. *)
Theorem nil_cache_panics_when_remote_is_short :
  fst (videos Scenario.lib None (Scenario.listing [[Scenario.e1]])
         Scenario.playlist (Scenario.with_limit 2))
  = Crash NilDereference.
Proof. vm_compute. reflexivity. Qed.

(** C6 (the code departs from the claim).  [v3] is new; the pivot ["b"] and
    the items ["a"] and [v1] after it are cached, ["a"] published in the
    same second as the pivot; the limit is 4.  The fallback seeks the
    pivot's timestamp, which lands on the record of ["a"], and walks down
    from there: ["a"] is left out and three items are returned. *)
Theorem same_second_item_is_dropped :
  cached (Some (Scenario.store Scenario.twins)) Scenario.playlist Scenario.v3 = false
  /\ cached (Some (Scenario.store Scenario.twins)) Scenario.playlist Scenario.twin_b = true
  /\ payloads (rev Scenario.twins) = [Scenario.twin_b; Scenario.twin_a; Scenario.v1]
  /\ Scenario.ids (fst (videos Scenario.lib (Some (Scenario.store Scenario.twins))
                          Scenario.twins_remote Scenario.playlist (Scenario.with_limit 4)))
     = Return ["v3"; "b"; "v1"].
Proof. repeat split; vm_compute; reflexivity. Qed.

(** ** Claims about the cache *)

(** C7, as the code has it.  In a bucket that exists, [Seek] stops before
    the first record whose key is not below [after]; the records before that
    position are exactly the records below [after], and the iteration hands
    them over from the highest key down, decoded, never the record at the
    position itself.  A record that does not decode ends the walk with an
    error element, and a transaction that cannot begin gives the error as
    the only element: errors reach the loop that ranges over [Iter]. *)
Theorem Iter_walks_down_from_start
    (db : DB) (playlistId after : string) (b : Bucket)
    (St : Type) (yield : Yield Cache (option Item) (option error) St) (st : St) :
  buckets db !! playlistId = Some b ->
  sorted b ->
  firstn (Bucket.pos (Bucket.Seek b after)) b = below after b
  /\ Forall (fun kv => String.ltb (fst kv) after = false)
       (skipn (Bucket.pos (Bucket.Seek b after)) b)
  /\ (forall db', DB.Begin db = (None, db') ->
        Iter playlistId after St yield (Some db, st)
        = Done (range (fun w => w) (decoded (rev (below after b))) yield (Some db', st)))
  /\ (forall e db', DB.Begin db = (Some e, db') ->
        Iter playlistId after St yield (Some db, st)
        = Done (range (fun w => w) [(None, Some e)] yield (Some db', st))).
Proof.
  intros Hb Hs. cbn [Bucket.Seek Bucket.pos].
  split; [apply seek_index_below, Hs|].
  split; [apply seek_index_rest, Hs|].
  split.
  - intros db' Hbegin. rewrite <- (seek_index_below b after Hs).
    apply Iter_runs; [exact Hbegin|].
    rewrite Begin_spend in Hbegin. injection Hbegin as _ <-. exact Hb.
  - intros e db' Hbegin. apply Iter_fault, Hbegin.
Qed.

(** Witness of C7: below the timestamp of [v2] the bucket holds [v1]. *)
Lemma Iter_walks_down_from_start_witness :
  Iter Scenario.playlist (time.Format_RFC3339 (Created Scenario.v2)) _
    (private_body collect) (Some (Scenario.store Scenario.two_days), [])
  = Done (Some (Scenario.store Scenario.two_days), [stored Scenario.v1]).
Proof.
  pose proof (Iter_walks_down_from_start (Scenario.store Scenario.two_days)
                Scenario.playlist (time.Format_RFC3339 (Created Scenario.v2))
                Scenario.two_days _ (private_body collect) []
                eq_refl ltac:(repeat constructor)) as (_ & _ & Hrun & _).
  rewrite (Hrun _ eq_refl). reflexivity.
Defined.

(** Counterexample to C7 as stated: the transaction of [Iter] cannot begin;
    the sequence is not empty but carries the error, and [videos], which
    ranges over it, fails its caller with that error. *)
Lemma Iter_hands_the_io_error_to_the_caller :
  Iter Scenario.playlist "2024" _ (private_body collect) (Some (Scenario.broken 1), [])
  = Done (Some (Scenario.broken 0), [(None, Some (ErrMsg "input/output error"))])
  /\ fst (videos Scenario.lib (Some (Scenario.broken 9)) (Scenario.listing [[Scenario.e1]])
            Scenario.playlist (Scenario.with_limit 2))
     = Fail (ErrMsg "input/output error").
Proof. split; vm_compute; reflexivity. Qed.

(** C3, as the code has it.  When the bucket exists and its stored limit is
    at least the requested one, the dirty check keeps the bucket and every
    record of it other than the limit, and leaves the other buckets alone;
    the stored limit is overwritten with the requested limit whenever the
    transaction runs (and is untouched when it fails). *)
Theorem dirty_check_keeps_records_and_stores_the_limit
    (db : DB) (playlistId : string) (lim n : Z) (b : Bucket) :
  playlistId <> "" ->
  buckets db !! playlistId = Some b ->
  Atoi_value (Bucket.Get b "last-limit") = (n, None) ->
  lim <= n ->
  exists db' b',
    InvalidateCacheIfDirty (Some db) playlistId lim = Some db'
    /\ buckets db' !! playlistId = Some b'
    /\ (forall key, key <> "last-limit" -> Bucket.Get b' key = Bucket.Get b key)
    /\ (forall other, other <> playlistId -> buckets db' !! other = buckets db !! other)
    /\ (hd None (faults db) = None ->
        Bucket.Get b' "last-limit" = Some (Text (strconv.Itoa lim)))
    /\ (forall e, hd None (faults db) = Some e -> b' = b).
Proof.
  intros Hname Hb Hparse Hle.
  destruct (hd None (faults db)) as [e|] eqn:Hf.
  - rewrite (Invalidate_fault db playlistId lim e Hf).
    eexists _, b. split; [reflexivity|]. cbn [buckets].
    repeat split; auto; discriminate.
  - rewrite (Invalidate_trusted db playlistId lim n b Hf Hname Hb Hparse Hle).
    eexists _, _. split; [reflexivity|]. cbn [buckets].
    split; [apply lookup_insert_eq|].
    split; [intros key Hkey; apply Get_insert_ne; congruence|].
    split; [intros other Hother; apply lookup_insert_ne; congruence|].
    split; [intros _; apply Get_insert_eq|discriminate].
Qed.

(** Witness of C3: a bucket filled at limit 5, checked for limit 3. *)
Lemma dirty_check_keeps_records_and_stores_the_limit_witness :
  exists db' b',
    InvalidateCacheIfDirty (Some (Scenario.store Scenario.two_days)) Scenario.playlist 3
    = Some db'
    /\ buckets db' !! Scenario.playlist = Some b'
    /\ Bucket.Get b' (cache_key Scenario.v2) = Some (Json Scenario.v2)
    /\ Bucket.Get b' "last-limit" = Some (Text "3").
Proof.
  destruct (dirty_check_keeps_records_and_stores_the_limit
              (Scenario.store Scenario.two_days) Scenario.playlist 3 5 Scenario.two_days
              ltac:(discriminate) eq_refl eq_refl ltac:(discriminate))
    as (db' & b' & Hrun & Hb' & Hrecords & _ & Hlimit & _).
  exists db', b'. split; [exact Hrun|]. split; [exact Hb'|]. split.
  - rewrite Hrecords by discriminate. reflexivity.
  - apply Hlimit. reflexivity.
Defined.

(** Counterexample to C3 as stated: the stored limit 5 covers the request
    of limit 3, the records stay, and yet the stored limit goes down to 3. *)
Lemma dirty_check_lowers_the_stored_limit :
  let before := Some (Scenario.store Scenario.two_days) in
  let after := InvalidateCacheIfDirty before Scenario.playlist 3 in
  Atoi_value (stored_limit before Scenario.playlist) = (5, None)
  /\ cached after Scenario.playlist Scenario.v2 = true
  /\ cached after Scenario.playlist Scenario.v1 = true
  /\ Atoi_value (stored_limit after Scenario.playlist) = (3, None)
  /\ stored_limit after Scenario.playlist <> stored_limit before Scenario.playlist
  /\ (let served :=
        snd (videos Scenario.lib before (Scenario.listing [[Scenario.e2; Scenario.e1]])
               Scenario.playlist (Scenario.with_limit 2)) in
      Atoi_value (stored_limit served Scenario.playlist) = (2, None)
      /\ cached served Scenario.playlist Scenario.v1 = true).
Proof. cbv zeta. repeat split; vm_compute; try reflexivity; discriminate. Qed.

(** ** The limit of an HTTP request *)

Lemma channel_options_limit (s : Server) (q : Values) :
  limit (channel_options s q) = channel_limit s q.
Proof. reflexivity. Qed.

(** C10, as the code has it.  A [limit] parameter that is absent, that
    [Atoi] rejects (text that is no decimal number, or a number outside the
    range of [int]), or that is 0 gives the configured [Limit]; any other
    value [Atoi] accepts reaches [videos] unchanged, a negative one
    included.  So the limit of a request is 0 only if the configured
    default is 0. *)
Theorem channel_limit_defaults_or_passes_through (s : Server) (q : Values) :
  let raw := Values_Get q "limit" in
  (q !! "limit" = None -> limit (channel_options s q) = Limit s)
  /\ (snd (strconv.Atoi raw) <> None -> limit (channel_options s q) = Limit s)
  /\ (fst (strconv.Atoi raw) = 0 -> limit (channel_options s q) = Limit s)
  /\ (forall n, strconv.Atoi raw = (n, None) -> n <> 0 -> limit (channel_options s q) = n)
  /\ (limit (channel_options s q) = 0 -> Limit s = 0)
  /\ limit (channel_options s (<["limit" := ["-3"]]> q)) = -3.
Proof.
  intros raw. rewrite !channel_options_limit. unfold channel_limit. fold raw.
  repeat split.
  - intros Habsent. unfold raw, Values_Get. rewrite Habsent. reflexivity.
  - intros Herr. destruct (strconv.Atoi raw) as [n [e|]]; [reflexivity|].
    cbn [snd] in Herr. congruence.
  - intros Hzero. destruct (strconv.Atoi raw) as [n err]. cbn [fst] in Hzero. subst n.
    rewrite orb_true_r. reflexivity.
  - intros n Hn Hnz. rewrite Hn. cbn [is_err orb].
    destruct (n =? 0) eqn:E; [apply Z.eqb_eq in E; contradiction|reflexivity].
  - destruct (strconv.Atoi raw) as [n err].
    destruct (is_err err || (n =? 0)) eqn:E; [auto|].
    apply orb_false_elim in E. destruct E as [_ E]. apply Z.eqb_neq in E. contradiction.
  - unfold Values_Get. rewrite lookup_insert_eq. reflexivity.
Qed.

(** Witness of C10, with a configured limit of 15. *)
Lemma channel_limit_defaults_or_passes_through_witness :
  let s := {| BaseUrl := "http://localhost:9494"; Limit := 15;
              MimeType := "video/mp4"; YtdlCommand := "yt-dlp";
              Format := "best[ext=mp4]" |} in
  limit (channel_options s ∅) = 15
  /\ limit (channel_options s {[ "limit" := ["ten"] ]}) = 15
  /\ limit (channel_options s {[ "limit" := ["0"] ]}) = 15
  /\ limit (channel_options s {[ "limit" := ["7"] ]}) = 7.
Proof.
  intros s. split; [|split; [|split]].
  - destruct (channel_limit_defaults_or_passes_through s ∅) as (Habsent & _).
    apply Habsent. reflexivity.
  - destruct (channel_limit_defaults_or_passes_through s {[ "limit" := ["ten"] ]})
      as (_ & Hrejected & _).
    apply Hrejected. discriminate.
  - destruct (channel_limit_defaults_or_passes_through s {[ "limit" := ["0"] ]})
      as (_ & _ & Hzero & _).
    apply Hzero. reflexivity.
  - destruct (channel_limit_defaults_or_passes_through s {[ "limit" := ["7"] ]})
      as (_ & _ & _ & Hpass & _).
    apply (Hpass 7); [reflexivity|discriminate].
Defined.

(** Counterexample to C10 as stated.  The integer 2^63 is not 0, yet [Atoi]
    rejects it as out of range and the request is served with the
    configured 15, not passed through; and a server started with [-l 0]
    hands the limit 0 to the feed assembly, for a request that names no
    limit as for one that asks for 0. *)
Lemma limit_beyond_int_gets_the_default_and_the_default_can_be_zero :
  let s := {| BaseUrl := "http://localhost:9494"; Limit := 15;
              MimeType := "video/mp4"; YtdlCommand := "yt-dlp";
              Format := "best[ext=mp4]" |} in
  let s0 := {| BaseUrl := "http://localhost:9494"; Limit := 0;
               MimeType := "video/mp4"; YtdlCommand := "yt-dlp";
               Format := "best[ext=mp4]" |} in
  strconv.Atoi "9223372036854775808" = (strconv.maxInt, Some strconv.ErrRange)
  /\ limit (channel_options s {[ "limit" := ["9223372036854775808"] ]}) = 15
  /\ limit (channel_options s0 ∅) = 0
  /\ limit (channel_options s0 {[ "limit" := ["0"] ]}) = 0.
Proof. cbv zeta. repeat split; vm_compute; reflexivity. Qed.

(** ** Order of the cache keys *)

Lemma lex_div_mod (k x y : Z) :
  0 < k -> lex (x / k ?= y / k) (x mod k ?= y mod k) = (x ?= y).
Proof.
  intros Hk.
  pose proof (Z.div_mod x k ltac:(lia)) as Ex.
  pose proof (Z.div_mod y k ltac:(lia)) as Ey.
  pose proof (Z.mod_pos_bound x k Hk) as Bx.
  pose proof (Z.mod_pos_bound y k Hk) as By.
  unfold lex.
  destruct (Z.compare_spec (x / k) (y / k)) as [E|L|G].
  - destruct (Z.compare_spec (x mod k) (y mod k)) as [E'|L'|G'];
      symmetry; [apply Z.compare_eq_iff|apply Z.compare_lt_iff|apply Z.compare_gt_iff]; nia.
  - symmetry. apply Z.compare_lt_iff. nia.
  - symmetry. apply Z.compare_gt_iff. nia.
Qed.

Lemma digit_compare (d1 d2 : Z) :
  0 <= d1 <= 9 -> 0 <= d2 <= 9 ->
  Ascii.compare (time.digit d1) (time.digit d2) = (d1 ?= d2).
Proof.
  intros H1 H2. unfold Ascii.compare. rewrite !digit_code by assumption.
  rewrite Z2N.inj_compare by lia. apply Z.add_compare_mono_l.
Qed.

Lemma two_digits_compare (x y : Z) :
  0 <= x < 100 -> 0 <= y < 100 ->
  String.compare (time.two_digits x) (time.two_digits y) = (x ?= y).
Proof.
  intros Hx Hy.
  assert (Hxq : 0 <= x / 10 <= 9)
    by (split; [apply Z.div_pos; lia|apply Z.lt_succ_r, Z.div_lt_upper_bound; lia]).
  assert (Hyq : 0 <= y / 10 <= 9)
    by (split; [apply Z.div_pos; lia|apply Z.lt_succ_r, Z.div_lt_upper_bound; lia]).
  pose proof (Z.mod_pos_bound x 10 ltac:(lia)) as Hxr.
  pose proof (Z.mod_pos_bound y 10 ltac:(lia)) as Hyr.
  unfold time.two_digits. cbn [String.compare].
  rewrite !digit_compare by lia.
  rewrite <- (lex_div_mod 10 x y) by lia. unfold lex.
  destruct (x / 10 ?= y / 10); try reflexivity.
  destruct (x mod 10 ?= y mod 10); reflexivity.
Qed.

Lemma two_digits_length (x : Z) : String.length (time.two_digits x) = 2%nat.
Proof. reflexivity. Qed.

Lemma appendInt_2 (x : Z) : 0 <= x < 100 -> time.appendInt x 2 = time.two_digits x.
Proof.
  intros Hx. unfold time.appendInt.
  replace (x <? 0) with false by (symmetry; apply Z.ltb_ge; lia).
  rewrite Z.abs_eq by lia.
  replace (x <? 100) with true by (symmetry; apply Z.ltb_lt; lia).
  reflexivity.
Qed.

Lemma appendInt_4 (x : Z) :
  0 <= x < 10000 ->
  time.appendInt x 4 = time.two_digits (x / 100) +:+ time.two_digits (x mod 100).
Proof.
  intros Hx. unfold time.appendInt.
  replace (x <? 0) with false by (symmetry; apply Z.ltb_ge; lia).
  rewrite Z.abs_eq by lia.
  replace (x <? 10000) with true by (symmetry; apply Z.ltb_lt; lia).
  reflexivity.
Qed.

(** Two strings that open with a two-digit number compare by the numbers,
    then by what follows them. *)
Lemma compare_two_digits (x y : Z) (s1 s2 : string) :
  0 <= x < 100 -> 0 <= y < 100 ->
  String.compare (time.two_digits x +:+ s1) (time.two_digits y +:+ s2)
  = lex (x ?= y) (String.compare s1 s2).
Proof.
  intros Hx Hy. rewrite compare_app_same_length by reflexivity.
  rewrite two_digits_compare by assumption. destruct (x ?= y); reflexivity.
Qed.

Lemma compare_same_head (c : ascii) (s1 s2 : string) :
  String.compare (String c s1) (String c s2) = String.compare s1 s2.
Proof. cbn [String.compare]. rewrite ascii_compare_refl. reflexivity. Qed.

Lemma compare_same_separator (c : ascii) (s1 s2 : string) :
  String.compare (String c "" +:+ s1) (String c "" +:+ s2) = String.compare s1 s2.
Proof. rewrite !append_cons, !append_nil. apply compare_same_head. Qed.

Lemma lex_assoc (c1 c2 c3 : comparison) : lex (lex c1 c2) c3 = lex c1 (lex c2 c3).
Proof. destruct c1; reflexivity. Qed.

Lemma daysIn_le_31 (m y : Z) : 1 <= m <= 12 -> 28 <= time.daysIn m y <= 31.
Proof.
  intros Hm. unfold time.daysIn.
  assert (m = 1 \/ m = 2 \/ m = 3 \/ m = 4 \/ m = 5 \/ m = 6 \/ m = 7 \/ m = 8
          \/ m = 9 \/ m = 10 \/ m = 11 \/ m = 12) as Hcases by lia.
  repeat (destruct Hcases as [->|Hcases]); try subst m;
    destruct (time.isLeap y); vm_compute; split; discriminate.
Qed.

(** The RFC 3339 text of a UTC reading with a four-digit year. *)
Lemma Format_utc (t : time.Time) :
  utc t ->
  time.Format_RFC3339 t
  = time.two_digits (time.Year t / 100) +:+ time.two_digits (time.Year t mod 100)
      +:+ "-" +:+ time.two_digits (time.Month t) +:+ "-" +:+ time.two_digits (time.Day t)
      +:+ "T" +:+ time.two_digits (time.Hour t) +:+ ":" +:+ time.two_digits (time.Minute t)
      +:+ ":" +:+ time.two_digits (time.Second t) +:+ "Z".
Proof.
  intros ((Hm & Hd & Hh & Hmi & Hs & _) & Hoff & Hy).
  pose proof (daysIn_le_31 (time.Month t) (time.Year t) Hm) as Hdays.
  unfold time.Format_RFC3339, time.appendZone. rewrite Hoff. cbn [Z.eqb].
  rewrite appendInt_4 by lia. rewrite !appendInt_2 by lia.
  rewrite string_append_assoc. reflexivity.
Qed.

(** The keys of two UTC items compare as their readings do field by field,
    and by the ids when the readings agree to the second. *)
Lemma cache_key_compare (a b : Item) :
  utc (Created a) -> utc (Created b) ->
  String.compare (cache_key a) (cache_key b)
  = lex (compare_fields (Created a) (Created b)) (String.compare (Id a) (Id b)).
Proof.
  intros Ha Hb. unfold cache_key. rewrite !Format_utc by assumption.
  destruct Ha as ((Hma & Hda & Hha & Hmia & Hsa & _) & _ & Hya).
  destruct Hb as ((Hmb & Hdb & Hhb & Hmib & Hsb & _) & _ & Hyb).
  pose proof (daysIn_le_31 _ (time.Year (Created a)) Hma) as Hdaysa.
  pose proof (daysIn_le_31 _ (time.Year (Created b)) Hmb) as Hdaysb.
  assert (Hqa : 0 <= time.Year (Created a) / 100 < 100)
    by (split; [apply Z.div_pos; lia|apply Z.div_lt_upper_bound; lia]).
  assert (Hqb : 0 <= time.Year (Created b) / 100 < 100)
    by (split; [apply Z.div_pos; lia|apply Z.div_lt_upper_bound; lia]).
  pose proof (Z.mod_pos_bound (time.Year (Created a)) 100 ltac:(lia)) as Hra.
  pose proof (Z.mod_pos_bound (time.Year (Created b)) 100 ltac:(lia)) as Hrb.
  rewrite !string_append_assoc.
  repeat (first [rewrite compare_two_digits by lia|rewrite compare_same_separator]).
  unfold compare_fields.
  rewrite <- (lex_div_mod 100 (time.Year (Created a)) (time.Year (Created b))) by lia.
  rewrite !lex_assoc. reflexivity.
Qed.

(** ** Chronology of wall-clock readings *)

Lemma daysBeforeYear_step (y : Z) :
  time.daysBeforeYear (y + 1)
  = time.daysBeforeYear y + 365 + (if time.isLeap y then 1 else 0).
Proof.
  unfold time.daysBeforeYear, time.isLeap.
  replace (y + 1 - 1) with y by lia.
  destruct (Z.eqb_spec (y mod 4) 0) as [H4|H4];
    destruct (Z.eqb_spec (y mod 100) 0) as [H100|H100];
    destruct (Z.eqb_spec (y mod 400) 0) as [H400|H400];
    cbn [andb orb negb];
    Z.to_euclidean_division_equations; lia.
Qed.

Lemma daysBeforeYear_mono (y1 y2 : Z) :
  y1 <= y2 -> time.daysBeforeYear y1 <= time.daysBeforeYear y2.
Proof.
  intros Hle. replace y2 with (y1 + Z.of_nat (Z.to_nat (y2 - y1))) by lia.
  induction (Z.to_nat (y2 - y1)) as [|k IH]; [rewrite Z.add_0_r; lia|].
  replace (y1 + Z.of_nat (S k)) with (y1 + Z.of_nat k + 1) by lia.
  rewrite daysBeforeYear_step. destruct (time.isLeap _); lia.
Qed.

(** Evaluates the entries of the month table at the months at hand. *)
Ltac month_table :=
  repeat match goal with
         | |- context [time.daysBefore ?k] =>
             let v := eval vm_compute in (time.daysBefore k) in
             change (time.daysBefore k) with v
         | H : context [time.daysBefore ?k] |- _ =>
             let v := eval vm_compute in (time.daysBefore k) in
             change (time.daysBefore k) with v in H
         end;
  cbn [Z.eqb Z.ltb Z.compare Pos.eqb Pos.compare Pos.compare_cont andb orb negb] in *.

Lemma month_cases (m : Z) :
  1 <= m <= 12 ->
  m = 1 \/ m = 2 \/ m = 3 \/ m = 4 \/ m = 5 \/ m = 6 \/ m = 7 \/ m = 8
  \/ m = 9 \/ m = 10 \/ m = 11 \/ m = 12.
Proof. lia. Qed.

(** The day of the year stays within the year. *)
Lemma yday_bounds (y m d : Z) :
  1 <= m <= 12 -> 1 <= d <= time.daysIn m y ->
  0 <= time.yday y m d < 365 + (if time.isLeap y then 1 else 0).
Proof.
  intros Hm Hd. unfold time.yday, time.daysIn in *.
  destruct (month_cases m Hm) as [->|[->|[->|[->|[->|[->|[->|[->|[->|[->|[->| ->]]]]]]]]]]];
    destruct (time.isLeap y); month_table; lia.
Qed.

(** Within a year, a later month or a later day is a later day of the year. *)
Lemma yday_mono (y m1 d1 m2 d2 : Z) :
  1 <= m1 <= 12 -> 1 <= d1 <= time.daysIn m1 y ->
  1 <= m2 <= 12 -> 1 <= d2 <= time.daysIn m2 y ->
  lex (m1 ?= m2) (d1 ?= d2) = Lt ->
  time.yday y m1 d1 < time.yday y m2 d2.
Proof.
  intros Hm1 Hd1 Hm2 Hd2. unfold lex.
  destruct (Z.compare_spec m1 m2) as [E|L|G]; intros Hlex; try discriminate.
  - subst m2. change (d1 < d2) in Hlex. unfold time.yday.
    generalize (time.daysBefore m1 + (if time.isLeap y && (2 <? m1) then 1 else 0)).
    intros base. lia.
  - clear Hlex. unfold time.yday, time.daysIn in *.
    destruct (month_cases m1 Hm1) as [->|[->|[->|[->|[->|[->|[->|[->|[->|[->|[->| ->]]]]]]]]]]];
      destruct (month_cases m2 Hm2) as [->|[->|[->|[->|[->|[->|[->|[->|[->|[->|[->| ->]]]]]]]]]]];
      try lia; destruct (time.isLeap y); month_table; lia.
Qed.

Lemma lex_lt_cases (c1 c2 : comparison) :
  lex c1 c2 = Lt -> c1 = Lt \/ (c1 = Eq /\ c2 = Lt).
Proof. destruct c1; cbn; intros H; auto; discriminate. Qed.

Lemma lex_eq_cases (c1 c2 : comparison) : lex c1 c2 = Eq -> c1 = Eq /\ c2 = Eq.
Proof. destruct c1; cbn; intros H; auto; discriminate. Qed.

Lemma lex_opp (c1 c2 : comparison) : CompOpp (lex c1 c2) = lex (CompOpp c1) (CompOpp c2).
Proof. destruct c1; reflexivity. Qed.

Lemma compare_fields_antisym (a b : time.Time) :
  compare_fields b a = CompOpp (compare_fields a b).
Proof.
  unfold compare_fields. rewrite !lex_opp, <- !Z.compare_antisym. reflexivity.
Qed.

(** Days from 0001-01-01 to the date of a reading. *)
Lemma days_mono (y1 m1 d1 y2 m2 d2 : Z) :
  1 <= m1 <= 12 -> 1 <= d1 <= time.daysIn m1 y1 ->
  1 <= m2 <= 12 -> 1 <= d2 <= time.daysIn m2 y2 ->
  lex (y1 ?= y2) (lex (m1 ?= m2) (d1 ?= d2)) = Lt ->
  time.daysBeforeYear y1 + time.yday y1 m1 d1 < time.daysBeforeYear y2 + time.yday y2 m2 d2.
Proof.
  intros Hm1 Hd1 Hm2 Hd2 Hlex.
  pose proof (yday_bounds y1 m1 d1 Hm1 Hd1) as B1.
  pose proof (yday_bounds y2 m2 d2 Hm2 Hd2) as B2.
  destruct (lex_lt_cases _ _ Hlex) as [Hy|[Hy Hrest]].
  - change (y1 < y2) in Hy.
    pose proof (daysBeforeYear_step y1) as Hstep.
    pose proof (daysBeforeYear_mono (y1 + 1) y2 ltac:(lia)) as Hmono.
    destruct (time.isLeap y1); lia.
  - apply Z.compare_eq_iff in Hy. subst y2.
    pose proof (yday_mono y1 m1 d1 m2 d2 Hm1 Hd1 Hm2 Hd2 Hrest). lia.
Qed.

(** Readings with one zone offset: an earlier reading, field by field, is an
    earlier instant. *)
Lemma instant_mono (a b : time.Time) :
  time.valid a -> time.valid b -> time.Offset a = time.Offset b ->
  compare_fields a b = Lt -> time.instant a < time.instant b.
Proof.
  intros (Hma & Hda & Hha & Hmia & Hsa & _) (Hmb & Hdb & Hhb & Hmib & Hsb & _) Hoff Hlt.
  assert (Hsplit :
            compare_fields a b
            = lex (lex (time.Year a ?= time.Year b)
                     (lex (time.Month a ?= time.Month b) (time.Day a ?= time.Day b)))
                (lex (time.Hour a ?= time.Hour b)
                   (lex (time.Minute a ?= time.Minute b) (time.Second a ?= time.Second b))))
    by (unfold compare_fields; rewrite !lex_assoc; reflexivity).
  rewrite Hsplit in Hlt. clear Hsplit. unfold time.instant. rewrite Hoff.
  destruct (lex_lt_cases _ _ Hlt) as [Hdate|[Hdate Hclock]].
  - pose proof (days_mono _ _ _ _ _ _ Hma Hda Hmb Hdb Hdate). lia.
  - apply lex_eq_cases in Hdate. destruct Hdate as [Hy Hdate].
    apply lex_eq_cases in Hdate. destruct Hdate as [Hm Hd].
    apply Z.compare_eq_iff in Hy, Hm, Hd. rewrite Hy, Hm, Hd.
    destruct (lex_lt_cases _ _ Hclock) as [Hh|[Hh Hclock']].
    + change (time.Hour a < time.Hour b) in Hh. lia.
    + apply Z.compare_eq_iff in Hh. rewrite Hh.
      destruct (lex_lt_cases _ _ Hclock') as [Hmi|[Hmi Hs]].
      * change (time.Minute a < time.Minute b) in Hmi. lia.
      * apply Z.compare_eq_iff in Hmi. rewrite Hmi.
        change (time.Second a < time.Second b) in Hs. lia.
Qed.

Lemma instant_same_fields (a b : time.Time) :
  time.Offset a = time.Offset b ->
  compare_fields a b = Eq -> time.instant a = time.instant b.
Proof.
  intros Hoff Heq. unfold compare_fields in Heq.
  repeat (apply lex_eq_cases in Heq; let H := fresh "H" in destruct Heq as [H Heq];
          apply Z.compare_eq_iff in H).
  apply Z.compare_eq_iff in Heq. unfold time.instant. congruence.
Qed.

(** C9, as the code has it.  For two items whose creation times are UTC
    readings with four-digit years: the item created at an earlier second
    has the smaller key; items created in the same second are ordered by
    their ids; and a smaller key never belongs to an item created at a later
    second.  Fractions of a second and zone offsets are not part of this
    order. *)
Theorem cache_key_order_follows_utc_seconds (a b : Item) :
  utc (Created a) -> utc (Created b) ->
  (time.instant (Created a) < time.instant (Created b) ->
   String.ltb (cache_key a) (cache_key b) = true)
  /\ (time.instant (Created a) = time.instant (Created b) ->
      String.compare (cache_key a) (cache_key b) = String.compare (Id a) (Id b))
  /\ (String.ltb (cache_key a) (cache_key b) = true ->
      time.instant (Created a) <= time.instant (Created b)).
Proof.
  intros Ha Hb. unfold String.ltb. rewrite (cache_key_compare a b Ha Hb).
  destruct Ha as (Hva & Hoa & _). destruct Hb as (Hvb & Hob & _).
  assert (Hoff : time.Offset (Created a) = time.Offset (Created b)) by congruence.
  pose proof (instant_mono (Created a) (Created b) Hva Hvb Hoff) as Hlt.
  pose proof (instant_mono (Created b) (Created a) Hvb Hva (eq_sym Hoff)) as Hgt.
  pose proof (instant_same_fields (Created a) (Created b) Hoff) as Heq.
  rewrite compare_fields_antisym in Hgt.
  destruct (compare_fields (Created a) (Created b)); cbn [lex CompOpp] in *.
  - specialize (Heq eq_refl). repeat split; intros; try reflexivity; lia.
  - specialize (Hlt eq_refl). repeat split; intros; try reflexivity; lia.
  - specialize (Hgt eq_refl). repeat split; intros; try discriminate; lia.
Qed.

Lemma utc_at_noon (day s ns : Z) :
  1 <= day <= 31 -> 0 <= s < 60 -> 0 <= ns < 1000000000 ->
  utc (Scenario.at_noon day s ns).
Proof.
  intros Hday Hs Hns. unfold utc, time.valid, Scenario.at_noon.
  cbn [time.Year time.Month time.Day time.Hour time.Minute time.Second
       time.Nanosecond time.Offset].
  change (time.daysIn 1 2024) with 31. lia.
Qed.

(** Witness of C9: [v1] was created a day before [v2]. *)
Lemma cache_key_order_follows_utc_seconds_witness :
  String.ltb (cache_key Scenario.v1) (cache_key Scenario.v2) = true.
Proof.
  refine (proj1 (cache_key_order_follows_utc_seconds Scenario.v1 Scenario.v2 _ _) _).
  - apply utc_at_noon; lia.
  - apply utc_at_noon; lia.
  - reflexivity.
Defined.

(** Counterexample to C9 as stated.  ["b"] was created eight tenths of a
    second before ["a"], and its key is the larger one: the key drops the
    fraction, and the ids decide.  And the video stamped two hours east of
    UTC was created half an hour before the one stamped in UTC, and its key
    is the larger one: the key keeps the wall clock of its zone. *)
Lemma cache_key_order_ignores_fractions_and_zones :
  (time.Before (Created Scenario.tenth_1) (Created Scenario.tenth_9)
   /\ String.ltb (cache_key Scenario.tenth_9) (cache_key Scenario.tenth_1) = true)
  /\ (time.Before (Created Scenario.east) (Created Scenario.west)
      /\ String.ltb (cache_key Scenario.west) (cache_key Scenario.east) = true).
Proof.
  split; split.
  - right. split; [reflexivity|]. vm_compute. reflexivity.
  - vm_compute. reflexivity.
  - left. vm_compute. reflexivity.
  - vm_compute. reflexivity.
Qed.

(** ** Feed assembly without a cache *)

Section NoCache.

Variable lib : Library.

Lemma videos_panics_for_nonpositive_limit
    (c : Cache) (remote : Remote) (playlistId : string) (o : options) :
  client_err remote = None ->
  limit o <= 0 ->
  fst (videos lib c remote playlistId o) = Crash IndexOutOfRange.
Proof.
  intros Hclient Hlimit. unfold videos. rewrite Hclient, live_phase_as_list.
  replace (Z.to_nat (limit o)) with O by lia. reflexivity.
Qed.

(** With a nil cache and at least [limit] remote items, the first [limit]
    items are returned. *)
Lemma videos_nil_cache_enough
    (remote : Remote) (playlistId : string) (o : options)
    (pis : list PlaylistItem) (its : list Item)
    (rest : list (option PlaylistItem * option error)) :
  client_err remote = None ->
  emitted (responses remote) = (map listed pis ++ rest)%list ->
  Forall2 (fun e i => mapToFeedItem lib e o = inr i) pis its ->
  0 < limit o <= len its ->
  fst (videos lib None remote playlistId o) = Return (firstn (Z.to_nat (limit o)) its).
Proof.
  intros Hclient Hemit Hmaps Hlimit.
  pose proof (Forall2_length_eq _ _ _ Hmaps) as Hlen. unfold len in Hlimit.
  set (n := Z.to_nat (limit o)).
  assert (Hn : (0 < n <= length its)%nat) by lia.
  unfold videos. cbn [InvalidateCacheIfDirty].
  rewrite Hclient, live_phase_as_list, Hemit. fold n.
  rewrite firstn_app. replace (n - length (map listed pis))%nat with O
    by (rewrite length_map; lia).
  rewrite firstn_O, firstn_map.
  rewrite (live_range_new lib playlistId o (firstn n pis) (firstn n its)).
  - cbn [range spend returned vids app Put].
    destruct (last (firstn n its)) as [newest|] eqn:Hlast.
    + unfold fallback_phase. rewrite take_nothing.
      * reflexivity.
      * unfold len. rewrite length_firstn. lia.
    + apply last_None in Hlast.
      apply (f_equal (@length Item)) in Hlast. rewrite length_firstn in Hlast.
      cbn [length] in Hlast. lia.
  - apply Forall2_take. exact Hmaps.
  - apply Forall_forall. reflexivity.
Qed.

(** With a nil cache and fewer remote items than the limit, the second loop
    runs [Iter] on the nil handle. *)
Lemma videos_nil_cache_short
    (remote : Remote) (playlistId : string) (o : options)
    (pis : list PlaylistItem) (its : list Item) :
  client_err remote = None ->
  emitted (responses remote) = map listed pis ->
  Forall2 (fun e i => mapToFeedItem lib e o = inr i) pis its ->
  0 < len its < limit o ->
  fst (videos lib None remote playlistId o) = Crash NilDereference.
Proof.
  intros Hclient Hemit Hmaps Hlimit.
  pose proof (Forall2_length_eq _ _ _ Hmaps) as Hlen. unfold len in Hlimit.
  unfold videos. cbn [InvalidateCacheIfDirty].
  rewrite Hclient, live_phase_as_list, Hemit.
  rewrite firstn_all2 by (rewrite length_map; lia).
  rewrite <- (app_nil_r (map listed pis)).
  rewrite (live_range_new lib playlistId o pis its Hmaps)
    by (apply Forall_forall; reflexivity).
  cbn [range spend returned vids app Put].
  destruct (last its) as [newest|] eqn:Hlast.
  - unfold fallback_phase.
    rewrite (take_panics _ _ None NilDereference); [reflexivity| |unfold len; lia].
    intros St yield st. reflexivity.
  - apply last_None in Hlast. subst its. cbn [length] in Hlimit. lia.
Qed.

End NoCache.

(** The merge at work: [v3] is new, [v2] is the pivot, [v1] comes from the
    cache. *)
Lemma videos_pivot_merge_three_days :
  fst (videos Scenario.lib (Some (Scenario.store Scenario.two_days))
         (Scenario.listing [[Scenario.e3; Scenario.e2; Scenario.e1]])
         Scenario.playlist (Scenario.with_limit 3))
  = Return [Scenario.v3; Scenario.v2; Scenario.v1].
Proof.
  refine (videos_pivot_merge Scenario.lib (Scenario.store Scenario.two_days)
            (Scenario.listing [[Scenario.e3; Scenario.e2; Scenario.e1]])
            Scenario.playlist (Scenario.with_limit 3) Scenario.two_days 5
            [Scenario.e3] Scenario.e2 [Scenario.v3] Scenario.v2 [Scenario.v1]
            [listed Scenario.e1] _ _ _ _ _ _ _ _ _ _ _ _ _ _ _).
  - reflexivity.
  - discriminate.
  - reflexivity.
  - split; repeat constructor.
  - reflexivity.
  - discriminate.
  - reflexivity.
  - reflexivity.
  - repeat constructor.
  - reflexivity.
  - reflexivity.
  - repeat constructor.
  - discriminate.
  - repeat constructor.
  - reflexivity.
Qed.

(** Without a cache: a limit within the listing, and one beyond it. *)
Lemma videos_nil_cache_two_of_three :
  fst (videos Scenario.lib None
         (Scenario.listing [[Scenario.e3; Scenario.e2]; [Scenario.e1]])
         Scenario.playlist (Scenario.with_limit 2))
  = Return [Scenario.v3; Scenario.v2]
  /\ fst (videos Scenario.lib None
            (Scenario.listing [[Scenario.e3; Scenario.e2]; [Scenario.e1]])
            Scenario.playlist (Scenario.with_limit 4))
     = Crash NilDereference.
Proof.
  split.
  - refine (videos_nil_cache_enough Scenario.lib _ Scenario.playlist (Scenario.with_limit 2)
              [Scenario.e3; Scenario.e2] [Scenario.v3; Scenario.v2]
              [listed Scenario.e1] _ _ _ _).
    + reflexivity.
    + reflexivity.
    + repeat constructor.
    + split; [reflexivity|discriminate].
  - refine (videos_nil_cache_short Scenario.lib _ Scenario.playlist (Scenario.with_limit 4)
              [Scenario.e3; Scenario.e2; Scenario.e1]
              [Scenario.v3; Scenario.v2; Scenario.v1] _ _ _ _).
    + reflexivity.
    + reflexivity.
    + repeat constructor.
    + split; reflexivity.
Qed.

(** * Further properties *)

(** ** [strconv]: what [Itoa] writes, [Atoi] reads back *)

Lemma digits_string_of_uint :
  forall (d : Decimal.uint) (acc : Z),
    strconv.digits (NilEmpty.string_of_uint d) acc = Some (decimal_value d acc).
Proof.
  induction d; intros acc; cbn [NilEmpty.string_of_uint strconv.digits decimal_value];
    try reflexivity;
    match goal with
    | |- context [strconv.digit_of ?c] =>
        let v := eval vm_compute in (strconv.digit_of c) in
        change (strconv.digit_of c) with v
    end; cbv iota; rewrite ?Z.add_0_r; apply IHd.
Qed.

Lemma decimal_value_revapp :
  forall d d' : Decimal.uint,
    Z.of_N (DecimalPos.Unsigned.of_lu (Decimal.revapp d d'))
    = decimal_value d (Z.of_N (DecimalPos.Unsigned.of_lu d')).
Proof.
  induction d; intros d'; cbn [Decimal.revapp decimal_value]; try reflexivity;
    rewrite IHd; f_equal; cbn [DecimalPos.Unsigned.of_lu]; lia.
Qed.

Lemma decimal_value_to_uint (p : positive) : decimal_value (Pos.to_uint p) 0 = Zpos p.
Proof.
  change 0 with (Z.of_N (DecimalPos.Unsigned.of_lu Decimal.Nil)).
  rewrite <- decimal_value_revapp.
  change (Decimal.revapp (Pos.to_uint p) Decimal.Nil) with (Decimal.rev (Pos.to_uint p)).
  rewrite <- DecimalPos.Unsigned.of_uint_alt, DecimalPos.Unsigned.of_to. reflexivity.
Qed.

(** A string that opens with a digit has no sign for [Atoi] to strip. *)
Lemma Atoi_unsigned (c : ascii) (rest : string) :
  (48 <= N_of_ascii c <= 57)%N ->
  strconv.Atoi (String c rest)
  = match strconv.digits (String c rest) 0 with
    | None => (0, Some strconv.ErrSyntax)
    | Some n =>
        if n <? strconv.minInt then (strconv.minInt, Some strconv.ErrRange)
        else if strconv.maxInt <? n then (strconv.maxInt, Some strconv.ErrRange)
        else (n, None)
    end.
Proof.
  intros Hc.
  destruct c as [[] [] [] [] [] [] [] []]; try reflexivity;
    vm_compute in Hc; destruct Hc as [H1 H2]; try (exfalso; apply H1; reflexivity);
    exfalso; apply H2; reflexivity.
Qed.

Lemma string_of_uint_to_uint (p : positive) :
  NilZero.string_of_uint (Pos.to_uint p) = NilEmpty.string_of_uint (Pos.to_uint p).
Proof.
  pose proof (DecimalPos.Unsigned.to_uint_nonnil p) as Hnil.
  destruct (Pos.to_uint p); [contradiction|reflexivity..].
Qed.

(** [strconv.Atoi(strconv.Itoa(z))] is [z], without error, for every value
    of an [int]. *)
Lemma Atoi_Itoa (z : Z) : is_int z -> strconv.Atoi (strconv.Itoa z) = (z, None).
Proof.
  intros [Hmin Hmax]. unfold strconv.Itoa.
  destruct z as [|p|p]; [reflexivity| |]; cbn [Z.to_int NilZero.string_of_int].
  - destruct (string_of_uint_head (Pos.to_uint p)) as (c & rest & Heq & Hc).
    rewrite Heq, (Atoi_unsigned c rest Hc), <- Heq, string_of_uint_to_uint.
    rewrite digits_string_of_uint, decimal_value_to_uint.
    replace (Z.pos p <? strconv.minInt) with false
      by (symmetry; apply Z.ltb_ge; unfold strconv.minInt; lia).
    replace (strconv.maxInt <? Z.pos p) with false by (symmetry; apply Z.ltb_ge; lia).
    reflexivity.
  - unfold strconv.Atoi.
    destruct (string_of_uint_head (Pos.to_uint p)) as (c & rest & Heq & Hc).
    rewrite Heq. rewrite <- Heq, string_of_uint_to_uint.
    rewrite digits_string_of_uint, decimal_value_to_uint.
    change (- Z.pos p) with (Z.neg p).
    replace (Z.neg p <? strconv.minInt) with false by (symmetry; apply Z.ltb_ge; lia).
    replace (strconv.maxInt <? Z.neg p) with false
      by (symmetry; apply Z.ltb_ge; unfold strconv.maxInt; lia).
    reflexivity.
Qed.

Lemma Atoi_in_range (s : string) (n : Z) : strconv.Atoi s = (n, None) -> is_int n.
Proof.
  unfold strconv.Atoi, is_int.
  destruct (match s with
            | String "+"%char r => (false, r)
            | String "-"%char r => (true, r)
            | _ => (false, s)
            end) as [neg body].
  destruct body as [|c r]; [discriminate|].
  destruct (strconv.digits (String c r) 0) as [v|]; [|discriminate].
  destruct ((if neg then - v else v) <? strconv.minInt) eqn:Hlo; [discriminate|].
  destruct (strconv.maxInt <? (if neg then - v else v)) eqn:Hhi; [discriminate|].
  intros H. inversion H; subst. apply Z.ltb_ge in Hlo, Hhi. split; assumption.
Qed.

Lemma Atoi_value_in_range (v : option Value) (n : Z) :
  Atoi_value v = (n, None) -> is_int n.
Proof.
  destruct v as [[i|s]|]; cbn [Atoi_value]; [discriminate| |]; apply Atoi_in_range.
Qed.

Lemma last_limit_in_range (b : Bucket) : is_int (last_limit b).
Proof.
  unfold last_limit.
  destruct (Atoi_value (Bucket.Get b "last-limit")) as [n [e|]] eqn:Hp; cbn [is_err].
  - unfold is_int, strconv.minInt, strconv.maxInt. lia.
  - apply (Atoi_value_in_range _ _ Hp).
Qed.

Lemma is_int_max (a b : Z) : is_int a -> is_int b -> is_int (Z.max a b).
Proof. unfold is_int. lia. Qed.

(** ** The cache methods: what a transaction leaves behind *)

Lemma Invalidate_shape (db : DB) (playlistId : string) (lim : Z) :
  exists m',
    InvalidateCacheIfDirty (Some db) playlistId lim
    = Some {| faults := skipn 1 (faults db); buckets := m' |}
    /\ (m' = buckets db
        \/ exists b,
            buckets db !! playlistId = Some b
            /\ hd None (faults db) = None
            /\ (m' = <[playlistId := Bucket.insert b "last-limit" (Text (strconv.Itoa lim))]>
                       (buckets db)
                \/ m' = <[playlistId := [("last-limit", Text (strconv.Itoa lim))]]>
                          (buckets db))).
Proof.
  unfold InvalidateCacheIfDirty, DB.Update. rewrite Begin_spend.
  destruct (hd None (faults db)) as [e|] eqn:Hf; [eexists; split; [reflexivity|left; reflexivity]|].
  cbn [buckets faults].
  destruct (buckets db !! playlistId) as [b|] eqn:Hb;
    [|eexists; split; [reflexivity|left; reflexivity]].
  destruct (Atoi_value (Bucket.Get b "last-limit")) as [lastLimit err].
  destruct ((lastLimit <? lim) || is_err err).
  - unfold Tx.DeleteBucket. rewrite Hb. unfold Tx.CreateBucketIfNotExists.
    destruct playlistId as [|a s]; [eexists; split; [reflexivity|left; reflexivity]|].
    rewrite lookup_delete_eq, Put_limit_key. cbn [Bucket.insert].
    rewrite insert_insert_eq, insert_delete_eq.
    eexists; split; [reflexivity|]. right. exists b. auto.
  - unfold Tx.CreateBucketIfNotExists.
    destruct playlistId as [|a s]; [eexists; split; [reflexivity|left; reflexivity]|].
    rewrite Hb. eexists; split; [reflexivity|]. right. exists b. auto.
Qed.

Lemma UpdateMaxLimit_runs (db : DB) (playlistId : string) (lim : Z) (b : Bucket) :
  hd None (faults db) = None ->
  buckets db !! playlistId = Some b ->
  UpdateMaxLimit (Some db) playlistId lim
  = Some {| faults := skipn 1 (faults db);
            buckets := <[playlistId :=
                           Bucket.insert b "last-limit"
                             (Text (strconv.Itoa (Z.max (last_limit b) lim)))]>
                         (buckets db) |}.
Proof.
  intros Hf Hb. unfold UpdateMaxLimit, DB.Update, last_limit.
  rewrite Begin_spend, Hf. cbn [buckets faults]. rewrite Hb.
  destruct (Atoi_value (Bucket.Get b "last-limit")) as [parsed err]. reflexivity.
Qed.

Lemma UpdateMaxLimit_idle (db : DB) (playlistId : string) (lim : Z) :
  hd None (faults db) <> None \/ buckets db !! playlistId = None ->
  UpdateMaxLimit (Some db) playlistId lim
  = Some {| faults := skipn 1 (faults db); buckets := buckets db |}.
Proof.
  intros H. unfold UpdateMaxLimit, DB.Update. rewrite Begin_spend.
  destruct (hd None (faults db)) as [e|]; [reflexivity|].
  destruct H as [H|H]; [contradiction|]. cbn [buckets faults]. rewrite H. reflexivity.
Qed.

Lemma UpdateMaxLimit_shape (db : DB) (playlistId : string) (lim : Z) :
  exists m',
    UpdateMaxLimit (Some db) playlistId lim
    = Some {| faults := skipn 1 (faults db); buckets := m' |}
    /\ (m' = buckets db
        \/ exists b,
            buckets db !! playlistId = Some b
            /\ m' = <[playlistId :=
                        Bucket.insert b "last-limit"
                          (Text (strconv.Itoa (Z.max (last_limit b) lim)))]>
                      (buckets db)).
Proof.
  destruct (hd None (faults db)) as [e|] eqn:Hf.
  - eexists; split; [apply UpdateMaxLimit_idle; left; congruence|left; reflexivity].
  - destruct (buckets db !! playlistId) as [b|] eqn:Hb.
    + eexists; split; [apply (UpdateMaxLimit_runs _ _ _ b Hf Hb)|]. right. exists b. auto.
    + eexists; split; [apply UpdateMaxLimit_idle; right; exact Hb|left; reflexivity].
Qed.

Lemma Put_shape (db : DB) (playlistId : string) (items : list Item) :
  exists m',
    Put (Some db) playlistId items
    = Some {| faults := skipn 1 (faults db); buckets := m' |}
    /\ (m' = buckets db
        \/ m' = <[playlistId := insert_all (bucket_of (buckets db) playlistId) items]>
                  (buckets db)).
Proof.
  destruct (Put_cases_db db playlistId items) as [HP|HP];
    (eexists; split; [exact HP|]); [right|left]; reflexivity.
Qed.

Lemma Invalidate_runs (db : DB) (playlistId : string) (lim : Z) (b : Bucket) :
  hd None (faults db) = None ->
  playlistId <> "" ->
  buckets db !! playlistId = Some b ->
  exists b',
    InvalidateCacheIfDirty (Some db) playlistId lim
    = Some {| faults := skipn 1 (faults db);
              buckets := <[playlistId := b']> (buckets db) |}
    /\ Bucket.Get b' "last-limit" = Some (Text (strconv.Itoa lim))
    /\ (b' = Bucket.insert b "last-limit" (Text (strconv.Itoa lim))
        \/ b' = [("last-limit", Text (strconv.Itoa lim))]).
Proof.
  intros Hf Hname Hb.
  destruct (Atoi_value (Bucket.Get b "last-limit")) as [n err] eqn:Hparse.
  assert (Hcases : (err = None /\ lim <= n)
                   \/ (fst (Atoi_value (Bucket.Get b "last-limit")) <? lim)
                        || is_err (snd (Atoi_value (Bucket.Get b "last-limit"))) = true).
  { rewrite Hparse. cbn [fst snd]. destruct err as [e|].
    - right. apply orb_true_r.
    - destruct (Z.ltb_spec n lim) as [Hlt|Hge]; [right; reflexivity|left; split; [reflexivity|lia]]. }
  destruct Hcases as [[-> Hle]|Hstale].
  - eexists. split; [apply (Invalidate_trusted _ _ _ n b Hf Hname Hb Hparse Hle)|].
    split; [apply Get_insert_eq|left; reflexivity].
  - eexists. split; [apply (Invalidate_stale _ _ _ b Hf Hname Hb Hstale)|].
    split; [reflexivity|right; reflexivity].
Qed.

Lemma Get_insert (b : Bucket) (key key' : string) (v : Value) :
  Bucket.Get (Bucket.insert b key v) key'
  = if String.eqb key key' then Some v else Bucket.Get b key'.
Proof.
  destruct (String.eqb_spec key key') as [->|Hne].
  - apply Get_insert_eq.
  - apply Get_insert_ne, Hne.
Qed.

Lemma has_value_insert_all (key : string) :
  forall (items : list Item) (b : Bucket),
    has_value (Bucket.Get (insert_all b items) key)
    = has_value (Bucket.Get b key) || existsb (fun j => String.eqb (cache_key j) key) items.
Proof.
  induction items as [|j items IH]; intros b; cbn [insert_all fold_left existsb].
  - symmetry. apply orb_false_r.
  - fold (insert_all (Bucket.insert b (cache_key j) (Json j)) items).
    rewrite IH, Get_insert.
    destruct (String.eqb (cache_key j) key); cbn [has_value orb].
    + symmetry. apply orb_true_r.
    + reflexivity.
Qed.

Lemma well_formed_empty : well_formed [].
Proof. split; constructor. Qed.

Lemma well_formed_limit_only (s : string) : well_formed [("last-limit", Text s)].
Proof.
  split.
  - constructor; constructor.
  - constructor; [reflexivity|constructor].
Qed.

Lemma well_kept_insert (m : gmap string Bucket) (playlistId : string) (b' : Bucket) :
  (forall name b, m !! name = Some b -> well_formed b) ->
  well_formed b' ->
  forall name b, <[playlistId := b']> m !! name = Some b -> well_formed b.
Proof.
  intros Hm Hb' name b. destruct (decide (name = playlistId)) as [->|Hne].
  - rewrite lookup_insert_eq. intros H. inversion H; subst. exact Hb'.
  - rewrite lookup_insert_ne by congruence. apply Hm.
Qed.

Lemma well_formed_bucket_of (m : gmap string Bucket) (name : string) :
  (forall n b, m !! n = Some b -> well_formed b) -> well_formed (bucket_of m name).
Proof.
  intros Hm. unfold bucket_of. destruct (m !! name) as [b|] eqn:Hb.
  - apply (Hm name b Hb).
  - apply well_formed_empty.
Qed.

(** X1 (src/cache.go, [InvalidateCacheIfDirty]): when the transaction runs
    on an existing bucket, the limit the dirty check writes is a number it
    reads back as the same limit; a later check with a limit no higher than
    it finds every item that was cached still cached, whether or not the
    later transaction fails. *)
Theorem dirty_check_writes_a_limit_it_reads_back
    (db : DB) (playlistId : string) (lim : Z) (b : Bucket) :
  hd None (faults db) = None ->
  playlistId <> "" ->
  buckets db !! playlistId = Some b ->
  is_int lim ->
  let checked := InvalidateCacheIfDirty (Some db) playlistId lim in
  Atoi_value (stored_limit checked playlistId) = (lim, None)
  /\ forall (lim' : Z) (i : Item),
       lim' <= lim ->
       cached (InvalidateCacheIfDirty checked playlistId lim') playlistId i
       = cached checked playlistId i.
Proof.
  intros Hf Hname Hb Hint checked.
  destruct (Invalidate_runs db playlistId lim b Hf Hname Hb) as (b' & Hrun & Hget & _).
  subst checked. rewrite Hrun.
  assert (Hread : Atoi_value (Bucket.Get b' "last-limit") = (lim, None)).
  { rewrite Hget. cbn [Atoi_value]. apply Atoi_Itoa, Hint. }
  split.
  - cbn [stored_limit buckets]. rewrite lookup_insert_eq. exact Hread.
  - intros lim' i Hle.
    set (db1 := {| faults := skipn 1 (faults db);
                   buckets := <[playlistId := b']> (buckets db) |}).
    destruct (hd None (faults db1)) as [e|] eqn:Hf1.
    + rewrite (Invalidate_fault db1 playlistId lim' e Hf1). reflexivity.
    + rewrite (Invalidate_trusted db1 playlistId lim' lim b' Hf1 Hname
                 (lookup_insert_eq _ _ _) Hread Hle).
      subst db1. cbn [cached buckets]. rewrite !lookup_insert_eq.
      rewrite Get_insert_ne by (intros Heq; apply (cache_key_not_limit i); congruence).
      reflexivity.
Qed.

Lemma dirty_check_writes_a_limit_it_reads_back_witness :
  Atoi_value
    (stored_limit
       (InvalidateCacheIfDirty (Some (Scenario.store Scenario.two_days)) Scenario.playlist 7)
       Scenario.playlist)
  = (7, None).
Proof.
  refine (proj1 (dirty_check_writes_a_limit_it_reads_back
                   (Scenario.store Scenario.two_days) Scenario.playlist 7 Scenario.two_days
                   _ _ _ _)).
  - reflexivity.
  - discriminate.
  - reflexivity.
  - split; discriminate.
Defined.

(** X2 (src/cache.go, [InvalidateCacheIfDirty]): when the stored limit is
    below the requested one, or missing or no number, the dirty check that
    runs leaves the bucket with the requested limit as its only record:
    [HasItem] then answers false for every item. *)
Theorem dirty_check_empties_a_stale_bucket
    (db : DB) (playlistId : string) (lim : Z) (b : Bucket) :
  hd None (faults db) = None ->
  playlistId <> "" ->
  buckets db !! playlistId = Some b ->
  fst (Atoi_value (Bucket.Get b "last-limit")) < lim
  \/ snd (Atoi_value (Bucket.Get b "last-limit")) <> None ->
  let checked := InvalidateCacheIfDirty (Some db) playlistId lim in
  cache_buckets checked !! playlistId = Some [("last-limit", Text (strconv.Itoa lim))]
  /\ forall i : Item, fst (HasItem checked playlistId i) = false.
Proof.
  intros Hf Hname Hb Hstale checked.
  assert (Hcond : (fst (Atoi_value (Bucket.Get b "last-limit")) <? lim)
                    || is_err (snd (Atoi_value (Bucket.Get b "last-limit"))) = true).
  { destruct Hstale as [Hlt|Herr].
    - apply orb_true_iff. left. apply Z.ltb_lt, Hlt.
    - apply orb_true_iff. right.
      destruct (snd (Atoi_value (Bucket.Get b "last-limit"))); [reflexivity|contradiction]. }
  subst checked. rewrite (Invalidate_stale db playlistId lim b Hf Hname Hb Hcond).
  split.
  - cbn [cache_buckets buckets]. apply lookup_insert_eq.
  - intros i. apply HasItem_absent. cbn [cached buckets]. rewrite lookup_insert_eq.
    cbn [Bucket.Get].
    destruct (String.eqb_spec "last-limit" (cache_key i)) as [Heq|_]; [|reflexivity].
    exfalso. apply (cache_key_not_limit i). congruence.
Qed.

Lemma dirty_check_empties_a_stale_bucket_witness :
  cache_buckets
    (InvalidateCacheIfDirty (Some (Scenario.store Scenario.two_days)) Scenario.playlist 6)
    !! Scenario.playlist
  = Some [("last-limit", Text "6")].
Proof.
  refine (proj1 (dirty_check_empties_a_stale_bucket
                   (Scenario.store Scenario.two_days) Scenario.playlist 6 Scenario.two_days
                   _ _ _ _)).
  - reflexivity.
  - discriminate.
  - reflexivity.
  - left. vm_compute. reflexivity.
Defined.

(** X3 (src/cache.go, [UpdateMaxLimit]): when its transaction runs on an
    existing bucket, the stored limit becomes the larger of the one read (0
    if it was missing or no number) and the new one, so it never goes down;
    every other record of the bucket and every other bucket stay. *)
Theorem UpdateMaxLimit_stores_the_larger_limit
    (db : DB) (playlistId : string) (lim : Z) (b : Bucket) :
  hd None (faults db) = None ->
  buckets db !! playlistId = Some b ->
  is_int lim ->
  exists db' b',
    UpdateMaxLimit (Some db) playlistId lim = Some db'
    /\ buckets db' !! playlistId = Some b'
    /\ Atoi_value (Bucket.Get b' "last-limit") = (Z.max (last_limit b) lim, None)
    /\ last_limit b <= last_limit b'
    /\ lim <= last_limit b'
    /\ (forall key, key <> "last-limit" -> Bucket.Get b' key = Bucket.Get b key)
    /\ (forall other, other <> playlistId -> buckets db' !! other = buckets db !! other).
Proof.
  intros Hf Hb Hint. rewrite (UpdateMaxLimit_runs db playlistId lim b Hf Hb).
  eexists. eexists. split; [reflexivity|]. cbn [buckets].
  split; [apply lookup_insert_eq|].
  assert (Hread : Atoi_value
                    (Bucket.Get
                       (Bucket.insert b "last-limit"
                          (Text (strconv.Itoa (Z.max (last_limit b) lim)))) "last-limit")
                  = (Z.max (last_limit b) lim, None)).
  { rewrite Get_insert_eq. cbn [Atoi_value].
    apply Atoi_Itoa, is_int_max; [apply last_limit_in_range|exact Hint]. }
  split; [exact Hread|].
  assert (Hnew : last_limit
                   (Bucket.insert b "last-limit"
                      (Text (strconv.Itoa (Z.max (last_limit b) lim))))
                 = Z.max (last_limit b) lim).
  { unfold last_limit at 1. rewrite Hread. reflexivity. }
  rewrite Hnew.
  split; [lia|]. split; [lia|]. split.
  - intros key Hkey. apply Get_insert_ne. congruence.
  - intros other Hother. apply lookup_insert_ne. congruence.
Qed.

Lemma UpdateMaxLimit_stores_the_larger_limit_witness :
  exists db' b',
    UpdateMaxLimit (Some (Scenario.store Scenario.two_days)) Scenario.playlist 3 = Some db'
    /\ buckets db' !! Scenario.playlist = Some b'
    /\ Atoi_value (Bucket.Get b' "last-limit") = (5, None).
Proof.
  destruct (UpdateMaxLimit_stores_the_larger_limit
              (Scenario.store Scenario.two_days) Scenario.playlist 3 Scenario.two_days)
    as (db' & b' & Hrun & Hb' & Hread & _).
  - reflexivity.
  - reflexivity.
  - split; discriminate.
  - exists db', b'. split; [exact Hrun|]. split; [exact Hb'|]. exact Hread.
Defined.

Lemma Invalidate_other (c : Cache) (playlistId other : string) (lim : Z) :
  other <> playlistId ->
  cache_buckets (InvalidateCacheIfDirty c playlistId lim) !! other = cache_buckets c !! other.
Proof.
  intros Hother. destruct c as [db|]; [|reflexivity].
  assert (Hne : playlistId <> other) by congruence.
  destruct (Invalidate_shape db playlistId lim) as (m' & -> & [->|(b & _ & _ & [->| ->])]);
    cbn [cache_buckets buckets]; rewrite ?lookup_insert_ne by exact Hne; reflexivity.
Qed.

Lemma UpdateMaxLimit_other (c : Cache) (playlistId other : string) (lim : Z) :
  other <> playlistId ->
  cache_buckets (UpdateMaxLimit c playlistId lim) !! other = cache_buckets c !! other.
Proof.
  intros Hother. destruct c as [db|]; [|reflexivity].
  assert (Hne : playlistId <> other) by congruence.
  destruct (UpdateMaxLimit_shape db playlistId lim) as (m' & -> & [->|(b & _ & ->)]);
    cbn [cache_buckets buckets]; rewrite ?lookup_insert_ne by exact Hne; reflexivity.
Qed.

Lemma Put_other (c : Cache) (playlistId other : string) (items : list Item) :
  other <> playlistId ->
  cache_buckets (Put c playlistId items) !! other = cache_buckets c !! other.
Proof.
  intros Hother. destruct c as [db|]; [|reflexivity].
  assert (Hne : playlistId <> other) by congruence.
  destruct (Put_shape db playlistId items) as (m' & -> & [->| ->]);
    cbn [cache_buckets buckets]; rewrite ?lookup_insert_ne by exact Hne; reflexivity.
Qed.

Lemma HasItem_buckets (c : Cache) (playlistId : string) (i : Item) :
  cache_buckets (snd (HasItem c playlistId i)) = cache_buckets c.
Proof. rewrite HasItem_spend. apply cache_buckets_spend. Qed.

(** X4 (src/cache.go, [InvalidateCacheIfDirty], [UpdateMaxLimit], [Put],
    [HasItem]): a method called for one playlist leaves the bucket of every
    other playlist as it was, and [HasItem] changes no bucket at all. *)
Theorem cache_methods_touch_one_bucket
    (c : Cache) (playlistId other : string) (lim : Z) (items : list Item) (i : Item) :
  other <> playlistId ->
  cache_buckets (InvalidateCacheIfDirty c playlistId lim) !! other = cache_buckets c !! other
  /\ cache_buckets (UpdateMaxLimit c playlistId lim) !! other = cache_buckets c !! other
  /\ cache_buckets (Put c playlistId items) !! other = cache_buckets c !! other
  /\ cache_buckets (snd (HasItem c playlistId i)) = cache_buckets c.
Proof.
  intros Hother.
  split; [apply Invalidate_other, Hother|].
  split; [apply UpdateMaxLimit_other, Hother|].
  split; [apply Put_other, Hother|].
  apply HasItem_buckets.
Qed.

Lemma cache_methods_touch_one_bucket_witness :
  cache_buckets (Put (Some (Scenario.store Scenario.two_days)) "UULFother" [Scenario.v3])
    !! Scenario.playlist
  = Some Scenario.two_days.
Proof.
  destruct (cache_methods_touch_one_bucket
              (Some (Scenario.store Scenario.two_days)) "UULFother" Scenario.playlist
              3 [Scenario.v3] Scenario.v3) as (_ & _ & Hput & _).
  - discriminate.
  - rewrite Hput. reflexivity.
Defined.

(** X5 (src/cache.go, [InvalidateCacheIfDirty], [UpdateMaxLimit], [Put],
    [HasItem]): a transaction that cannot begin changes nothing: the three
    writing methods leave every bucket as it was and [HasItem] answers
    false; the same holds for the writes of a dirty check or a [Put] under
    the empty playlist id, which bbolt refuses as a bucket name. *)
Theorem aborted_transaction_changes_nothing
    (db : DB) (playlistId : string) (lim : Z) (items : list Item) (i : Item) :
  let spent := Some {| faults := skipn 1 (faults db); buckets := buckets db |} in
  (forall e, hd None (faults db) = Some e ->
     InvalidateCacheIfDirty (Some db) playlistId lim = spent
     /\ UpdateMaxLimit (Some db) playlistId lim = spent
     /\ Put (Some db) playlistId items = spent
     /\ HasItem (Some db) playlistId i = (false, spent))
  /\ InvalidateCacheIfDirty (Some db) "" lim = spent
  /\ Put (Some db) "" items = spent.
Proof.
  intros spent. subst spent. split; [|split].
  - intros e Hf. split; [apply (Invalidate_fault _ _ _ e Hf)|].
    split; [apply UpdateMaxLimit_idle; left; congruence|].
    split; [apply (Put_fault _ _ _ e Hf)|].
    unfold HasItem. rewrite Begin_spend, Hf. reflexivity.
  - unfold InvalidateCacheIfDirty, DB.Update. rewrite Begin_spend.
    destruct (hd None (faults db)); [reflexivity|]. cbn [buckets faults].
    destruct (buckets db !! "") as [b|] eqn:Hb; [|reflexivity].
    destruct (Atoi_value (Bucket.Get b "last-limit")) as [lastLimit err].
    destruct ((lastLimit <? lim) || is_err err).
    + unfold Tx.DeleteBucket. rewrite Hb. reflexivity.
    + reflexivity.
  - unfold Put, DB.Update. rewrite Begin_spend.
    destruct (hd None (faults db)); reflexivity.
Qed.

Lemma aborted_transaction_changes_nothing_witness :
  Put (Some (Scenario.broken 2)) Scenario.playlist [Scenario.v1] = Some (Scenario.broken 1).
Proof.
  destruct (aborted_transaction_changes_nothing
              (Scenario.broken 2) Scenario.playlist 3 [Scenario.v1] Scenario.v1)
    as (Hfault & _).
  destruct (Hfault (ErrMsg "input/output error")) as (_ & _ & Hput & _).
  - reflexivity.
  - exact Hput.
Defined.

Lemma well_kept_Invalidate (c : Cache) (playlistId : string) (lim : Z) :
  well_kept c -> well_kept (InvalidateCacheIfDirty c playlistId lim).
Proof.
  intros Hc. destruct c as [db|]; [|exact Hc].
  unfold well_kept in *. cbn [cache_buckets] in Hc.
  destruct (Invalidate_shape db playlistId lim) as (m' & -> & [->|(b & Hb & _ & [->| ->])]);
    cbn [cache_buckets buckets]; [exact Hc| |].
  - apply well_kept_insert; [exact Hc|]. apply well_formed_insert_limit, (Hc _ _ Hb).
  - apply well_kept_insert; [exact Hc|]. apply well_formed_limit_only.
Qed.

Lemma well_kept_UpdateMaxLimit (c : Cache) (playlistId : string) (lim : Z) :
  well_kept c -> well_kept (UpdateMaxLimit c playlistId lim).
Proof.
  intros Hc. destruct c as [db|]; [|exact Hc].
  unfold well_kept in *. cbn [cache_buckets] in Hc.
  destruct (UpdateMaxLimit_shape db playlistId lim) as (m' & -> & [->|(b & Hb & ->)]);
    cbn [cache_buckets buckets]; [exact Hc|].
  apply well_kept_insert; [exact Hc|]. apply well_formed_insert_limit, (Hc _ _ Hb).
Qed.

Lemma well_kept_Put (c : Cache) (playlistId : string) (items : list Item) :
  well_kept c -> well_kept (Put c playlistId items).
Proof.
  intros Hc. destruct c as [db|]; [|exact Hc].
  unfold well_kept in *. cbn [cache_buckets] in Hc.
  destruct (Put_shape db playlistId items) as (m' & -> & [->| ->]);
    cbn [cache_buckets buckets]; [exact Hc|].
  apply well_kept_insert; [exact Hc|].
  apply well_formed_insert_all, well_formed_bucket_of, Hc.
Qed.

Lemma well_kept_same_buckets (c c' : Cache) :
  cache_buckets c' = cache_buckets c -> well_kept c -> well_kept c'.
Proof. unfold well_kept. intros ->. exact (fun H => H). Qed.

(** X6 (src/cache.go, [InvalidateCacheIfDirty], [UpdateMaxLimit], [Put],
    [HasItem]): the methods keep the cache well formed: if in every bucket
    the keys ascend strictly, each item sits under its own cache key and
    text only under the limit's key, then the same holds after each
    method, whatever its transaction does. *)
Theorem cache_methods_keep_buckets_well_formed
    (c : Cache) (playlistId : string) (lim : Z) (items : list Item) (i : Item) :
  well_kept c ->
  well_kept (InvalidateCacheIfDirty c playlistId lim)
  /\ well_kept (UpdateMaxLimit c playlistId lim)
  /\ well_kept (Put c playlistId items)
  /\ well_kept (snd (HasItem c playlistId i)).
Proof.
  intros Hc.
  split; [apply well_kept_Invalidate, Hc|].
  split; [apply well_kept_UpdateMaxLimit, Hc|].
  split; [apply well_kept_Put, Hc|].
  apply (well_kept_same_buckets c); [apply HasItem_buckets|exact Hc].
Qed.

Lemma well_kept_two_days : well_kept (Some (Scenario.store Scenario.two_days)).
Proof.
  intros name b. cbn [cache_buckets Scenario.store buckets].
  destruct (decide (name = Scenario.playlist)) as [->|Hne].
  - rewrite lookup_singleton_eq. intros H. inversion H; subst.
    change Scenario.two_days
      with (Bucket.insert (insert_all [] [Scenario.v1; Scenario.v2]) "last-limit" (Text "5")).
    apply well_formed_insert_limit, well_formed_insert_all, well_formed_empty.
  - rewrite lookup_singleton_ne by congruence. discriminate.
Qed.

Lemma cache_methods_keep_buckets_well_formed_witness :
  well_kept (Put (Some (Scenario.store Scenario.two_days)) Scenario.playlist [Scenario.v3]).
Proof.
  destruct (cache_methods_keep_buckets_well_formed
              (Some (Scenario.store Scenario.two_days)) Scenario.playlist 3
              [Scenario.v3] Scenario.v3 well_kept_two_days) as (_ & _ & Hput & _).
  exact Hput.
Defined.

(** X7 (src/cache.go, [Put], [HasItem]): [Put] stores a batch as a whole or
    not at all.  When the transaction begins and every item of the batch
    can be stored (its time encodes as JSON, its key has at most 32768
    bytes, and its strings are short enough for a value of the bucket),
    [HasItem] afterwards answers true for every item put and for every item
    that was cached before, and for no other key, and the stored limit is
    as it was.  When the time of one item of the batch does not encode, or
    its key has more than 32768 bytes, the transaction is rolled back: the
    cache is as it was and [HasItem] answers for every item what it
    answered before. *)
Theorem Put_then_HasItem (db : DB) (playlistId : string) (items : list Item) :
  faults db = [] ->
  playlistId <> "" ->
  let c' := Put (Some db) playlistId items in
  (Forall storable items ->
   (forall i, In i items -> fst (HasItem c' playlistId i) = true)
   /\ (forall i, cached (Some db) playlistId i = true -> fst (HasItem c' playlistId i) = true)
   /\ (forall i, fst (HasItem c' playlistId i) = true ->
         cached (Some db) playlistId i = true
         \/ exists j, In j items /\ cache_key j = cache_key i)
   /\ stored_limit c' playlistId = stored_limit (Some db) playlistId)
  /\ (Exists refused items ->
      c' = Some db
      /\ forall i, fst (HasItem c' playlistId i) = cached (Some db) playlistId i).
Proof.
  intros Hf Hname c'.
  assert (Hhd : hd None (faults db) = None) by (rewrite Hf; reflexivity).
  split; [intros Hall|intros Hnot].
  2:{ assert (Hc' : c' = Some db).
      { subst c'. rewrite (Put_refused db playlistId items Hnot), Hf.
        destruct db as [fs m]. cbn [faults] in Hf. subst fs. reflexivity. }
      split; [exact Hc'|]. intros i. rewrite Hc'. apply HasItem_present, Hhd. }
  assert (Hc' : c' = Some {| faults := [];
                             buckets := <[playlistId :=
                                            insert_all (bucket_of (buckets db) playlistId) items]>
                                          (buckets db) |}).
  { subst c'. unfold bucket_of. destruct (buckets db !! playlistId) as [b|] eqn:Hb.
    - rewrite (Put_existing db playlistId items b Hhd Hname Hb Hall), Hf. reflexivity.
    - rewrite (Put_fresh db playlistId items Hhd Hname Hb Hall), Hf. reflexivity. }
  assert (Hhas : forall i,
             fst (HasItem c' playlistId i)
             = cached (Some db) playlistId i
               || existsb (fun j => String.eqb (cache_key j) (cache_key i)) items).
  { intros i. rewrite Hc', HasItem_present by reflexivity.
    cbn [cached buckets]. rewrite lookup_insert_eq, has_value_insert_all.
    unfold bucket_of. destruct (buckets db !! playlistId); reflexivity. }
  split; [|split; [|split]].
  - intros i Hin. rewrite Hhas. apply orb_true_iff. right.
    apply existsb_exists. exists i. split; [exact Hin|apply String.eqb_refl].
  - intros i Hi. rewrite Hhas, Hi. reflexivity.
  - intros i Hi. rewrite Hhas in Hi. apply orb_true_iff in Hi. destruct Hi as [Hi|Hi].
    + left. exact Hi.
    + right. apply existsb_exists in Hi. destruct Hi as (j & Hin & Heq).
      exists j. split; [exact Hin|]. apply String.eqb_eq, Heq.
  - rewrite Hc'. cbn [stored_limit buckets]. rewrite lookup_insert_eq.
    rewrite Get_insert_all_other
      by (apply Forall_forall; intros j _; apply cache_key_not_limit).
    unfold bucket_of. destruct (buckets db !! playlistId); reflexivity.
Qed.

Lemma Put_then_HasItem_witness :
  Forall storable [Scenario.v3]
  /\ fst (HasItem (Put (Some (Scenario.store Scenario.two_days)) Scenario.playlist
                     [Scenario.v3])
            Scenario.playlist Scenario.v3)
     = true.
Proof.
  assert (Hall : Forall storable [Scenario.v3])
    by (repeat constructor; vm_compute; discriminate).
  split; [exact Hall|].
  destruct (Put_then_HasItem (Scenario.store Scenario.two_days) Scenario.playlist
              [Scenario.v3]) as (Hput & _).
  - reflexivity.
  - discriminate.
  - destruct (Hput Hall) as (Hin & _). apply Hin. left. reflexivity.
Defined.

(** A batch with an item of the year 12024, which [json.Marshal] refuses:
    nothing of the batch is stored, [v3] neither.  And a first request for a
    playlist whose one item is refused leaves no bucket behind, so that
    the second loop, with room left under the limit, panics in [Iter]. *)
Example Put_rolls_back_what_json_refuses :
  let far :=
    {| time.Year := 12024; time.Month := 1; time.Day := 1; time.Hour := 0;
       time.Minute := 0; time.Second := 0; time.Nanosecond := 0; time.Offset := 0 |} in
  Put (Some (Scenario.store Scenario.two_days)) Scenario.playlist
    [Scenario.v3; Scenario.video "x" far]
  = Some (Scenario.store Scenario.two_days)
  /\ videos Scenario.lib (Some {| faults := []; buckets := ∅ |})
       (Scenario.listing [[Scenario.entry "x" far]]) Scenario.playlist
       (Scenario.with_limit 2)
     = (Crash NilDereference, Some {| faults := []; buckets := ∅ |}).
Proof. cbv zeta. split; vm_compute; reflexivity. Qed.

(** ** Feed assembly: what holds for every cache and every listing *)

Section Bounds.

Variable lib : Library.
Variable playlistId : string.
Variable o : options.

Lemma live_range_grows :
  forall (l : list (option PlaylistItem * option error)) (c : Cache) (st : Loop),
    no_return st ->
    no_return (snd (range (fun w : Cache => w) l (live_body lib playlistId o) (c, st)))
    /\ exists extra,
        vids (snd (range (fun w : Cache => w) l (live_body lib playlistId o) (c, st)))
        = (vids st ++ extra)%list
        /\ (length extra <= length l)%nat.
Proof.
  induction l as [|[item err] l IH]; intros c st Hst.
  - split; [exact Hst|]. exists []. rewrite app_nil_r. split; [reflexivity|apply Nat.le_refl].
  - cbn [range fst snd]. unfold live_body at 1 3. cbv beta.
    destruct err as [e|].
    { split; [intros vs; discriminate|]. exists []. cbn [snd vids]. rewrite app_nil_r.
      split; [reflexivity|apply Nat.le_0_l]. }
    destruct item as [e|].
    2:{ split; [intros vs; discriminate|]. exists []. cbn [snd vids]. rewrite app_nil_r.
        split; [reflexivity|apply Nat.le_0_l]. }
    destruct (mapToFeedItem lib e o) as [e'|video].
    { split; [intros vs; discriminate|]. exists []. cbn [snd vids]. rewrite app_nil_r.
      split; [reflexivity|apply Nat.le_0_l]. }
    destruct (HasItem c playlistId video) as [has c']. destruct has; cbn [negb].
    + split; [intros vs; discriminate|]. exists [video]. cbn [snd vids length].
      split; [reflexivity|]. apply le_n_S, Nat.le_0_l.
    + destruct (IH c' {| vids := vids st ++ [video]; returned := None |})
        as (Hno & extra & Hvids & Hlen); [intros vs; discriminate|].
      split; [exact Hno|]. exists (video :: extra). rewrite Hvids. cbn [vids length].
      rewrite <- app_assoc. split; [reflexivity|]. apply le_n_S, Hlen.
Qed.

Lemma fallback_range_grows :
  forall (l : list (option Item * option error)) (c : Cache) (st : Loop),
    no_return st ->
    fst (range (fun w : Cache => w) l fallback_body (c, st)) = c
    /\ no_return (snd (range (fun w : Cache => w) l fallback_body (c, st)))
    /\ exists extra,
        vids (snd (range (fun w : Cache => w) l fallback_body (c, st)))
        = (vids st ++ extra)%list
        /\ (length extra <= length l)%nat.
Proof.
  induction l as [|[item err] l IH]; intros c st Hst.
  - split; [reflexivity|]. split; [exact Hst|]. exists []. rewrite app_nil_r.
    split; [reflexivity|apply Nat.le_refl].
  - cbn [range fst snd]. unfold fallback_body at 1 3 5. cbv beta.
    destruct err as [e|].
    { split; [reflexivity|]. split; [intros vs; discriminate|]. exists [].
      cbn [snd vids]. rewrite app_nil_r. split; [reflexivity|apply Nat.le_0_l]. }
    destruct item as [i|].
    + destruct (IH c {| vids := vids st ++ [i]; returned := None |})
        as (Hc & Hno & extra & Hvids & Hlen); [intros vs; discriminate|].
      split; [exact Hc|]. split; [exact Hno|]. exists (i :: extra). rewrite Hvids.
      cbn [vids length]. rewrite <- app_assoc. split; [reflexivity|]. apply le_n_S, Hlen.
    + destruct (IH c {| vids := vids st; returned := None |})
        as (Hc & Hno & extra & Hvids & Hlen); [intros vs; discriminate|].
      split; [exact Hc|]. split; [exact Hno|]. exists extra. rewrite Hvids.
      cbn [vids length]. split; [reflexivity|]. apply Nat.le_le_succ_r, Hlen.
Qed.

(** The second loop, whatever the cache holds: it panics, or it leaves the
    buckets as they were and appends to the slice no more than the limit
    leaves room for. *)
Lemma fallback_phase_grows (c : Cache) (vs : list Item) (after : string) :
  match fallback_phase c playlistId o vs after with
  | Panicked _ => True
  | Done (c', st') =>
      cache_buckets c' = cache_buckets c
      /\ no_return st'
      /\ exists extra,
          vids st' = (vs ++ extra)%list
          /\ len vs + len extra <= Z.max (len vs) (limit o)
  end.
Proof.
  unfold fallback_phase.
  destruct (Z.le_gt_cases (Z.max 0 (limit o - len vs)) 0) as [Hle|Hgt].
  { rewrite take_nothing by exact Hle. split; [reflexivity|]. split; [intros r; discriminate|].
    exists []. cbn [vids]. rewrite app_nil_r. split; [reflexivity|]. unfold len. cbn [length]. lia. }
  assert (Hfinish :
    forall (l : list (option Item * option error)) (c0 : Cache),
      cache_buckets c0 = cache_buckets c ->
      match Done (range (fun w : Cache => w) (firstn (Z.to_nat (Z.max 0 (limit o - len vs))) l)
                    fallback_body (c0, {| vids := vs; returned := None |})) with
      | Panicked _ => True
      | Done (c', st') =>
          cache_buckets c' = cache_buckets c
          /\ no_return st'
          /\ exists extra,
              vids st' = (vs ++ extra)%list
              /\ len vs + len extra <= Z.max (len vs) (limit o)
      end).
  { intros l c0 Hc0.
    destruct (fallback_range_grows
                (firstn (Z.to_nat (Z.max 0 (limit o - len vs))) l) c0
                {| vids := vs; returned := None |})
      as (Hc & Hno & extra & Hvids & Hlen); [intros r; discriminate|].
    destruct (range (fun w : Cache => w)
                (firstn (Z.to_nat (Z.max 0 (limit o - len vs))) l) fallback_body
                (c0, {| vids := vs; returned := None |})) as [c' st'].
    cbn [fst snd vids] in *. subst c'. split; [exact Hc0|]. split; [exact Hno|].
    exists extra. split; [exact Hvids|].
    pose proof (firstn_le_length (Z.to_nat (Z.max 0 (limit o - len vs))) l) as Hfirst.
    unfold len in *. lia. }
  destruct c as [db|].
  - destruct (hd None (faults db)) as [e|] eqn:Hf.
    + rewrite (take_as_list (fun w : Cache => w) _ _ [(None, Some e)] (Some db)
                 (Some {| faults := skipn 1 (faults db); buckets := buckets db |}));
        [apply Hfinish; reflexivity| |lia].
      intros St yield st. apply Iter_fault. rewrite Begin_spend, Hf. reflexivity.
    + destruct (buckets db !! playlistId) as [b|] eqn:Hb.
      * rewrite (take_as_list (fun w : Cache => w) _ _
                   (decoded (rev (firstn (Bucket.seek_index b after) b))) (Some db)
                   (Some {| faults := skipn 1 (faults db); buckets := buckets db |}));
          [apply Hfinish; reflexivity| |lia].
        intros St yield st.
        apply Iter_runs; [rewrite Begin_spend, Hf; reflexivity|exact Hb].
      * rewrite (take_panics _ _ (Some db) NilDereference); [exact I| |lia].
        intros St yield st.
        apply (Iter_no_bucket yield db
                 {| faults := skipn 1 (faults db); buckets := buckets db |});
          [rewrite Begin_spend, Hf; reflexivity|exact Hb].
  - rewrite (take_panics _ _ None NilDereference); [exact I| |lia].
    intros St yield st. reflexivity.
Qed.

(** The first loop, whatever the cache holds: it ends with the buckets as
    they were and at most [limit] items in the slice. *)
Lemma live_phase_grows (c : Cache) (call : ListCall) :
  exists c' st',
    live_phase lib c call playlistId o = Done (c', st')
    /\ cache_buckets c' = cache_buckets c
    /\ no_return st'
    /\ len (vids st') <= Z.max 0 (limit o).
Proof.
  rewrite live_phase_as_list.
  pose proof (live_range_buckets lib playlistId o
                (firstn (Z.to_nat (limit o)) (emitted call)) c
                {| vids := []; returned := None |}) as Hb.
  destruct (live_range_grows (firstn (Z.to_nat (limit o)) (emitted call)) c
              {| vids := []; returned := None |})
    as (Hno & extra & Hvids & Hlen); [intros r; discriminate|].
  destruct (range (fun w : Cache => w) (firstn (Z.to_nat (limit o)) (emitted call))
              (live_body lib playlistId o) (c, {| vids := []; returned := None |}))
    as [c' st'].
  cbn [fst snd vids] in *. exists c', st'. split; [reflexivity|]. split; [exact Hb|].
  split; [exact Hno|]. rewrite Hvids. cbn [app].
  pose proof (firstn_le_length (Z.to_nat (limit o)) (emitted call)) as Hfirst.
  unfold len in *. lia.
Qed.

Lemma last_nonempty {A : Type} (l : list A) (x : A) : last l = Some x -> (0 < length l)%nat.
Proof. destruct l; [discriminate|]. intros _. cbn [length]. apply Nat.lt_0_succ. Qed.

(** What the buckets of the cache satisfy after [videos], given a property
    that each writing method keeps. *)
Lemma videos_buckets (P : gmap string Bucket -> Prop) (c : Cache) (remote : Remote) :
  (forall c0 lim, P (cache_buckets c0) ->
                  P (cache_buckets (InvalidateCacheIfDirty c0 playlistId lim))) ->
  (forall c0 lim, P (cache_buckets c0) ->
                  P (cache_buckets (UpdateMaxLimit c0 playlistId lim))) ->
  (forall c0 items, P (cache_buckets c0) -> P (cache_buckets (Put c0 playlistId items))) ->
  P (cache_buckets c) ->
  P (cache_buckets (snd (videos lib c remote playlistId o))).
Proof.
  intros Hinv Hupd Hput Hc. unfold videos.
  pose proof (Hinv c (limit o) Hc) as H1.
  destruct (client_err remote) as [msg|]; [exact H1|].
  destruct (live_phase_grows (InvalidateCacheIfDirty c playlistId (limit o))
              (responses remote)) as (c2 & st2 & -> & Hb2 & _ & _).
  rewrite <- Hb2 in H1.
  destruct (returned st2) as [r|]; [exact H1|].
  pose proof (Hput c2 (vids st2) H1) as H3.
  destruct (last (vids st2)) as [newest|]; [|exact H3].
  pose proof (fallback_phase_grows (Put c2 playlistId (vids st2)) (vids st2)
                (time.Format_RFC3339 (Created newest))) as Hfb.
  destruct (fallback_phase (Put c2 playlistId (vids st2)) playlistId o (vids st2)
              (time.Format_RFC3339 (Created newest))) as [[c4 st4]|p]; [|exact H3].
  destruct Hfb as (Hb4 & _ & _). rewrite <- Hb4 in H3.
  destruct (returned st4) as [r|]; [exact H3|].
  cbn [snd]. apply Hupd, H3.
Qed.

(** A list that [videos] returns is what the two loops appended: the first
    loop at least one item and at most [limit], the second no more than the
    limit leaves room for. *)
Lemma videos_returned (c : Cache) (remote : Remote) (vs : list Item) :
  fst (videos lib c remote playlistId o) = Return vs ->
  exists live older : list Item,
    vs = (live ++ older)%list /\ 0 < len live <= limit o /\ len vs <= limit o.
Proof.
  unfold videos.
  destruct (client_err remote) as [msg|]; [discriminate|].
  destruct (live_phase_grows (InvalidateCacheIfDirty c playlistId (limit o))
              (responses remote)) as (c2 & st2 & -> & _ & Hno2 & Hlen2).
  destruct (returned st2) as [r|] eqn:Hr2.
  { cbn [fst]. intros ->. exfalso. apply (Hno2 vs). exact Hr2. }
  destruct (last (vids st2)) as [newest|] eqn:Hlast; [|discriminate].
  apply last_nonempty in Hlast.
  pose proof (fallback_phase_grows (Put c2 playlistId (vids st2)) (vids st2)
                (time.Format_RFC3339 (Created newest))) as Hfb.
  destruct (fallback_phase (Put c2 playlistId (vids st2)) playlistId o (vids st2)
              (time.Format_RFC3339 (Created newest))) as [[c4 st4]|p]; [|discriminate].
  destruct Hfb as (_ & Hno4 & extra & Hvids & Hlen4).
  destruct (returned st4) as [r|] eqn:Hr4.
  { cbn [fst]. intros ->. exfalso. apply (Hno4 vs). exact Hr4. }
  cbn [fst]. intros Hret. inversion Hret; subst vs. rewrite Hvids.
  exists (vids st2), extra. split; [reflexivity|].
  unfold len in *. rewrite length_app. lia.
Qed.

(** X8 (src/unnamed/part_002, [videos], [take]): whatever the cache holds
    and whatever the remote side answers, a list that [videos] returns has
    at least one item and at most [limit] items. *)
Theorem videos_returns_between_one_and_limit_items
    (c : Cache) (remote : Remote) (vs : list Item) :
  fst (videos lib c remote playlistId o) = Return vs ->
  0 < len vs <= limit o.
Proof.
  intros Hret. destruct (videos_returned c remote vs Hret) as (live & older & -> & Hlive & Hall).
  split; [|exact Hall].
  unfold len in *. rewrite length_app. lia.
Qed.

(** X9 (src/unnamed/part_002, [videos]; src/cache.go, the methods it calls):
    [videos] keeps the cache well formed, whether it returns a list, fails
    or panics. *)
Theorem videos_keeps_the_cache_well_formed (c : Cache) (remote : Remote) :
  well_kept c -> well_kept (snd (videos lib c remote playlistId o)).
Proof.
  intros Hc.
  exact (videos_buckets
           (fun m => forall name b, m !! name = Some b -> well_formed b) c remote
           (fun c0 lim => well_kept_Invalidate c0 playlistId lim)
           (fun c0 lim => well_kept_UpdateMaxLimit c0 playlistId lim)
           (fun c0 items => well_kept_Put c0 playlistId items)
           Hc).
Qed.

(** X10 (src/unnamed/part_002, [videos]; src/cache.go, the methods it
    calls): a request for one playlist leaves the bucket of every other
    playlist as it was. *)
Theorem videos_touches_one_bucket (c : Cache) (remote : Remote) (other : string) :
  other <> playlistId ->
  cache_buckets (snd (videos lib c remote playlistId o)) !! other = cache_buckets c !! other.
Proof.
  intros Hother.
  apply (videos_buckets (fun m => m !! other = cache_buckets c !! other) c remote).
  - intros c0 lim H. rewrite Invalidate_other by exact Hother. exact H.
  - intros c0 lim H. rewrite UpdateMaxLimit_other by exact Hother. exact H.
  - intros c0 items H. rewrite Put_other by exact Hother. exact H.
  - reflexivity.
Qed.

End Bounds.

Lemma videos_returns_between_one_and_limit_items_witness :
  fst (videos Scenario.lib (Some (Scenario.store Scenario.two_days))
         (Scenario.listing [[Scenario.e3; Scenario.e2; Scenario.e1]])
         Scenario.playlist (Scenario.with_limit 2))
  = Return [Scenario.v3; Scenario.v2]
  /\ 0 < len [Scenario.v3; Scenario.v2] <= 2.
Proof.
  assert (Hrun : fst (videos Scenario.lib (Some (Scenario.store Scenario.two_days))
                        (Scenario.listing [[Scenario.e3; Scenario.e2; Scenario.e1]])
                        Scenario.playlist (Scenario.with_limit 2))
                 = Return [Scenario.v3; Scenario.v2]) by (vm_compute; reflexivity).
  split; [exact Hrun|].
  exact (videos_returns_between_one_and_limit_items Scenario.lib Scenario.playlist
           (Scenario.with_limit 2) _ _ _ Hrun).
Defined.

Lemma videos_keeps_the_cache_well_formed_witness :
  well_kept
    (snd (videos Scenario.lib (Some (Scenario.store Scenario.two_days))
            (Scenario.listing [[Scenario.e3; Scenario.e2; Scenario.e1]])
            Scenario.playlist (Scenario.with_limit 2))).
Proof.
  exact (videos_keeps_the_cache_well_formed Scenario.lib Scenario.playlist
           (Scenario.with_limit 2) _ _ well_kept_two_days).
Defined.

Lemma videos_touches_one_bucket_witness :
  cache_buckets
    (snd (videos Scenario.lib (Some (Scenario.store Scenario.two_days))
            (Scenario.listing [[Scenario.e3]]) "UULFother" (Scenario.with_limit 2)))
    !! Scenario.playlist
  = Some Scenario.two_days.
Proof.
  rewrite (videos_touches_one_bucket Scenario.lib "UULFother" (Scenario.with_limit 2)
             (Some (Scenario.store Scenario.two_days)) (Scenario.listing [[Scenario.e3]])
             Scenario.playlist).
  - reflexivity.
  - discriminate.
Defined.

(** ** Keys of items published seconds apart *)

Lemma append_empty (s : string) : s +:+ "" = s.
Proof. induction s as [|c s IH]; [reflexivity|]. rewrite append_cons, IH. reflexivity. Qed.

(** The RFC 3339 texts of two UTC readings, each followed by more text,
    compare as the readings do field by field, then by what follows. *)
Lemma Format_compare_tail (ta tb : time.Time) (sa sb : string) :
  utc ta -> utc tb ->
  String.compare (time.Format_RFC3339 ta +:+ sa) (time.Format_RFC3339 tb +:+ sb)
  = lex (compare_fields ta tb) (String.compare sa sb).
Proof.
  intros Ha Hb. rewrite !Format_utc by assumption.
  destruct Ha as ((Hma & Hda & Hha & Hmia & Hsa & _) & _ & Hya).
  destruct Hb as ((Hmb & Hdb & Hhb & Hmib & Hsb & _) & _ & Hyb).
  pose proof (daysIn_le_31 _ (time.Year ta) Hma) as Hdaysa.
  pose proof (daysIn_le_31 _ (time.Year tb) Hmb) as Hdaysb.
  assert (Hqa : 0 <= time.Year ta / 100 < 100)
    by (split; [apply Z.div_pos; lia|apply Z.div_lt_upper_bound; lia]).
  assert (Hqb : 0 <= time.Year tb / 100 < 100)
    by (split; [apply Z.div_pos; lia|apply Z.div_lt_upper_bound; lia]).
  pose proof (Z.mod_pos_bound (time.Year ta) 100 ltac:(lia)) as Hra.
  pose proof (Z.mod_pos_bound (time.Year tb) 100 ltac:(lia)) as Hrb.
  rewrite !string_append_assoc.
  repeat (first [rewrite compare_two_digits by lia|rewrite compare_same_separator]).
  unfold compare_fields.
  rewrite <- (lex_div_mod 100 (time.Year ta) (time.Year tb)) by lia.
  rewrite !lex_assoc. reflexivity.
Qed.

(** Two UTC readings a second or more apart differ in a field. *)
Lemma compare_fields_of_instants (ta tb : time.Time) :
  utc ta -> utc tb -> time.instant ta < time.instant tb -> compare_fields ta tb = Lt.
Proof.
  intros (Hva & Hoa & _) (Hvb & Hob & _) Hlt.
  assert (Hoff : time.Offset ta = time.Offset tb) by congruence.
  pose proof (instant_mono tb ta Hvb Hva (eq_sym Hoff)) as Hgt.
  pose proof (instant_same_fields ta tb Hoff) as Heq.
  rewrite compare_fields_antisym in Hgt.
  destruct (compare_fields ta tb); cbn [CompOpp] in *.
  - specialize (Heq eq_refl). lia.
  - reflexivity.
  - specialize (Hgt eq_refl). lia.
Qed.

Section KeysApart.

Variables older newer : Item.
Hypothesis Ho : utc (Created older).
Hypothesis Hn : utc (Created newer).
Hypothesis Hlt : time.instant (Created older) < time.instant (Created newer).

Lemma older_key_below_time :
  String.ltb (cache_key older) (time.Format_RFC3339 (Created newer)) = true.
Proof.
  apply ltb_lt. unfold cache_key.
  rewrite <- (append_empty (time.Format_RFC3339 (Created newer))).
  rewrite (Format_compare_tail _ _ _ _ Ho Hn), (compare_fields_of_instants _ _ Ho Hn Hlt).
  reflexivity.
Qed.

Lemma older_key_below_key : String.ltb (cache_key older) (cache_key newer) = true.
Proof.
  apply ltb_lt. unfold cache_key.
  rewrite (Format_compare_tail _ _ _ _ Ho Hn), (compare_fields_of_instants _ _ Ho Hn Hlt).
  reflexivity.
Qed.

Lemma newer_key_not_below_time :
  String.ltb (cache_key newer) (time.Format_RFC3339 (Created older)) = false.
Proof.
  unfold String.ltb, cache_key.
  rewrite <- (append_empty (time.Format_RFC3339 (Created older))).
  rewrite (Format_compare_tail _ _ _ _ Hn Ho), compare_fields_antisym,
    (compare_fields_of_instants _ _ Ho Hn Hlt).
  reflexivity.
Qed.

Lemma keys_apart : cache_key newer <> cache_key older.
Proof.
  intros Heq. pose proof older_key_below_key as H. rewrite Heq, ltb_irrefl in H. discriminate.
Qed.

End KeysApart.

Lemma cache_key_below_limit (i : Item) : String.ltb (cache_key i) "last-limit" = true.
Proof.
  destruct (cache_key_head i) as (c & rest & -> & Hc).
  unfold String.ltb. cbn [String.compare]. unfold Ascii.compare.
  change (N_of_ascii "l") with 108%N.
  destruct (N.compare_spec (N_of_ascii c) 108) as [E|L|G]; first [lia|reflexivity].
Qed.

(** ** Listings newest first *)

Lemma newest_first_utc (l : list Item) :
  newest_first l -> Forall (fun i => utc (Created i)) l.
Proof. induction 1; constructor; assumption. Qed.

Lemma newest_first_app (l1 l2 : list Item) :
  newest_first (l1 ++ l2)%list ->
  newest_first l1 /\ newest_first l2
  /\ Forall (fun a => Forall (fun b => time.instant (Created b) < time.instant (Created a)) l2)
       l1.
Proof.
  induction l1 as [|a l1 IH]; cbn [app]; intros H.
  - split; [constructor|]. split; [exact H|constructor].
  - inversion H as [|? ? Hu Hall Hrest]; subst.
    destruct (IH Hrest) as (H1 & H2 & Hcross).
    apply Forall_app in Hall. destruct Hall as [Hall1 Hall2].
    split; [constructor; assumption|]. split; [exact H2|].
    constructor; assumption.
Qed.

Lemma Forall_sublist_of {A : Type} (P : A -> Prop) (l1 l2 : list A) :
  l1 `sublist_of` l2 -> Forall P l2 -> Forall P l1.
Proof.
  induction 1 as [|x l1 l2 Hsub IH|x l1 l2 Hsub IH]; intros Hall.
  - constructor.
  - inversion Hall; subst. constructor; auto.
  - inversion Hall; subst. auto.
Qed.

Lemma newest_first_sublist (X R : list Item) :
  X `sublist_of` R -> newest_first R -> newest_first X.
Proof.
  induction 1 as [|x l1 l2 Hsub IH|x l1 l2 Hsub IH]; intros HR.
  - constructor.
  - inversion HR as [|? ? Hu Hall Hrest]; subst.
    constructor; [exact Hu| |apply IH, Hrest].
    apply (Forall_sublist_of _ l1 l2 Hsub Hall).
  - inversion HR; subst. auto.
Qed.

Lemma newest_first_firstn (n : nat) (l : list Item) :
  newest_first l -> newest_first (firstn n l).
Proof. apply newest_first_sublist, sublist_take. Qed.

(** ** Buckets that hold a listing *)

Lemma insert_between (lo hi : Bucket) (key : string) (v : Value) :
  Forall (fun kv => String.ltb (fst kv) key = true) lo ->
  Forall (fun kv => String.ltb key (fst kv) = true) hi ->
  Bucket.insert (lo ++ hi)%list key v = (lo ++ (key, v) :: hi)%list.
Proof.
  intros Hlo Hhi. induction Hlo as [|[k v0] lo Hk Hlo IH]; cbn [app Bucket.insert].
  - destruct Hhi as [|[k v0] hi Hk Hhi]; [reflexivity|]. cbn [Bucket.insert fst] in *.
    apply ltb_lt in Hk. rewrite Hk. reflexivity.
  - cbn [fst] in Hk. apply ltb_lt, string_compare_gt_lt in Hk. rewrite Hk, IH. reflexivity.
Qed.

Lemma insert_at (lo hi : Bucket) (key : string) (v v0 : Value) :
  Forall (fun kv => String.ltb (fst kv) key = true) lo ->
  Bucket.insert (lo ++ (key, v0) :: hi)%list key v = (lo ++ (key, v) :: hi)%list.
Proof.
  intros Hlo. induction Hlo as [|[k v1] lo Hk Hlo IH]; cbn [app Bucket.insert].
  - rewrite string_compare_refl. reflexivity.
  - cbn [fst] in Hk. apply ltb_lt, string_compare_gt_lt in Hk. rewrite Hk, IH. reflexivity.
Qed.

Lemma records_app (xs ys : list Item) : records (xs ++ ys)%list = (records xs ++ records ys)%list.
Proof. apply map_app. Qed.

Lemma payloads_records (X : list Item) : payloads (records X) = X.
Proof. induction X as [|i X IH]; cbn [records map payloads]; [reflexivity|]. f_equal. exact IH. Qed.

Lemma Forall_rev_records (P : string * Value -> Prop) (X : list Item) :
  Forall (fun i => P (cache_key i, Json i)) X -> Forall P (rev (records X)).
Proof.
  intros H. apply Forall_rev. unfold records. apply Forall_map.
  eapply Forall_impl; [exact H|]. intros i Hi. exact Hi.
Qed.

(** The records of items older than [a] have keys below the key of [a]
    and below its timestamp. *)
Lemma older_records_below (a : Item) (X : list Item) :
  utc (Created a) ->
  Forall (fun i => utc (Created i)) X ->
  Forall (fun b => time.instant (Created b) < time.instant (Created a)) X ->
  Forall (fun kv => String.ltb (fst kv) (cache_key a) = true) (rev (records X))
  /\ Forall (fun kv => String.ltb (fst kv) (time.Format_RFC3339 (Created a)) = true)
       (rev (records X)).
Proof.
  intros Ha Hu Hlt.
  assert (Hboth : Forall (fun b => utc (Created b)
                                   /\ time.instant (Created b) < time.instant (Created a)) X).
  { apply Forall_and. split; assumption. }
  split; apply Forall_rev_records; (eapply Forall_impl; [exact Hboth|]);
    intros b [Hb Hba]; cbn [fst].
  - apply older_key_below_key; assumption.
  - apply older_key_below_time; assumption.
Qed.

Lemma insert_all_between :
  forall (vs : list Item) (lo hi : Bucket),
    newest_first vs ->
    Forall (fun i => Forall (fun kv => String.ltb (fst kv) (cache_key i) = true) lo) vs ->
    Forall (fun i => Forall (fun kv => String.ltb (cache_key i) (fst kv) = true) hi) vs ->
    insert_all (lo ++ hi)%list vs = (lo ++ rev (records vs) ++ hi)%list.
Proof.
  induction vs as [|i vs IH]; intros lo hi Hnf Hlo Hhi; [reflexivity|].
  inversion Hnf as [|? ? Hu Hall Hrest]; subst.
  inversion Hlo as [|? ? Hlo1 Hlo']; subst.
  inversion Hhi as [|? ? Hhi1 Hhi']; subst.
  cbn [insert_all fold_left].
  fold (insert_all (Bucket.insert (lo ++ hi)%list (cache_key i) (Json i)) vs).
  rewrite insert_between by assumption.
  rewrite IH; [|exact Hrest|exact Hlo'|].
  - cbn [records map rev]. fold (records vs). rewrite <- !app_assoc. reflexivity.
  - pose proof (newest_first_utc _ Hrest) as Hus.
    apply Forall_forall. intros j Hj. constructor.
    + cbn [fst]. apply older_key_below_key; [| |].
      * apply (proj1 (Forall_forall _ _) Hus j Hj).
      * exact Hu.
      * apply (proj1 (Forall_forall _ _) Hall j Hj).
    + apply (proj1 (Forall_forall _ _) Hhi' j Hj).
Qed.

Lemma insert_all_empty (vs : list Item) :
  newest_first vs -> insert_all [] vs = rev (records vs).
Proof.
  intros Hnf. change (@nil (string * Value)) with (@nil (string * Value) ++ [])%list at 1.
  rewrite insert_all_between; [cbn [app]; apply app_nil_r|exact Hnf| |];
    apply Forall_forall; intros; constructor.
Qed.

Lemma records_below_limit (X : list Item) :
  Forall (fun kv => String.ltb (fst kv) "last-limit" = true) (rev (records X)).
Proof.
  apply Forall_rev_records, Forall_forall. intros i _. apply cache_key_below_limit.
Qed.

Lemma insert_limit_holding (X : list Item) (n m : Z) :
  Bucket.insert (holding X n) "last-limit" (Text (strconv.Itoa m)) = holding X m.
Proof. unfold holding. apply insert_at, records_below_limit. Qed.

Lemma insert_limit_records (X : list Item) (m : Z) :
  Bucket.insert (rev (records X)) "last-limit" (Text (strconv.Itoa m)) = holding X m.
Proof.
  rewrite <- (app_nil_r (rev (records X))) at 1. unfold holding.
  apply insert_between; [apply records_below_limit|constructor].
Qed.

Lemma insert_all_holding (vs X : list Item) (n : Z) :
  newest_first (vs ++ X)%list -> insert_all (holding X n) vs = holding (vs ++ X)%list n.
Proof.
  intros Hnf. destruct (newest_first_app _ _ Hnf) as (Hvs & HX & Hcross).
  pose proof (newest_first_utc _ Hvs) as Huvs. pose proof (newest_first_utc _ HX) as HuX.
  unfold holding. rewrite insert_all_between.
  - rewrite records_app, rev_app_distr, <- app_assoc. reflexivity.
  - exact Hvs.
  - apply Forall_forall. intros a Ha.
    apply older_records_below; [|exact HuX|].
    + apply (proj1 (Forall_forall _ _) Huvs a Ha).
    + apply (proj1 (Forall_forall _ _) Hcross a Ha).
  - apply Forall_forall. intros a _. constructor; [apply cache_key_below_limit|constructor].
Qed.

Lemma well_formed_holding (X : list Item) (n : Z) : newest_first X -> well_formed (holding X n).
Proof.
  intros Hnf. rewrite <- insert_limit_records, <- insert_all_empty by exact Hnf.
  apply well_formed_insert_limit, well_formed_insert_all, well_formed_empty.
Qed.

Lemma Get_app (xs ys : Bucket) (key : string) :
  Bucket.Get (xs ++ ys)%list key
  = match Bucket.Get xs key with
    | Some v => Some v
    | None => Bucket.Get ys key
    end.
Proof.
  induction xs as [|[k v] xs IH]; cbn [app Bucket.Get]; [reflexivity|].
  destruct (String.eqb k key); [reflexivity|exact IH].
Qed.

Lemma Get_records_other (X : list Item) (key : string) :
  Forall (fun j => cache_key j <> key) X -> Bucket.Get (rev (records X)) key = None.
Proof.
  induction 1 as [|j X Hj Hall IH]; [reflexivity|].
  cbn [records map rev]. fold (records X). rewrite Get_app, IH. cbn [Bucket.Get].
  destruct (String.eqb_spec (cache_key j) key); [contradiction|reflexivity].
Qed.

Lemma Get_holding_limit (X : list Item) (n : Z) :
  Bucket.Get (holding X n) "last-limit" = Some (Text (strconv.Itoa n)).
Proof.
  unfold holding. rewrite Get_app, Get_records_other; [reflexivity|].
  apply Forall_forall. intros j _. apply cache_key_not_limit.
Qed.

Lemma Get_holding_new (X : list Item) (n : Z) (i : Item) :
  Forall (fun j => cache_key j <> cache_key i) X ->
  Bucket.Get (holding X n) (cache_key i) = None.
Proof.
  intros H. unfold holding. rewrite Get_app, Get_records_other by exact H.
  cbn [Bucket.Get].
  destruct (String.eqb_spec "last-limit" (cache_key i)) as [Heq|_]; [|reflexivity].
  exfalso. apply (cache_key_not_limit i). congruence.
Qed.

Lemma older_keys_differ (a : Item) (X : list Item) :
  utc (Created a) ->
  Forall (fun i => utc (Created i)) X ->
  Forall (fun b => time.instant (Created b) < time.instant (Created a)) X ->
  Forall (fun j => cache_key j <> cache_key a) X.
Proof.
  intros Ha Hu Hlt. apply Forall_forall. intros j Hj Heq.
  apply (keys_apart j a); [| |  |congruence].
  - apply (proj1 (Forall_forall _ _) Hu j Hj).
  - exact Ha.
  - apply (proj1 (Forall_forall _ _) Hlt j Hj).
Qed.

Lemma Get_holding_head (r0 : Item) (X : list Item) (n : Z) :
  newest_first (r0 :: X) ->
  Bucket.Get (holding (r0 :: X) n) (cache_key r0) = Some (Json r0).
Proof.
  intros Hnf. inversion Hnf as [|? ? Hu Hall Hrest]; subst.
  unfold holding. cbn [records map rev]. fold (records X).
  rewrite <- app_assoc, Get_app, Get_records_other.
  - cbn [app Bucket.Get]. rewrite String.eqb_refl. reflexivity.
  - apply older_keys_differ; [exact Hu|apply newest_first_utc, Hrest|exact Hall].
Qed.

(** What lies below the timestamp of an item in a bucket that holds it:
    the records of the items after it in the listing. *)
Lemma below_holding (news : list Item) (r0 : Item) (X : list Item) (n : Z) :
  newest_first (news ++ r0 :: X)%list ->
  below (time.Format_RFC3339 (Created r0)) (holding (news ++ r0 :: X)%list n)
  = rev (records X).
Proof.
  intros Hnf. destruct (newest_first_app _ _ Hnf) as (Hnews & Hr0X & Hcross).
  inversion Hr0X as [|? ? Hu Hall HX]; subst.
  pose proof (newest_first_utc _ Hnews) as Hunews. pose proof (newest_first_utc _ HX) as HuX.
  unfold holding, below.
  rewrite records_app, rev_app_distr. cbn [records map rev]. fold (records X).
  rewrite <- !app_assoc, !List.filter_app. cbn [app].
  assert (H1 : List.filter (fun kv => String.ltb (fst kv) (time.Format_RFC3339 (Created r0)))
                 (rev (records X)) = rev (records X)).
  { apply forallb_filter_id, forallb_forall. intros kv Hkv.
    destruct (older_records_below r0 X Hu HuX Hall) as [_ Hb].
    apply (proj1 (List.Forall_forall _ _) Hb kv Hkv). }
  assert (H2 : List.filter (fun kv => String.ltb (fst kv) (time.Format_RFC3339 (Created r0)))
                 (rev (records news)) = []).
  { rewrite List.filter_rev. replace (List.filter _ (records news)) with (@nil (string * Value));
      [reflexivity|].
    symmetry. unfold records. clear Hnf Hnews.
    induction news as [|a news IH]; [reflexivity|].
    inversion Hunews; subst. inversion Hcross as [|? ? Ha Hcross']; subst.
    inversion Ha; subst. cbn [map List.filter fst].
    rewrite newer_key_not_below_time by assumption. apply IH; assumption. }
  rewrite H1, H2. cbn [List.filter fst app].
  rewrite cache_key_not_below_time, limit_key_not_below_time. apply app_nil_r.
Qed.

Lemma insert_head_holding (news : list Item) (r0 : Item) (X : list Item) (n : Z) :
  newest_first (r0 :: X) ->
  Bucket.insert (holding (news ++ r0 :: X)%list n) (cache_key r0) (Json r0)
  = holding (news ++ r0 :: X)%list n.
Proof.
  intros Hnf. inversion Hnf as [|? ? Hu Hall HX]; subst.
  unfold holding. rewrite records_app, rev_app_distr. cbn [records map rev]. fold (records X).
  rewrite <- !app_assoc. cbn [app]. apply insert_at.
  apply (older_records_below r0 X Hu (newest_first_utc _ HX) Hall).
Qed.

(** ** Feed assembly over a cache that follows the listing *)

Lemma Put_runs (db : DB) (playlistId : string) (items : list Item) :
  hd None (faults db) = None ->
  playlistId <> "" ->
  Forall storable items ->
  Put (Some db) playlistId items
  = Some {| faults := skipn 1 (faults db);
            buckets := <[playlistId := insert_all (bucket_of (buckets db) playlistId) items]>
                         (buckets db) |}.
Proof.
  intros Hf Hname Hall. unfold bucket_of. destruct (buckets db !! playlistId) as [b|] eqn:Hb.
  - apply (Put_existing _ _ _ b Hf Hname Hb Hall).
  - apply (Put_fresh _ _ _ Hf Hname Hb Hall).
Qed.

Lemma no_fault_same (db : DB) :
  faults db = [] -> {| faults := skipn 1 (faults db); buckets := buckets db |} = db.
Proof. destruct db as [fs m]. cbn [faults buckets]. intros ->. reflexivity. Qed.

(** The second loop when no transaction fails: the cache handle is as it
    was, and the slice gains the stored items below [after], highest key
    first, as far as the limit leaves room. *)
Lemma fallback_phase_quiet (db : DB) (playlistId after : string) (o : options)
    (vs : list Item) (b : Bucket) :
  faults db = [] ->
  buckets db !! playlistId = Some b ->
  sorted b ->
  Forall is_json (below after b) ->
  fallback_phase (Some db) playlistId o vs after
  = Done (Some db,
          {| vids := vs ++ firstn (Z.to_nat (limit o - len vs))
                             (map json_decoded (payloads (rev (below after b))));
             returned := None |}).
Proof.
  intros Hf Hb Hs Hj. unfold fallback_phase.
  destruct (Z.le_gt_cases (limit o - len vs) 0) as [Hle|Hgt].
  - rewrite take_nothing by lia.
    replace (Z.to_nat (limit o - len vs)) with O by lia.
    cbn [firstn]. rewrite app_nil_r. reflexivity.
  - rewrite (take_as_list (fun w : Cache => w) _ _
               (decoded (rev (below after b))) (Some db) (Some db)).
    + replace (Z.to_nat (Z.max 0 (limit o - len vs)))
        with (Z.to_nat (limit o - len vs)) by lia.
      rewrite decoded_json by (apply Forall_rev; exact Hj).
      rewrite firstn_map, fallback_range_stored. reflexivity.
    + intros St yield st. rewrite <- (seek_index_below b after Hs).
      apply Iter_runs; [apply Begin_no_fault, Hf|exact Hb].
    + lia.
Qed.

Lemma last_limit_holding (X : list Item) (n : Z) : is_int n -> last_limit (holding X n) = n.
Proof.
  intros Hn. unfold last_limit. rewrite Get_holding_limit. cbn [Atoi_value].
  rewrite (Atoi_Itoa n Hn). reflexivity.
Qed.

Lemma last_limit_records (X : list Item) : last_limit (rev (records X)) = 0.
Proof.
  unfold last_limit. rewrite Get_records_other; [reflexivity|].
  apply Forall_forall. intros j _. apply cache_key_not_limit.
Qed.

Lemma firstn_le_eq {A : Type} (k n : nat) (xs ys : list A) :
  (k <= n)%nat -> firstn n xs = firstn n ys -> firstn k xs = firstn k ys.
Proof.
  intros Hk H.
  rewrite <- (Nat.min_l k n Hk), <- !firstn_firstn, H. reflexivity.
Qed.

Section Tracking.

Variable lib : Library.

(** The first loop over items none of which is cached: it runs to the
    limit or to the end of the listing. *)
Lemma live_phase_new (c : Cache) (call : ListCall) (playlistId : string) (o : options)
    (pis : list PlaylistItem) (vs : list Item) :
  firstn (Z.to_nat (limit o)) (emitted call) = map listed pis ->
  Forall2 (fun e i => mapToFeedItem lib e o = inr i) pis vs ->
  Forall (fun i => cached c playlistId i = false) vs ->
  live_phase lib c call playlistId o
  = Done (spend (length pis) c, {| vids := vs; returned := None |}).
Proof.
  intros Hfirst Hmaps Hnew. rewrite live_phase_as_list, Hfirst.
  rewrite <- (app_nil_r (map listed pis)).
  rewrite (live_range_new lib playlistId o pis vs Hmaps [] c [] Hnew). reflexivity.
Qed.

(** [videos] from the dirty check on, when no transaction fails and the
    first loop ends without a [return]. *)
Lemma videos_after_check (db db1 : DB) (remote : Remote) (playlistId : string) (o : options)
    (vs : list Item) (newest : Item) :
  playlistId <> "" ->
  client_err remote = None ->
  InvalidateCacheIfDirty (Some db) playlistId (limit o) = Some db1 ->
  faults db1 = [] ->
  well_formed (bucket_of (buckets db1) playlistId) ->
  live_phase lib (Some db1) (responses remote) playlistId o
  = Done (Some db1, {| vids := vs; returned := None |}) ->
  Forall storable vs ->
  last vs = Some newest ->
  let b2 := insert_all (bucket_of (buckets db1) playlistId) vs in
  let after := time.Format_RFC3339 (Created newest) in
  videos lib (Some db) remote playlistId o
  = (Return (vs ++ firstn (Z.to_nat (limit o - len vs))
                     (map json_decoded (payloads (rev (below after b2)))))%list,
     Some {| faults := [];
             buckets := <[playlistId :=
                            Bucket.insert b2 "last-limit"
                              (Text (strconv.Itoa (Z.max (last_limit b2) (limit o))))]>
                          (buckets db1) |}).
Proof.
  intros Hname Hclient Hcheck Hf1 Hwf Hlive Hall Hlast b2 after.
  assert (Hhd1 : hd None (faults db1) = None) by (rewrite Hf1; reflexivity).
  unfold videos. rewrite Hcheck, Hclient, Hlive. cbn [returned vids].
  rewrite (Put_runs db1 playlistId vs Hhd1 Hname Hall), Hf1. cbn [skipn]. fold b2.
  rewrite Hlast. fold after.
  set (db2 := {| faults := []; buckets := <[playlistId := b2]> (buckets db1) |}).
  assert (Hwf2 : well_formed b2) by (apply well_formed_insert_all, Hwf).
  rewrite (fallback_phase_quiet db2 playlistId after o vs b2).
  - cbn [returned vids].
    rewrite (UpdateMaxLimit_runs db2 playlistId (limit o) b2);
      [|reflexivity|apply lookup_insert_eq].
    unfold db2. cbn [faults buckets skipn]. rewrite insert_insert_eq. reflexivity.
  - reflexivity.
  - apply lookup_insert_eq.
  - apply Hwf2.
  - apply below_json; [apply Hwf2|apply limit_key_not_below_time].
Qed.

Lemma below_time_records (t : time.Time) (X : list Item) (n : Z) :
  below (time.Format_RFC3339 t) (rev (records X))
  = below (time.Format_RFC3339 t) (holding X n).
Proof.
  unfold holding, below. rewrite List.filter_app. cbn [List.filter fst].
  rewrite limit_key_not_below_time. symmetry. apply app_nil_r.
Qed.

(** Nothing of the listing is cached: the bucket is missing or holds the
    limit only.  [videos] returns the first [limit] items of the listing and
    leaves them in the bucket, with the limit. *)
Lemma videos_cold (db db1 : DB) (remote : Remote) (playlistId : string) (o : options)
    (pis : list PlaylistItem) (R : list Item) :
  playlistId <> "" ->
  client_err remote = None ->
  InvalidateCacheIfDirty (Some db) playlistId (limit o) = Some db1 ->
  faults db1 = [] ->
  buckets db1 !! playlistId = None
  \/ buckets db1 !! playlistId = Some (holding [] (limit o)) ->
  emitted (responses remote) = map listed pis ->
  Forall2 (fun e i => mapToFeedItem lib e o = inr i) pis R ->
  newest_first R ->
  Forall storable R ->
  R <> [] ->
  0 < limit o ->
  is_int (limit o) ->
  videos lib (Some db) remote playlistId o
  = (Return (firstn (Z.to_nat (limit o)) R),
     Some {| faults := [];
             buckets := <[playlistId := holding (firstn (Z.to_nat (limit o)) R) (limit o)]>
                          (buckets db1) |}).
Proof.
  intros Hname Hclient Hcheck Hf1 Hb1 Hemit Hmaps Hnf Hst Hne Hpos Hint.
  set (vs := firstn (Z.to_nat (limit o)) R).
  assert (Hvs : newest_first vs) by (apply newest_first_firstn, Hnf).
  assert (Hstvs : Forall storable vs) by (apply Forall_take, Hst).
  assert (Hlast : exists init newest, vs = (init ++ [newest])%list).
  { destruct (last vs) as [newest|] eqn:Hl.
    - apply last_Some in Hl. destruct Hl as [init Hl]. exists init, newest. exact Hl.
    - apply last_None in Hl. exfalso. subst vs.
      destruct R as [|r R0]; [contradiction|].
      destruct (Z.to_nat (limit o)) eqn:Hn; [lia|discriminate]. }
  destruct Hlast as (init & newest & Hsplit).
  assert (Hlen : len vs <= limit o).
  { unfold len, vs. rewrite length_firstn. lia. }
  assert (Hnew : Forall (fun i => cached (Some db1) playlistId i = false) vs).
  { apply Forall_forall. intros i _. unfold cached.
    destruct Hb1 as [-> | ->]; [reflexivity|].
    rewrite Get_holding_new by constructor. reflexivity. }
  assert (Hlive : live_phase lib (Some db1) (responses remote) playlistId o
                  = Done (Some db1, {| vids := vs; returned := None |})).
  { rewrite (live_phase_new (Some db1) (responses remote) playlistId o
               (firstn (Z.to_nat (limit o)) pis) vs).
    - rewrite spend_no_fault by exact Hf1. reflexivity.
    - rewrite Hemit. apply firstn_map.
    - apply Forall2_take, Hmaps.
    - exact Hnew. }
  assert (Hwf : well_formed (bucket_of (buckets db1) playlistId)).
  { unfold bucket_of. destruct Hb1 as [-> | ->];
      [apply well_formed_empty|apply well_formed_holding; constructor]. }
  pose proof (videos_after_check db db1 remote playlistId o vs newest
                Hname Hclient Hcheck Hf1 Hwf Hlive Hstvs) as Hrun.
  cbv zeta in Hrun. rewrite Hrun by (rewrite Hsplit; apply last_snoc). clear Hrun.
  assert (Hbelow : below (time.Format_RFC3339 (Created newest)) (holding vs (limit o)) = []).
  { rewrite Hsplit in Hvs |- *. apply (below_holding init newest [] (limit o) Hvs). }
  unfold bucket_of. destruct Hb1 as [-> | ->].
  - rewrite (insert_all_empty vs Hvs).
    rewrite (below_time_records _ vs (limit o)), Hbelow. cbn [rev payloads map].
    rewrite firstn_nil, app_nil_r, last_limit_records.
    replace (Z.max 0 (limit o)) with (limit o) by lia.
    rewrite insert_limit_records. reflexivity.
  - rewrite (insert_all_holding vs [] (limit o)) by (rewrite app_nil_r; exact Hvs).
    rewrite app_nil_r, Hbelow. cbn [rev payloads map].
    rewrite firstn_nil, app_nil_r, last_limit_holding by exact Hint.
    replace (Z.max (limit o) (limit o)) with (limit o) by lia.
    rewrite insert_limit_holding. reflexivity.
Qed.

Lemma newer_not_held (vs X : list Item) (n : Z) :
  newest_first (vs ++ X)%list ->
  Forall (fun i => Bucket.Get (holding X n) (cache_key i) = None) vs.
Proof.
  intros Hnf. destruct (newest_first_app _ _ Hnf) as (Hvs & HX & Hcross).
  pose proof (newest_first_utc _ Hvs) as Huvs. pose proof (newest_first_utc _ HX) as HuX.
  apply Forall_forall. intros a Ha. apply Get_holding_new.
  apply older_keys_differ; [|exact HuX|].
  - apply (proj1 (Forall_forall _ _) Huvs a Ha).
  - apply (proj1 (Forall_forall _ _) Hcross a Ha).
Qed.

(** The listing opens with [limit] items newer than all the bucket holds:
    [videos] returns them and adds them to the bucket. *)
Lemma videos_full (db db1 : DB) (remote : Remote) (playlistId : string) (o : options)
    (pis : list PlaylistItem) (rest : list (option PlaylistItem * option error))
    (vs X : list Item) :
  playlistId <> "" ->
  client_err remote = None ->
  InvalidateCacheIfDirty (Some db) playlistId (limit o) = Some db1 ->
  faults db1 = [] ->
  buckets db1 !! playlistId = Some (holding X (limit o)) ->
  emitted (responses remote) = (map listed pis ++ rest)%list ->
  Forall2 (fun e i => mapToFeedItem lib e o = inr i) pis vs ->
  len vs = limit o ->
  0 < limit o ->
  newest_first (vs ++ X)%list ->
  Forall storable vs ->
  is_int (limit o) ->
  videos lib (Some db) remote playlistId o
  = (Return vs,
     Some {| faults := [];
             buckets := <[playlistId := holding (vs ++ X) (limit o)]> (buckets db1) |}).
Proof.
  intros Hname Hclient Hcheck Hf1 Hb1 Hemit Hmaps Hlen Hpos Hnf Hst Hint.
  pose proof (Forall2_length_eq _ _ _ Hmaps) as Hlens.
  destruct (newest_first_app _ _ Hnf) as (Hvs & HX & _).
  assert (Hlast : exists newest, last vs = Some newest).
  { destruct (last vs) as [newest|] eqn:Hl; [exists newest; reflexivity|].
    apply last_None in Hl. subst vs. unfold len in Hlen. cbn [length] in Hlen. lia. }
  destruct Hlast as (newest & Hlast).
  assert (Hnew : Forall (fun i => cached (Some db1) playlistId i = false) vs).
  { eapply Forall_impl; [apply (newer_not_held vs X (limit o) Hnf)|].
    intros i Hi. unfold cached. rewrite Hb1, Hi. reflexivity. }
  assert (Hlive : live_phase lib (Some db1) (responses remote) playlistId o
                  = Done (Some db1, {| vids := vs; returned := None |})).
  { rewrite (live_phase_new (Some db1) (responses remote) playlistId o pis vs).
    - rewrite spend_no_fault by exact Hf1. reflexivity.
    - rewrite Hemit. apply take_app_length'. rewrite length_map. unfold len in Hlen. lia.
    - exact Hmaps.
    - exact Hnew. }
  assert (Hwf : well_formed (bucket_of (buckets db1) playlistId)).
  { unfold bucket_of. rewrite Hb1. apply well_formed_holding, HX. }
  pose proof (videos_after_check db db1 remote playlistId o vs newest
                Hname Hclient Hcheck Hf1 Hwf Hlive Hst Hlast) as Hrun.
  cbv zeta in Hrun. rewrite Hrun. clear Hrun.
  unfold bucket_of. rewrite Hb1.
  rewrite (insert_all_holding vs X (limit o) Hnf).
  replace (Z.to_nat (limit o - len vs)) with O by lia.
  rewrite firstn_O, app_nil_r, last_limit_holding by exact Hint.
  replace (Z.max (limit o) (limit o)) with (limit o) by lia.
  rewrite insert_limit_holding. reflexivity.
Qed.

(** The listing opens with fewer than [limit] new items and then the newest
    item the bucket holds: [videos] returns the new items and continues with
    what the bucket holds, and adds the new items to the bucket. *)
Lemma videos_tracked_pivot (db db1 : DB) (remote : Remote) (playlistId : string)
    (o : options) (pis : list PlaylistItem) (e0 : PlaylistItem)
    (rest : list (option PlaylistItem * option error))
    (news : list Item) (r0 : Item) (X : list Item) :
  playlistId <> "" ->
  client_err remote = None ->
  InvalidateCacheIfDirty (Some db) playlistId (limit o) = Some db1 ->
  faults db1 = [] ->
  buckets db1 !! playlistId = Some (holding (r0 :: X) (limit o)) ->
  emitted (responses remote) = (map listed (pis ++ [e0]) ++ rest)%list ->
  Forall2 (fun e i => mapToFeedItem lib e o = inr i) pis news ->
  mapToFeedItem lib e0 o = inr r0 ->
  len news < limit o ->
  newest_first (news ++ r0 :: X)%list ->
  Forall storable (news ++ [r0]) ->
  Forall round_trips X ->
  is_int (limit o) ->
  videos lib (Some db) remote playlistId o
  = (Return (news ++ firstn (Z.to_nat (limit o - len news)) (r0 :: X))%list,
     Some {| faults := [];
             buckets := <[playlistId := holding (news ++ r0 :: X) (limit o)]>
                          (buckets db1) |}).
Proof.
  intros Hname Hclient Hcheck Hf1 Hb1 Hemit Hmaps Hmap Hroom Hnf Hst Hrt Hint.
  destruct (newest_first_app _ _ Hnf) as (Hnews & Hr0X & _).
  assert (Hhd1 : hd None (faults db1) = None) by (rewrite Hf1; reflexivity).
  assert (Hnew : Forall (fun i => cached (Some db1) playlistId i = false) news).
  { eapply Forall_impl; [apply (newer_not_held news (r0 :: X) (limit o) Hnf)|].
    intros i Hi. unfold cached. rewrite Hb1, Hi. reflexivity. }
  assert (Hlive : live_phase lib (Some db1) (responses remote) playlistId o
                  = Done (Some db1, {| vids := news ++ [r0]; returned := None |})).
  { rewrite (live_phase_pivot lib (Some db1) (responses remote) playlistId o
               pis e0 news r0 rest Hemit Hmaps Hmap Hroom Hnew).
    - rewrite spend_no_fault by exact Hf1. reflexivity.
    - rewrite spend_no_fault by exact Hf1. rewrite HasItem_present by exact Hhd1.
      unfold cached. rewrite Hb1, (Get_holding_head r0 X (limit o) Hr0X). reflexivity. }
  assert (Hwf : well_formed (bucket_of (buckets db1) playlistId)).
  { unfold bucket_of. rewrite Hb1. apply well_formed_holding, Hr0X. }
  pose proof (videos_after_check db db1 remote playlistId o (news ++ [r0]) r0
                Hname Hclient Hcheck Hf1 Hwf Hlive Hst (last_snoc _ _)) as Hrun.
  cbv zeta in Hrun. rewrite Hrun. clear Hrun.
  unfold bucket_of. rewrite Hb1.
  rewrite insert_all_app, (insert_all_holding news (r0 :: X) (limit o) Hnf).
  cbn [insert_all fold_left].
  rewrite (insert_head_holding news r0 X (limit o) Hr0X).
  rewrite (below_holding news r0 X (limit o) Hnf), rev_involutive, payloads_records.
  rewrite (map_round_trips X Hrt).
  rewrite last_limit_holding by exact Hint.
  replace (Z.max (limit o) (limit o)) with (limit o) by lia.
  rewrite insert_limit_holding.
  replace (len (news ++ [r0])) with (len news + 1)
    by (unfold len; rewrite length_app; cbn [length]; lia).
  replace (Z.to_nat (limit o - len news))
    with (S (Z.to_nat (limit o - (len news + 1)))) by lia.
  cbn [firstn]. rewrite <- app_assoc. reflexivity.
Qed.

End Tracking.

Lemma tracks_after (db' : DB) (playlistId : string) (m : gmap string Bucket)
    (Y R : list Item) (n : Z) :
  db' = {| faults := []; buckets := <[playlistId := holding Y n]> m |} ->
  is_int n ->
  Y `sublist_of` R ->
  firstn (Z.to_nat n) Y = firstn (Z.to_nat n) R ->
  faults db' = [] /\ tracks db' playlistId R.
Proof.
  intros -> Hn Hsub Hfirst. split; [reflexivity|]. right. exists Y, n.
  cbn [buckets]. rewrite lookup_insert_eq. auto.
Qed.

(** X11 (src/unnamed/part_002, [videos], [allPlaylistItems], [take],
    [mapToFeedItem]; src/cache.go, all methods): the cache does its work.
    The items are the entries of the remote listing as the options of the
    request map them.  Let them be newest first and a second or more apart,
    let each of them be storable (its key has at most 32768 bytes, its
    strings are short enough for a value of the bucket) and come back from
    JSON as it went in (its strings are valid UTF-8), and let the
    cache follow an earlier state [R'] of the listing: it has no bucket yet,
    or its bucket holds some items of [R'], mapped under these same options,
    and a limit [n], and the first [n] items held are the first [n] of [R'].
    When new items [news] have been published since and no transaction
    fails, a request with a positive limit returns the first [limit] items
    of the listing as it is now, and the cache then follows the listing as
    it is now. *)
Theorem videos_follows_the_listing
    (lib : Library) (db : DB) (remote : Remote) (playlistId : string) (o : options)
    (pis : list PlaylistItem) (news R' : list Item) :
  faults db = [] ->
  playlistId <> "" ->
  client_err remote = None ->
  emitted (responses remote) = map listed pis ->
  Forall2 (fun e i => mapToFeedItem lib e o = inr i) pis (news ++ R') ->
  newest_first (news ++ R') ->
  Forall storable (news ++ R') ->
  Forall round_trips (news ++ R') ->
  (news ++ R')%list <> [] ->
  0 < limit o ->
  is_int (limit o) ->
  tracks db playlistId R' ->
  exists db',
    videos lib (Some db) remote playlistId o
    = (Return (firstn (Z.to_nat (limit o)) (news ++ R')), Some db')
    /\ faults db' = []
    /\ tracks db' playlistId (news ++ R').
Proof.
  intros Hf Hname Hclient Hemit Hmaps Hnf Hst Hrt Hne Hpos Hint Htr.
  assert (Hhd : hd None (faults db) = None) by (rewrite Hf; reflexivity).
  apply Forall_app in Hst. destruct Hst as [Hst1 Hst2].
  apply Forall_app in Hrt. destruct Hrt as [_ Hrt2].
  assert (Hst : Forall storable (news ++ R')) by (apply Forall_app; split; assumption).
  assert (Hcold : forall db1,
            InvalidateCacheIfDirty (Some db) playlistId (limit o) = Some db1 ->
            faults db1 = [] ->
            buckets db1 !! playlistId = None
            \/ buckets db1 !! playlistId = Some (holding [] (limit o)) ->
            exists db',
              videos lib (Some db) remote playlistId o
              = (Return (firstn (Z.to_nat (limit o)) (news ++ R')), Some db')
              /\ faults db' = []
              /\ tracks db' playlistId (news ++ R')).
  { intros db1 Hcheck Hf1 Hb1. eexists. split.
    - apply (videos_cold lib db db1 remote playlistId o pis (news ++ R')); assumption.
    - eapply tracks_after; [reflexivity|exact Hint|apply sublist_take|].
      rewrite firstn_firstn, Nat.min_id. reflexivity. }
  destruct Htr as [Hnone|(X & n & Hb & Hn & Hsub & Hfirst)].
  { apply (Hcold db).
    - rewrite (Invalidate_no_bucket db playlistId (limit o) Hnone), no_fault_same by exact Hf.
      reflexivity.
    - exact Hf.
    - left. exact Hnone. }
  assert (Hparse : Atoi_value (Bucket.Get (holding X n) "last-limit") = (n, None)).
  { rewrite Get_holding_limit. cbn [Atoi_value]. apply Atoi_Itoa, Hn. }
  destruct (Z.lt_ge_cases n (limit o)) as [Hstale|Htrust].
  { apply (Hcold {| faults := [];
                    buckets := <[playlistId := holding [] (limit o)]> (buckets db) |}).
    - rewrite (Invalidate_stale db playlistId (limit o) (holding X n) Hhd Hname Hb).
      + rewrite Hf. reflexivity.
      + rewrite Hparse. cbn [fst snd is_err].
        rewrite orb_false_r. apply Z.ltb_lt, Hstale.
    - reflexivity.
    - right. apply lookup_insert_eq. }
  set (db1 := {| faults := [];
                 buckets := <[playlistId := holding X (limit o)]> (buckets db) |}).
  assert (Hcheck : InvalidateCacheIfDirty (Some db) playlistId (limit o) = Some db1).
  { rewrite (Invalidate_trusted db playlistId (limit o) n (holding X n)
               Hhd Hname Hb Hparse Htrust).
    rewrite Hf, insert_limit_holding. reflexivity. }
  assert (Hb1 : buckets db1 !! playlistId = Some (holding X (limit o)))
    by apply lookup_insert_eq.
  assert (Hnf' : newest_first (news ++ X)).
  { apply (newest_first_sublist _ (news ++ R')); [|exact Hnf].
    apply sublist_app; [reflexivity|exact Hsub]. }
  apply Forall2_app_inv_r in Hmaps. destruct Hmaps as (pis1 & pis2 & Hmaps1 & Hmaps2 & ->).
  pose proof (Forall2_length_eq _ _ _ Hmaps1) as Hlen1.
  destruct (Z.le_gt_cases (limit o) (len news)) as [Hfull|Hgt].
  2: assert (Hroom : len news < limit o) by lia.
  - (* the new items alone fill the request *)
    assert (Hvs : length (firstn (Z.to_nat (limit o)) news) = Z.to_nat (limit o)).
    { rewrite length_firstn. unfold len in Hfull. lia. }
    eexists. split.
    + rewrite take_app_le by (unfold len in Hfull; lia).
      apply (videos_full lib db db1 remote playlistId o
               (firstn (Z.to_nat (limit o)) pis1)
               (map listed (skipn (Z.to_nat (limit o)) pis1 ++ pis2))
               (firstn (Z.to_nat (limit o)) news) X); try assumption.
      * reflexivity.
      * rewrite Hemit, <- map_app, app_assoc, firstn_skipn. reflexivity.
      * apply Forall2_take, Hmaps1.
      * unfold len. rewrite Hvs. lia.
      * apply (newest_first_sublist _ (news ++ X)); [|exact Hnf'].
        apply sublist_app; [apply sublist_take|reflexivity].
      * apply Forall_take, Hst1.
    + eapply tracks_after; [reflexivity|exact Hint| |].
      * apply sublist_app; [apply sublist_take|exact Hsub].
      * rewrite (take_app_length' _ X) by (symmetry; exact Hvs).
        rewrite take_app_le by (unfold len in Hfull; lia). reflexivity.
  - destruct R' as [|r0 R''].
    + (* nothing was listed before: the bucket holds the limit only *)
      apply sublist_nil_r in Hsub. subst X.
      apply (Hcold db1); [exact Hcheck|reflexivity|right; exact Hb1].
    + (* the first item listed before is the pivot *)
      assert (HX : exists X', X = r0 :: X').
      { destruct (Z.to_nat n) as [|k] eqn:Hk; [lia|].
        destruct X as [|x X']; [discriminate|]. cbn [firstn] in Hfirst.
        injection Hfirst as -> _. exists X'. reflexivity. }
      destruct HX as (X' & ->).
      inversion Hmaps2 as [|e0 ? pis3 ? Hmap0 Hmaps3]; subst.
      assert (Htake : firstn (Z.to_nat (limit o - len news)) (r0 :: X')
                      = firstn (Z.to_nat (limit o - len news)) (r0 :: R'')).
      { apply (firstn_le_eq _ (Z.to_nat n)); [unfold len; lia|exact Hfirst]. }
      assert (Hsplit : (Z.to_nat (limit o) - length news)%nat
                       = Z.to_nat (limit o - len news))
        by (unfold len; lia).
      eexists. split.
      * rewrite take_app_ge by (unfold len in Hroom; lia). rewrite Hsplit, <- Htake.
        apply (videos_tracked_pivot lib db db1 remote playlistId o pis1 e0
                 (map listed pis3) news r0 X'); try assumption; [reflexivity| | |].
        -- rewrite Hemit, <- map_app, <- app_assoc. reflexivity.
        -- apply Forall_app. split; [exact Hst1|].
           inversion Hst2; subst. constructor; [assumption|constructor].
        -- apply (Forall_sublist_of _ (r0 :: X') (r0 :: R'')) in Hrt2; [|exact Hsub].
           inversion Hrt2; subst. assumption.
      * eapply tracks_after; [reflexivity|exact Hint| |].
        -- apply sublist_app; [reflexivity|exact Hsub].
        -- rewrite !take_app_ge by (unfold len in Hroom; lia).
           rewrite Hsplit, Htake. reflexivity.
Qed.

Lemma newest_first_three_days : newest_first [Scenario.v3; Scenario.v2; Scenario.v1].
Proof.
  repeat (constructor; [apply utc_at_noon; lia| |]);
    repeat (constructor; [vm_compute; reflexivity|]); constructor.
Qed.

Lemma storable_three_days : Forall storable [Scenario.v3; Scenario.v2; Scenario.v1].
Proof. repeat constructor; vm_compute; discriminate. Qed.

Lemma round_trips_three_days : Forall round_trips [Scenario.v3; Scenario.v2; Scenario.v1].
Proof. repeat constructor. Qed.

Lemma videos_follows_the_listing_witness :
  exists db',
    videos Scenario.lib (Some (Scenario.store Scenario.two_days))
      (Scenario.listing [[Scenario.e3; Scenario.e2; Scenario.e1]])
      Scenario.playlist (Scenario.with_limit 3)
    = (Return [Scenario.v3; Scenario.v2; Scenario.v1], Some db')
    /\ tracks db' Scenario.playlist [Scenario.v3; Scenario.v2; Scenario.v1].
Proof.
  destruct (videos_follows_the_listing Scenario.lib (Scenario.store Scenario.two_days)
              (Scenario.listing [[Scenario.e3; Scenario.e2; Scenario.e1]])
              Scenario.playlist (Scenario.with_limit 3)
              [Scenario.e3; Scenario.e2; Scenario.e1]
              [Scenario.v3] [Scenario.v2; Scenario.v1])
    as (db' & Hrun & _ & Htracks).
  - reflexivity.
  - discriminate.
  - reflexivity.
  - reflexivity.
  - repeat (constructor; [reflexivity|]). constructor.
  - exact newest_first_three_days.
  - exact storable_three_days.
  - exact round_trips_three_days.
  - discriminate.
  - reflexivity.
  - split; discriminate.
  - right. exists [Scenario.v2; Scenario.v1], 5.
    split; [reflexivity|]. split; [split; discriminate|]. split; reflexivity.
  - exists db'. split; [exact Hrun|exact Htracks].
Defined.

(** ** Pages beyond the limit *)

Lemma emitted_app_pages (pages : list (list PlaylistItem)) (later : ListCall) :
  emitted (map inr pages ++ later)%list
  = (map listed (concat pages) ++ emitted later)%list.
Proof.
  induction pages as [|pl pages IH]; [reflexivity|].
  cbn [map app emitted concat]. rewrite IH, map_app, <- app_assoc. reflexivity.
Qed.

(** X12 (src/unnamed/part_002, [allPlaylistItems], [take], [videos]): once
    the pages received hold [limit] items, what the listing would answer to
    further page requests has no effect, neither on what the iterator hands
    to the loop nor on what [videos] returns and leaves in the cache; a
    failing later page is not seen. *)
Theorem pages_beyond_the_limit_are_not_seen
    (lib : Library) (c : Cache) (remote remote' : Remote) (playlistId : string)
    (o : options) (pages : list (list PlaylistItem)) (later later' : ListCall) :
  client_err remote = client_err remote' ->
  responses remote = (map inr pages ++ later)%list ->
  responses remote' = (map inr pages ++ later')%list ->
  limit o <= len (concat pages) ->
  (forall (W St : Type) (yield : Yield W (option PlaylistItem) (option error) St) s,
      take (limit o) (allPlaylistItems (responses remote)) St yield s
      = take (limit o) (allPlaylistItems (responses remote')) St yield s)
  /\ videos lib c remote playlistId o = videos lib c remote' playlistId o.
Proof.
  intros Hclient Hr Hr' Hlen.
  assert (Hfirst : firstn (Z.to_nat (limit o)) (emitted (responses remote))
                   = firstn (Z.to_nat (limit o)) (emitted (responses remote'))).
  { rewrite Hr, Hr', !emitted_app_pages.
    rewrite !take_app_le by (rewrite length_map; unfold len in Hlen; lia). reflexivity. }
  split.
  - intros W St yield s. destruct s as [w st].
    destruct (Z.le_gt_cases (limit o) 0) as [Hle|Hgt].
    + rewrite !take_nothing by exact Hle. reflexivity.
    + rewrite (take_as_list (fun w => w) (limit o) _ (emitted (responses remote)) w w);
        [|intros; apply allPlaylistItems_as_list|lia].
      rewrite (take_as_list (fun w => w) (limit o) _ (emitted (responses remote')) w w);
        [|intros; apply allPlaylistItems_as_list|lia].
      rewrite Hfirst. reflexivity.
  - unfold videos. rewrite <- Hclient, !live_phase_as_list, Hfirst. reflexivity.
Qed.

Lemma pages_beyond_the_limit_are_not_seen_witness :
  videos Scenario.lib None
    {| client_err := None;
       responses := [inr [Scenario.e3; Scenario.e2]; inl "quota exceeded"] |}
    Scenario.playlist (Scenario.with_limit 2)
  = videos Scenario.lib None (Scenario.listing [[Scenario.e3; Scenario.e2]])
      Scenario.playlist (Scenario.with_limit 2).
Proof.
  refine (proj2 (pages_beyond_the_limit_are_not_seen Scenario.lib None
                   {| client_err := None;
                      responses := [inr [Scenario.e3; Scenario.e2]; inl "quota exceeded"] |}
                   (Scenario.listing [[Scenario.e3; Scenario.e2]])
                   Scenario.playlist (Scenario.with_limit 2)
                   [[Scenario.e3; Scenario.e2]] [inl "quota exceeded"] [] _ _ _ _)).
  - reflexivity.
  - reflexivity.
  - reflexivity.
  - vm_compute. discriminate.
Defined.

(** ** Items and their enclosures *)

Lemma HasItem_by_key (c : Cache) (playlistId : string) (i i' : Item) :
  cache_key i' = cache_key i -> HasItem c playlistId i' = HasItem c playlistId i.
Proof. intros Hk. unfold HasItem. rewrite Hk. reflexivity. Qed.

(** X13 (src/unnamed/part_002, [mapToFeedItem]; src/cache.go, [HasItem]): an
    item made from a playlist entry takes its id and its time from the
    entry alone.  So two items made from one entry, under any two sets of
    options, have the same cache key, and [HasItem] answers the same for
    both: what one request cached, a request with another format or MIME
    type recognises.  The limit has no part in the mapping. *)
Theorem mapped_item_is_keyed_by_the_entry
    (lib lib' : Library) (e : PlaylistItem) (o o' : options) (i i' : Item) :
  mapToFeedItem lib e o = inr i ->
  mapToFeedItem lib' e o' = inr i' ->
  Id i = VideoId e
  /\ PublishedAt e = inr (Created i)
  /\ cache_key i' = cache_key i
  /\ (forall c playlistId, HasItem c playlistId i' = HasItem c playlistId i)
  /\ (forall l, mapToFeedItem lib e (WithLimit l o) = mapToFeedItem lib e o).
Proof.
  assert (Hlim : forall l, mapToFeedItem lib e (WithLimit l o) = mapToFeedItem lib e o)
    by (intros l; reflexivity).
  revert Hlim. unfold mapToFeedItem at 3 4. intros Hlim Hi Hi'.
  destruct (PublishedAt e) as [err|published] eqn:Hpub; [discriminate|].
  destruct (formatEnclosure lib e o) as [err|enc]; [discriminate|].
  destruct (formatEnclosure lib' e o') as [err|enc']; [discriminate|].
  inversion Hi; subst i. inversion Hi'; subst i'. cbn [Id Created].
  split; [reflexivity|]. split; [reflexivity|].
  assert (Hkey : forall x y : Item, Id x = Id y -> Created x = Created y ->
                                    cache_key x = cache_key y).
  { intros x y Hid Hc. unfold cache_key. rewrite Hid, Hc. reflexivity. }
  split; [apply Hkey; reflexivity|].
  split; [intros c playlistId; apply HasItem_by_key, Hkey; reflexivity|].
  exact Hlim.
Qed.

Lemma mapped_item_is_keyed_by_the_entry_witness :
  let served :=
    {| Title := "v3"; Link := "https://youtube.com/watch?v=v3"; Id := "v3";
       Created := Scenario.at_noon 3 0 0; Description := "";
       Enclosure_ := Some {| Url := "http://localhost:9494/watch"; Length := "-1";
                             Type_ := "video/mp4" |} |} in
  mapToFeedItem Scenario.lib Scenario.e3
    (WithEnclosureBase "http://localhost:9494" (Scenario.with_limit 2))
  = inr served
  /\ cache_key served = cache_key Scenario.v3
  /\ HasItem (Some (Scenario.store Scenario.two_days)) Scenario.playlist served
     = HasItem (Some (Scenario.store Scenario.two_days)) Scenario.playlist Scenario.v3.
Proof.
  intros served.
  assert (Hserved : mapToFeedItem Scenario.lib Scenario.e3
                      (WithEnclosureBase "http://localhost:9494" (Scenario.with_limit 2))
                    = inr served) by reflexivity.
  destruct (mapped_item_is_keyed_by_the_entry Scenario.lib Scenario.lib Scenario.e3
              (Scenario.with_limit 3)
              (WithEnclosureBase "http://localhost:9494" (Scenario.with_limit 2))
              Scenario.v3 served)
    as (_ & _ & Hkey & Hhas & _).
  - reflexivity.
  - exact Hserved.
  - split; [exact Hserved|]. split; [exact Hkey|apply Hhas].
Defined.

Lemma formatEnclosure_shape (lib : Library) (e : PlaylistItem) (o : options)
    (enclosure : option Enclosure) :
  formatEnclosure lib e o = inr enclosure ->
  (enclosure = None <-> enclosureBase o = "")
  /\ forall enc, enclosure = Some enc -> Type_ enc = mimetype o /\ Length enc = "-1".
Proof.
  unfold formatEnclosure. destruct (enclosureBase o) as [|a base].
  - intros H. inversion H; subst. split; [split; reflexivity|]. intros enc; discriminate.
  - destruct (mime_ExtensionsByType lib (mimetype o)) as [err|extension]; [discriminate|].
    destruct extension as [|ext extension].
    + destruct (url_Parse lib (String a base +:+ "/watch")) as [err|u]; [discriminate|].
      intros H. inversion H; subst.
      split; [split; discriminate|]. intros enc Henc. inversion Henc; subst. split; reflexivity.
    + destruct (url_Parse lib _) as [err|u]; [discriminate|].
      intros H. inversion H; subst.
      split; [split; discriminate|]. intros enc Henc. inversion Henc; subst. split; reflexivity.
Qed.

Lemma single_options_fields (l : Z) (f m : string) :
  single_options l f m
  = {| limit := l; format := f; mimetype := m; enclosureBase := "" |}.
Proof. reflexivity. Qed.

Lemma channel_options_fields (s : Server) (q : Values) :
  channel_options s q
  = {| limit := channel_limit s q; format := channel_format s q;
       mimetype := channel_mimeType s q; enclosureBase := BaseUrl s |}.
Proof. reflexivity. Qed.

(** X14 (src/unnamed/part_002, [formatEnclosure], [mapToFeedItem];
    src/main.go, [main]; src/handler.go, [channel]): an item carries an
    enclosure exactly when an enclosure base is set, and the enclosure then
    has the MIME type of the options and the length -1.  So the items of
    single mode, where [main] passes no base, carry none, and their mapping
    needs no more than the date; the items a server with a base URL makes
    all carry one, typed by the request's [mimeType] or else the server's. *)
Theorem enclosure_follows_the_base
    (lib : Library) (e : PlaylistItem) (o : options) (i : Item) :
  mapToFeedItem lib e o = inr i ->
  ((Enclosure_ i = None <-> enclosureBase o = "")
   /\ forall enc, Enclosure_ i = Some enc -> Type_ enc = mimetype o /\ Length enc = "-1")
  /\ (forall l f m,
        exists i',
          mapToFeedItem lib e (single_options l f m) = inr i' /\ Enclosure_ i' = None)
  /\ (forall (s : Server) (q : Values) i',
        BaseUrl s <> "" ->
        mapToFeedItem lib e (channel_options s q) = inr i' ->
        exists enc, Enclosure_ i' = Some enc /\ Type_ enc = channel_mimeType s q).
Proof.
  unfold mapToFeedItem. intros Hi.
  destruct (PublishedAt e) as [err|published]; [discriminate|].
  split; [|split].
  - destruct (formatEnclosure lib e o) as [err|enclosure] eqn:Henc; [discriminate|].
    inversion Hi; subst i. cbn [Enclosure_]. apply (formatEnclosure_shape lib e o), Henc.
  - intros l f m. rewrite single_options_fields. unfold formatEnclosure.
    cbn [enclosureBase]. eexists. split; reflexivity.
  - intros s q i' Hbase.
    destruct (formatEnclosure lib e (channel_options s q)) as [err|enclosure] eqn:Henc;
      [discriminate|].
    intros H. inversion H; subst i'. cbn [Enclosure_].
    destruct (formatEnclosure_shape lib e _ _ Henc) as [Hnone Hsome].
    rewrite channel_options_fields in Hnone, Hsome. cbn [enclosureBase mimetype] in *.
    destruct enclosure as [enc|].
    + exists enc. split; [reflexivity|]. apply (Hsome enc eq_refl).
    + exfalso. apply Hbase, Hnone. reflexivity.
Qed.

Lemma enclosure_follows_the_base_witness :
  (Enclosure_ Scenario.v3 = None <-> enclosureBase (Scenario.with_limit 3) = "")
  /\ exists i',
      mapToFeedItem Scenario.lib Scenario.e3 (single_options 3 "best" "video/webm") = inr i'
      /\ Enclosure_ i' = None.
Proof.
  destruct (enclosure_follows_the_base Scenario.lib Scenario.e3 (Scenario.with_limit 3)
              Scenario.v3) as ((Hnone & _) & Hsingle & _).
  - reflexivity.
  - split; [exact Hnone|apply Hsingle].
Defined.

(** ** Requests the cache cannot serve *)

(** X15 (src/unnamed/part_002, [videos], [take]; src/cache.go, [Iter],
    [HasItem], [Put]): without a cache (a nil [*Cache]) [videos] serves a
    request exactly when the listing has [limit] items or more: it then
    returns the first [limit] of them; when the listing is shorter, the
    second loop calls [Iter] on the nil handle and panics. *)
Theorem nil_cache_serves_full_requests_only
    (lib : Library) (remote : Remote) (playlistId : string) (o : options)
    (pis : list PlaylistItem) (its : list Item) :
  client_err remote = None ->
  emitted (responses remote) = map listed pis ->
  Forall2 (fun e i => mapToFeedItem lib e o = inr i) pis its ->
  0 < limit o ->
  its <> [] ->
  (limit o <= len its ->
   fst (videos lib None remote playlistId o) = Return (firstn (Z.to_nat (limit o)) its))
  /\ (len its < limit o ->
      fst (videos lib None remote playlistId o) = Crash NilDereference).
Proof.
  intros Hclient Hemit Hmaps Hpos Hne. split; intros Hlen.
  - apply (videos_nil_cache_enough lib remote playlistId o pis its []); auto.
    rewrite app_nil_r. exact Hemit.
  - apply (videos_nil_cache_short lib remote playlistId o pis its); auto.
    split; [|exact Hlen]. destruct its; [contradiction|]. unfold len. cbn [length]. lia.
Qed.

Lemma nil_cache_serves_full_requests_only_witness :
  fst (videos Scenario.lib None (Scenario.listing [[Scenario.e3; Scenario.e2]])
         Scenario.playlist (Scenario.with_limit 2))
  = Return [Scenario.v3; Scenario.v2]
  /\ fst (videos Scenario.lib None (Scenario.listing [[Scenario.e3; Scenario.e2]])
            Scenario.playlist (Scenario.with_limit 3))
     = Crash NilDereference.
Proof.
  split.
  - refine (proj1 (nil_cache_serves_full_requests_only Scenario.lib
                     (Scenario.listing [[Scenario.e3; Scenario.e2]]) Scenario.playlist
                     (Scenario.with_limit 2) [Scenario.e3; Scenario.e2]
                     [Scenario.v3; Scenario.v2] _ _ _ _ _) _).
    + reflexivity.
    + reflexivity.
    + repeat (constructor; [reflexivity|]). constructor.
    + reflexivity.
    + discriminate.
    + vm_compute. discriminate.
  - refine (proj2 (nil_cache_serves_full_requests_only Scenario.lib
                     (Scenario.listing [[Scenario.e3; Scenario.e2]]) Scenario.playlist
                     (Scenario.with_limit 3) [Scenario.e3; Scenario.e2]
                     [Scenario.v3; Scenario.v2] _ _ _ _ _) _).
    + reflexivity.
    + reflexivity.
    + repeat (constructor; [reflexivity|]). constructor.
    + reflexivity.
    + discriminate.
    + reflexivity.
Defined.

(** X16 (src/unnamed/part_002, [videos]; src/cache.go,
    [InvalidateCacheIfDirty], [Put]): a request with a limit of zero or less
    panics on
    [videos[len(videos)-1]], but only after its dirty check has stored that
    limit.  The dirty check of the next request with a larger limit then
    finds the stored limit too small and empties the bucket: no item is
    cached any more. *)
Theorem nonpositive_limit_spoils_the_cache
    (lib : Library) (db : DB) (remote : Remote) (playlistId : string) (o : options)
    (b : Bucket) :
  faults db = [] ->
  playlistId <> "" ->
  buckets db !! playlistId = Some b ->
  client_err remote = None ->
  limit o <= 0 ->
  is_int (limit o) ->
  exists db',
    videos lib (Some db) remote playlistId o = (Crash IndexOutOfRange, Some db')
    /\ Atoi_value (stored_limit (Some db') playlistId) = (limit o, None)
    /\ forall (lim : Z) (i : Item),
         limit o < lim ->
         fst (HasItem (InvalidateCacheIfDirty (Some db') playlistId lim) playlistId i) = false.
Proof.
  intros Hf Hname Hb Hclient Hle Hint.
  assert (Hhd : hd None (faults db) = None) by (rewrite Hf; reflexivity).
  destruct (Invalidate_runs db playlistId (limit o) b Hhd Hname Hb) as (b' & Hrun & Hget & _).
  rewrite Hf in Hrun. cbn [skipn] in Hrun.
  set (db1 := {| faults := []; buckets := <[playlistId := b']> (buckets db) |}) in *.
  assert (Hb1 : buckets db1 !! playlistId = Some b') by apply lookup_insert_eq.
  assert (Hread : Atoi_value (Bucket.Get b' "last-limit") = (limit o, None)).
  { rewrite Hget. cbn [Atoi_value]. apply Atoi_Itoa, Hint. }
  exists {| faults := []; buckets := <[playlistId := b']> (buckets db1) |}.
  split; [|split].
  - unfold videos. rewrite Hrun, Hclient, live_phase_as_list.
    replace (Z.to_nat (limit o)) with O by lia. rewrite firstn_O.
    cbn [range returned vids last].
    rewrite (Put_existing db1 playlistId [] b');
      [reflexivity|reflexivity|exact Hname|exact Hb1|constructor].
  - cbn [stored_limit buckets]. rewrite lookup_insert_eq. exact Hread.
  - intros lim i Hlt.
    rewrite (Invalidate_stale _ playlistId lim b'); [|reflexivity|exact Hname| |].
    + apply HasItem_absent. cbn [cached buckets]. rewrite lookup_insert_eq.
      cbn [Bucket.Get].
      destruct (String.eqb_spec "last-limit" (cache_key i)) as [Heq|_]; [|reflexivity].
      exfalso. apply (cache_key_not_limit i). congruence.
    + apply lookup_insert_eq.
    + rewrite Hread. cbn [fst]. apply orb_true_iff. left. apply Z.ltb_lt, Hlt.
Qed.

Lemma nonpositive_limit_spoils_the_cache_witness :
  exists db',
    videos Scenario.lib (Some (Scenario.store Scenario.two_days))
      (Scenario.listing [[Scenario.e3]]) Scenario.playlist (Scenario.with_limit (-3))
    = (Crash IndexOutOfRange, Some db')
    /\ fst (HasItem (InvalidateCacheIfDirty (Some db') Scenario.playlist 2)
              Scenario.playlist Scenario.v2)
       = false.
Proof.
  destruct (nonpositive_limit_spoils_the_cache Scenario.lib
              (Scenario.store Scenario.two_days) (Scenario.listing [[Scenario.e3]])
              Scenario.playlist (Scenario.with_limit (-3)) Scenario.two_days)
    as (db' & Hrun & _ & Hgone).
  - reflexivity.
  - discriminate.
  - reflexivity.
  - reflexivity.
  - discriminate.
  - split; discriminate.
  - exists db'. split; [exact Hrun|]. apply Hgone. reflexivity.
Defined.

(** ** [Channel] *)

Lemma uploads_playlist_prefix (channelId : string) :
  String.prefix "UULF" (uploads_playlist channelId) = true.
Proof.
  unfold uploads_playlist. rewrite !append_cons, append_nil.
  destruct (slice_from 2 channelId); reflexivity.
Qed.

Lemma uploads_playlist_named (channelId : string) : uploads_playlist channelId <> "".
Proof. unfold uploads_playlist. rewrite append_cons. discriminate. Qed.

(** X17 (src/unnamed/part_002, [Channel], [videos]): a feed that [Channel]
    returns is made from the one channel the lookup found; its items are
    what [videos] returned for the playlist named UULF followed by the
    channel id without its first two bytes, a name that is never empty;
    and there are at least one and at most [limit] of them, the limit being
    that of the options applied in order to the defaults. *)
Theorem served_feed_is_the_uploads_playlist
    (lib : Library) (c : Cache) (remote : Remote) (do : ChannelsDo) (id : string)
    (os : list Option) (feed : Feed) (c' : Cache) :
  Channel lib c remote do id os = (Returns feed, c') ->
  exists channel,
    do (channel_query id) = inr [channel]
    /\ (2 <= String.length (ch_Id channel))%nat
    /\ fd_Id feed = ch_Id channel
    /\ uploads_playlist (ch_Id channel) <> ""
    /\ videos lib c remote (uploads_playlist (ch_Id channel)) (apply_options os)
       = (Return (Items feed), c')
    /\ 0 < len (Items feed) <= limit (apply_options os).
Proof.
  unfold Channel. destruct (client_err remote) as [msg|] eqn:Hclient; [discriminate|].
  destruct (do (channel_query id)) as [msg|[|channel [|other items]]]; try discriminate.
  destruct (Nat.ltb_spec (String.length (ch_Id channel)) 2) as [Hshort|Hlong]; [discriminate|].
  destruct (videos lib c remote (uploads_playlist (ch_Id channel)) (apply_options os))
    as [[vs|e|p] c2] eqn:Hvideos; try discriminate.
  destruct (Snippet channel) as [snippet|]; [|discriminate].
  destruct (Thumbnails snippet) as [details|]; [|discriminate].
  destruct (Default details) as [thumbnail|]; [|discriminate].
  intros H. inversion H; subst feed c'. cbn [fd_Id Items].
  exists channel. split; [reflexivity|]. split; [exact Hlong|]. split; [reflexivity|].
  split; [apply uploads_playlist_named|]. split; [exact Hvideos|].
  assert (Hret : fst (videos lib c remote (uploads_playlist (ch_Id channel))
                        (apply_options os)) = Return vs) by (rewrite Hvideos; reflexivity).
  destruct (videos_returned lib _ _ c remote vs Hret) as (live & older & -> & Hlive & Hall).
  split; [|exact Hall]. unfold len in *. rewrite length_app. lia.
Qed.

(** X18 (src/unnamed/part_002, [Channel], [videos]; src/cache.go, the
    methods [videos] calls): whatever [Channel] answers, it leaves the cache
    well formed and changes no bucket but that of a playlist named UULF...;
    and when the client cannot be made, the lookup fails, finds no channel
    or more than one, or finds a channel id of fewer than two bytes, the
    cache handle is as it was: no transaction was begun. *)
Theorem Channel_touches_the_uploads_bucket_only
    (lib : Library) (c : Cache) (remote : Remote) (do : ChannelsDo) (id : string)
    (os : list Option) :
  (well_kept c -> well_kept (snd (Channel lib c remote do id os)))
  /\ (forall other,
         String.prefix "UULF" other = false ->
         cache_buckets (snd (Channel lib c remote do id os)) !! other
         = cache_buckets c !! other)
  /\ ((client_err remote <> None
       \/ (forall channel, do (channel_query id) <> inr [channel])
       \/ (forall channel, do (channel_query id) = inr [channel] ->
                           (String.length (ch_Id channel) < 2)%nat)) ->
      snd (Channel lib c remote do id os) = c).
Proof.
  assert (Hcases :
    snd (Channel lib c remote do id os) = c
    \/ exists channel,
        client_err remote = None
        /\ do (channel_query id) = inr [channel]
        /\ (2 <= String.length (ch_Id channel))%nat
        /\ snd (Channel lib c remote do id os)
           = snd (videos lib c remote (uploads_playlist (ch_Id channel)) (apply_options os))).
  { unfold Channel. destruct (client_err remote) as [msg|]; [left; reflexivity|].
    destruct (do (channel_query id)) as [msg|[|channel [|other items]]];
      try (left; reflexivity).
    destruct (Nat.ltb_spec (String.length (ch_Id channel)) 2) as [Hshort|Hlong];
      [left; reflexivity|].
    right. exists channel. split; [reflexivity|]. split; [reflexivity|]. split; [exact Hlong|].
    destruct (videos lib c remote (uploads_playlist (ch_Id channel)) (apply_options os))
      as [[vs|e|p] c2]; try reflexivity.
    destruct (Snippet channel) as [snippet|]; [|reflexivity].
    destruct (Thumbnails snippet) as [details|]; [|reflexivity].
    destruct (Default details); reflexivity. }
  split; [|split].
  - intros Hc. destruct Hcases as [->|(channel & _ & _ & _ & ->)]; [exact Hc|].
    exact (videos_buckets lib (uploads_playlist (ch_Id channel)) (apply_options os)
             (fun m => forall name b, m !! name = Some b -> well_formed b) c remote
             (fun c0 lim => well_kept_Invalidate c0 _ lim)
             (fun c0 lim => well_kept_UpdateMaxLimit c0 _ lim)
             (fun c0 items => well_kept_Put c0 _ items)
             Hc).
  - intros other Hother. destruct Hcases as [->|(channel & _ & _ & _ & ->)]; [reflexivity|].
    assert (Hne : other <> uploads_playlist (ch_Id channel)).
    { intros ->. rewrite uploads_playlist_prefix in Hother. discriminate. }
    apply (videos_buckets lib (uploads_playlist (ch_Id channel)) (apply_options os)
             (fun m => m !! other = cache_buckets c !! other) c remote).
    + intros c0 lim H. rewrite Invalidate_other by exact Hne. exact H.
    + intros c0 lim H. rewrite UpdateMaxLimit_other by exact Hne. exact H.
    + intros c0 items H. rewrite Put_other by exact Hne. exact H.
    + reflexivity.
  - intros Hearly. destruct Hcases as [Hsame|(channel & Hclient & Hdo & Hlong & _)];
      [exact Hsame|].
    exfalso. destruct Hearly as [H|[H|H]].
    + apply H, Hclient.
    + apply (H channel), Hdo.
    + specialize (H channel Hdo). lia.
Qed.

Lemma served_feed_is_the_uploads_playlist_witness :
  exists feed c',
    Channel Scenario.lib (Some (Scenario.store Scenario.two_days))
      (Scenario.listing [[Scenario.e3; Scenario.e2; Scenario.e1]])
      Studio.lookup "UCchannel" [WithLimit 3]
    = (Returns feed, c')
    /\ fd_Id feed = "UCchannel"
    /\ 0 < len (Items feed) <= 3.
Proof.
  assert (Hrun : exists feed c',
             Channel Scenario.lib (Some (Scenario.store Scenario.two_days))
               (Scenario.listing [[Scenario.e3; Scenario.e2; Scenario.e1]])
               Studio.lookup "UCchannel" [WithLimit 3]
             = (Returns feed, c')) by (eexists; eexists; reflexivity).
  destruct Hrun as (feed & c' & Hrun).
  destruct (served_feed_is_the_uploads_playlist _ _ _ _ _ _ _ _ Hrun)
    as (channel & Hdo & _ & Hid & _ & _ & Hbound).
  exists feed, c'. split; [exact Hrun|]. split; [|exact Hbound].
  rewrite Hid. inversion Hdo. reflexivity.
Defined.

Lemma Channel_touches_the_uploads_bucket_only_witness :
  well_kept
    (snd (Channel Scenario.lib (Some (Scenario.store Scenario.two_days))
            (Scenario.listing [[Scenario.e3; Scenario.e2; Scenario.e1]])
            Studio.lookup "UCchannel" [WithLimit 3])).
Proof.
  exact (proj1 (Channel_touches_the_uploads_bucket_only Scenario.lib
                  (Some (Scenario.store Scenario.two_days))
                  (Scenario.listing [[Scenario.e3; Scenario.e2; Scenario.e1]])
                  Studio.lookup "UCchannel" [WithLimit 3])
           well_kept_two_days).
Defined.

(** ** What [Put] stores, [Iter] gives back *)

Lemma range_collect {W K V : Type} :
  forall (l acc : list (K * V)) (w : W),
    range (fun w => w) l (private_body collect) (w, acc) = (w, (acc ++ l)%list).
Proof.
  induction l as [|[k v] l IH]; intros acc w; cbn [range fst snd].
  - rewrite app_nil_r. reflexivity.
  - unfold private_body at 1, collect at 1. cbv beta iota. rewrite IH, <- app_assoc.
    reflexivity.
Qed.

(** X19 (src/cache.go, [Put], [Iter]): [Put] and [Iter] round-trip.  A
    listing that is newest first, with items a second or more apart, each
    of them storable (a key of at most 32768 bytes, strings short enough
    for a value of the bucket), is put into a playlist that had no bucket.
    Then [Iter] from the timestamp of one of its items yields the
    items listed after that one, in the order of the listing, each as
    [json.Unmarshal] returns it: with U+FFFD in place of every byte of its
    strings that is not UTF-8.  They are exactly the items put when those
    come back from JSON as they went in. *)
Theorem Put_then_Iter_walks_the_listing
    (db : DB) (playlistId : string) (news : list Item) (r0 : Item) (older : list Item) :
  faults db = [] ->
  playlistId <> "" ->
  buckets db !! playlistId = None ->
  newest_first (news ++ r0 :: older) ->
  Forall storable (news ++ r0 :: older) ->
  exists db',
    Put (Some db) playlistId (news ++ r0 :: older) = Some db'
    /\ Iter playlistId (time.Format_RFC3339 (Created r0)) _ (private_body collect)
         (Some db', [])
       = Done (Some db', map stored (map json_decoded older))
    /\ (Forall round_trips older ->
        Iter playlistId (time.Format_RFC3339 (Created r0)) _ (private_body collect)
          (Some db', [])
        = Done (Some db', map stored older)).
Proof.
  intros Hf Hname Hnone Hnf Hst.
  assert (Hhd : hd None (faults db) = None) by (rewrite Hf; reflexivity).
  rewrite (Put_fresh db playlistId _ Hhd Hname Hnone Hst), Hf, (insert_all_empty _ Hnf).
  cbn [skipn]. eexists. split; [reflexivity|].
  set (b := rev (records (news ++ r0 :: older))).
  set (db' := {| faults := []; buckets := <[playlistId := b]> (buckets db) |}).
  assert (Hwf : well_formed b).
  { unfold b. rewrite <- (insert_all_empty _ Hnf).
    apply well_formed_insert_all, well_formed_empty. }
  assert (Hiter : Iter playlistId (time.Format_RFC3339 (Created r0)) _
                    (private_body collect) (Some db', [])
                  = Done (Some db', map stored (map json_decoded older))).
  { rewrite (Iter_runs (private_body collect) db' db' playlistId _ b []);
      [|apply Begin_no_fault; reflexivity|apply lookup_insert_eq].
    rewrite (seek_index_below b _ (proj1 Hwf)). unfold b.
    rewrite (below_time_records _ _ 0), (below_holding news r0 older 0 Hnf).
    rewrite rev_involutive, decoded_json.
    - rewrite payloads_records, range_collect. reflexivity.
    - unfold records. apply Forall_map, Forall_forall. intros i _. exact I. }
  split; [exact Hiter|].
  intros Hrt. etransitivity; [exact Hiter|].
  rewrite (map_round_trips older Hrt). reflexivity.
Qed.

Lemma Put_then_Iter_walks_the_listing_witness :
  exists db',
    Put (Some {| faults := []; buckets := ∅ |}) Scenario.playlist
      [Scenario.v3; Scenario.v2; Scenario.v1]
    = Some db'
    /\ Iter Scenario.playlist (time.Format_RFC3339 (Created Scenario.v3)) _
         (private_body collect) (Some db', [])
       = Done (Some db', [stored Scenario.v2; stored Scenario.v1]).
Proof.
  destruct (Put_then_Iter_walks_the_listing {| faults := []; buckets := ∅ |}
              Scenario.playlist [] Scenario.v3 [Scenario.v2; Scenario.v1])
    as (db' & Hput & Hiter & _).
  - reflexivity.
  - discriminate.
  - reflexivity.
  - exact newest_first_three_days.
  - exact storable_three_days.
  - exists db'. split; [exact Hput|exact Hiter].
Defined.

(** * Earlier revisions *)

(** ** The first revision *)

Section PagedFacts.

Variable lib : Paged.Library.
Variable o : options.

Lemma Paged_page_items_maps :
  forall (pl : list PlaylistItem) (its videos : list Item),
    Forall2 (fun e i => Paged.entry_item lib e o = inr i) pl its ->
    Paged.page_items lib o pl videos = (None, (videos ++ its)%list).
Proof.
  induction pl as [|e pl IH]; intros its videos Hmaps; inversion Hmaps; subst.
  - cbn [Paged.page_items]. rewrite app_nil_r. reflexivity.
  - cbn [Paged.page_items].
    match goal with H : Paged.entry_item lib e o = inr _ |- _ => rewrite H end.
    rewrite (IH _ _ ltac:(eassumption)), <- app_assoc. reflexivity.
Qed.

Lemma Paged_page_items_fails :
  forall (good : list PlaylistItem) (its videos : list Item)
         (bad : PlaylistItem) (rest : list PlaylistItem) (err : error),
    Forall2 (fun e i => Paged.entry_item lib e o = inr i) good its ->
    Paged.entry_item lib bad o = inl err ->
    Paged.page_items lib o (good ++ bad :: rest) videos = (Some err, (videos ++ its)%list).
Proof.
  induction good as [|e good IH]; intros its videos bad rest err Hmaps Hbad;
    inversion Hmaps; subst.
  - cbn [app Paged.page_items]. rewrite Hbad, app_nil_r. reflexivity.
  - cbn [app Paged.page_items].
    match goal with H : Paged.entry_item lib e o = inr _ |- _ => rewrite H end.
    rewrite (IH _ _ bad rest err ltac:(eassumption) Hbad), <- app_assoc. reflexivity.
Qed.

(** The pages are read until the slice has [limit] items: the result is the
    first [limit] items of what was gathered and what the pages hold. *)
Lemma Paged_pages_run :
  0 <= limit o ->
  forall (pages : list (list PlaylistItem)) (its videos : list Item),
    Forall2 (fun e i => Paged.entry_item lib e o = inr i) (concat pages) its ->
    len videos <= limit o ->
    exists stop,
      Paged.Pages (map inr pages) (Paged.on_page lib o) videos
      = inr (stop, firstn (Z.to_nat (limit o)) (videos ++ its))
      /\ (stop = None \/ stop = Some Paged.limitReached).
Proof.
  intros Hpos. induction pages as [|pl pages IH]; intros its videos Hmaps Hlen.
  - inversion Hmaps; subst. exists None. cbn [map Paged.Pages]. rewrite app_nil_r.
    rewrite firstn_all2 by (unfold len in Hlen; lia). auto.
  - cbn [concat] in Hmaps. apply Forall2_app_inv_l in Hmaps.
    destruct Hmaps as (its1 & its2 & Hmaps1 & Hmaps2 & ->).
    cbn [map Paged.Pages]. unfold Paged.on_page at 1.
    rewrite (Paged_page_items_maps pl its1 videos Hmaps1).
    destruct (Z.geb_spec (len (videos ++ its1)) (limit o)) as [Hfull|Hroom]; cbv iota.
    + replace (limit o <? 0) with false by (symmetry; apply Z.ltb_ge; exact Hpos).
      exists (Some Paged.limitReached). split; [|auto].
      rewrite app_assoc, (take_app_le (videos ++ its1)) by (unfold len in Hfull; lia).
      reflexivity.
    + destruct (IH its2 (videos ++ its1)%list Hmaps2) as (stop & Hrun & Hstop);
        [unfold len in *; lia|].
      exists stop. rewrite Hrun, <- app_assoc. auto.
Qed.

End PagedFacts.

(** X20 (src/unnamed/part_001, first revision, [videos]): the first revision
    reads whole pages until it has [limit] items.  When the entries of the
    listing all map, it returns the first [limit] items of the listing, or
    all of them when there are fewer, for every limit from zero up: the
    empty list for limit 0.  An entry that does not map fails the request
    when its page is read, even if it lies beyond the limit; and a negative
    limit panics on [videos[:o.limit]] once the first page is read. *)
Theorem first_revision_returns_the_first_limit_items
    (lib : Paged.Library) (remote : Remote) (o : options) :
  client_err remote = None ->
  (forall (pages : list (list PlaylistItem)) (its : list Item),
      responses remote = map inr pages ->
      Forall2 (fun e i => Paged.entry_item lib e o = inr i) (concat pages) its ->
      0 <= limit o ->
      Paged.videos lib remote o = Returns (firstn (Z.to_nat (limit o)) its))
  /\ (forall (good : list PlaylistItem) (its : list Item) (bad : PlaylistItem)
             (rest : list PlaylistItem) (later : ListCall) (err : error),
         responses remote = inr (good ++ bad :: rest)%list :: later ->
         Forall2 (fun e i => Paged.entry_item lib e o = inr i) good its ->
         Paged.entry_item lib bad o = inl err ->
         Paged.videos lib remote o = Fails err)
  /\ (forall (pl : list PlaylistItem) (its : list Item) (later : ListCall),
         responses remote = inr pl :: later ->
         Forall2 (fun e i => Paged.entry_item lib e o = inr i) pl its ->
         limit o < 0 ->
         Paged.videos lib remote o = Panics SliceBoundsOutOfRange).
Proof.
  intros Hclient. unfold Paged.videos. rewrite Hclient. split; [|split].
  - intros pages its Hr Hmaps Hpos. rewrite Hr.
    destruct (Paged_pages_run lib o Hpos pages its [] Hmaps) as (stop & -> & Hstop).
    + unfold len. cbn [length]. lia.
    + cbn [app]. destruct Hstop as [-> | ->]; reflexivity.
  - intros good its bad rest later err Hr Hmaps Hbad. rewrite Hr.
    cbn [Paged.Pages]. unfold Paged.on_page.
    rewrite (Paged_page_items_fails lib o good its [] bad rest err Hmaps Hbad). reflexivity.
  - intros pl its later Hr Hmaps Hneg. rewrite Hr.
    cbn [Paged.Pages]. unfold Paged.on_page.
    rewrite (Paged_page_items_maps lib o pl its [] Hmaps).
    replace (len ([] ++ its) >=? limit o) with true
      by (symmetry; apply Z.geb_le; unfold len; lia).
    replace (limit o <? 0) with true by (symmetry; apply Z.ltb_lt; exact Hneg).
    reflexivity.
Qed.

Lemma first_revision_returns_the_first_limit_items_witness :
  Paged.videos plain_urls
    (Scenario.listing [[Scenario.e3; Scenario.e2]; [Scenario.e1]]) (Scenario.with_limit 2)
  = Returns [Scenario.v3; Scenario.v2].
Proof.
  destruct (first_revision_returns_the_first_limit_items plain_urls
              (Scenario.listing [[Scenario.e3; Scenario.e2]; [Scenario.e1]])
              (Scenario.with_limit 2) eq_refl) as (Hfirst & _).
  apply (Hfirst [[Scenario.e3; Scenario.e2]; [Scenario.e1]]
           [Scenario.v3; Scenario.v2; Scenario.v1]).
  - reflexivity.
  - repeat (constructor; [reflexivity|]). constructor.
  - discriminate.
Defined.

(** ** The second revision *)

Lemma Counted_byte_code (z : Z) : Z.of_N (N_of_ascii (Counted.byte z)) = z mod 256.
Proof.
  unfold Counted.byte.
  pose proof (Z.mod_pos_bound z 256 ltac:(lia)) as Hb.
  rewrite N_ascii_embedding by lia. lia.
Qed.

(** The four bytes written for a [uint32] read back as it. *)
Lemma Uint32_PutUint32 (v : Z) :
  0 <= v < 4294967296 -> Counted.Uint32 (Counted.PutUint32 v) = inr v.
Proof.
  intros Hv. unfold Counted.PutUint32, Counted.Uint32. rewrite !Counted_byte_code.
  f_equal. Z.to_euclidean_division_equations. lia.
Qed.

Lemma Counted_uint32_range (z : Z) : 0 <= Counted.uint32 z < 4294967296.
Proof. unfold Counted.uint32. apply Z.mod_pos_bound. lia. Qed.

Lemma Counted_Get_insert_eq (b : Counted.Bucket) (k v : string) :
  Counted.Get (Counted.insert b k v) k = Some v.
Proof.
  induction b as [|[k0 v0] b IH]; cbn [Counted.insert Counted.Get].
  - rewrite String.eqb_refl. reflexivity.
  - destruct (String.compare k k0) eqn:Hc; cbn [Counted.Get].
    + rewrite String.eqb_refl. reflexivity.
    + rewrite String.eqb_refl. reflexivity.
    + destruct (String.eqb k0 k) eqn:He; [|exact IH].
      apply String.eqb_eq in He. subst. rewrite string_compare_refl in Hc. discriminate.
Qed.

Lemma Counted_Get_insert_ne (b : Counted.Bucket) (k k' v : string) :
  k <> k' -> Counted.Get (Counted.insert b k v) k' = Counted.Get b k'.
Proof.
  intros Hne.
  assert (Hk : String.eqb k k' = false) by (apply String.eqb_neq; exact Hne).
  induction b as [|[k0 v0] b IH]; cbn [Counted.insert Counted.Get].
  - rewrite Hk. reflexivity.
  - destruct (String.compare k k0) eqn:Hc; cbn [Counted.Get].
    + apply string_compare_eq in Hc. subst k0. rewrite Hk. reflexivity.
    + rewrite Hk. reflexivity.
    + rewrite IH. reflexivity.
Qed.

(** The key of an entry has a hyphen, and so is not the key of the count. *)
Lemma Counted_key_not_count (e : Counted.Entry) : Counted.key e <> "count".
Proof.
  unfold Counted.key. destruct (Counted.PublishedAt e) as [|c1 [|c2 [|c3 [|c4 [|c5 p]]]]];
    rewrite ?append_cons, ?append_nil; try discriminate.
  destruct p; rewrite ?append_cons, ?append_nil; discriminate.
Qed.

Lemma Counted_Begin_runs (db : Counted.DB) :
  hd None (Counted.faults db) = None ->
  Counted.Begin db
  = (None, {| Counted.faults := skipn 1 (Counted.faults db);
              Counted.buckets := Counted.buckets db |}).
Proof.
  unfold Counted.Begin. destruct db as [[|f fs] m]; cbn [Counted.faults Counted.buckets hd skipn].
  - reflexivity.
  - intros ->. reflexivity.
Qed.

(** What [cache] leaves when its transaction runs. *)
Lemma Counted_Put_count (b : Counted.Bucket) (v : Z) :
  Counted.Put b "count" (Counted.PutUint32 v)
  = (None, Counted.insert b "count" (Counted.PutUint32 v)).
Proof. reflexivity. Qed.

Lemma Counted_cache_runs (lib : Counted.Library) (db : Counted.DB) (e : Counted.Entry)
    (b : Counted.Bucket) (data : string) (n : Z) :
  hd None (Counted.faults db) = None ->
  Counted.PlaylistId e <> "" ->
  Counted.CreateBucketIfNotExists (Counted.buckets db) (Counted.PlaylistId e)
  = (inr b, <[Counted.PlaylistId e := b]> (Counted.buckets db)) ->
  Counted.json_Marshal lib e = inr data ->
  Counted_fits e data ->
  Counted.count b = inr n ->
  Counted.cache lib (Some db) e
  = (None,
     Some {| Counted.faults := skipn 1 (Counted.faults db);
             Counted.buckets :=
               <[Counted.PlaylistId e :=
                   Counted.insert (Counted.insert b (Counted.key e) data) "count"
                     (Counted.PutUint32 (Counted.uint32 (n + 1)))]>
                 (Counted.buckets db) |}).
Proof.
  intros Hf Hname Hcreate Hdata [Hksize Hvsize] Hcount.
  unfold Counted.cache, Counted.Update. rewrite (Counted_Begin_runs db Hf).
  cbn [Counted.buckets Counted.faults]. rewrite Hcreate, Hdata.
  assert (Hkey : Counted.Put b (Counted.key e) data
                 = (None, Counted.insert b (Counted.key e) data)).
  { unfold Counted.Put. apply Z.ltb_ge in Hksize, Hvsize. rewrite Hksize, Hvsize.
    destruct (Counted.key e) eqn:Hk; [|reflexivity].
    exfalso. unfold Counted.key in Hk.
    destruct (Counted.PublishedAt e); rewrite ?append_cons, ?append_nil in Hk;
      discriminate. }
  rewrite Hkey.
  assert (Hcount' : Counted.count (Counted.insert b (Counted.key e) data) = inr n).
  { unfold Counted.count in *. rewrite Counted_Get_insert_ne by apply Counted_key_not_count.
    exact Hcount. }
  rewrite Hcount', Counted_Put_count, insert_insert_eq. reflexivity.
Qed.

(** An entry whose key or whose encoded text the bucket refuses is not
    cached: the transaction is rolled back. *)
Lemma Counted_cache_refused (lib : Counted.Library) (db : Counted.DB) (e : Counted.Entry)
    (data : string) :
  Counted.json_Marshal lib e = inr data ->
  ~ Counted_fits e data ->
  Counted.cache lib (Some db) e
  = (None,
     Some {| Counted.faults := skipn 1 (Counted.faults db);
             Counted.buckets := Counted.buckets db |}).
Proof.
  intros Hdata Hnot. unfold Counted.cache, Counted.Update, Counted.Begin.
  destruct db as [[|[err|] fs] m]; cbn [Counted.faults Counted.buckets skipn];
    try reflexivity.
  - unfold Counted.CreateBucketIfNotExists.
    destruct (Counted.PlaylistId e) as [|a s]; [reflexivity|].
    assert (Hput : forall b, exists err, Counted.Put b (Counted.key e) data = (Some err, b)).
    { intros b. unfold Counted.Put. destruct (Counted.key e) as [|c k] eqn:Hk;
        [eexists; reflexivity|].
      destruct (Z.ltb_spec Bucket.MaxKeySize (Z.of_nat (String.length (String c k))));
        [eexists; reflexivity|].
      destruct (Z.ltb_spec Bucket.MaxValueSize (Z.of_nat (String.length data)));
        [eexists; reflexivity|].
      exfalso. apply Hnot. split; [rewrite Hk|]; lia. }
    destruct (m !! String a s) as [b|]; rewrite Hdata.
    + destruct (Hput b) as [err ->]. reflexivity.
    + destruct (Hput []) as [err ->]. reflexivity.
  - unfold Counted.CreateBucketIfNotExists.
    destruct (Counted.PlaylistId e) as [|a s]; [reflexivity|].
    assert (Hput : forall b, exists err, Counted.Put b (Counted.key e) data = (Some err, b)).
    { intros b. unfold Counted.Put. destruct (Counted.key e) as [|c k] eqn:Hk;
        [eexists; reflexivity|].
      destruct (Z.ltb_spec Bucket.MaxKeySize (Z.of_nat (String.length (String c k))));
        [eexists; reflexivity|].
      destruct (Z.ltb_spec Bucket.MaxValueSize (Z.of_nat (String.length data)));
        [eexists; reflexivity|].
      exfalso. apply Hnot. split; [rewrite Hk|]; lia. }
    destruct (m !! String a s) as [b|]; rewrite Hdata.
    + destruct (Hput b) as [err ->]. reflexivity.
    + destruct (Hput []) as [err ->]. reflexivity.
Qed.

Lemma Counted_create (m : gmap string Counted.Bucket) (name : string) :
  name <> "" ->
  exists b,
    Counted.CreateBucketIfNotExists m name = (inr b, <[name := b]> m)
    /\ b = match m !! name with Some b0 => b0 | None => [] end.
Proof.
  intros Hname. unfold Counted.CreateBucketIfNotExists.
  destruct name as [|a s]; [contradiction|].
  destruct (m !! String a s) as [b0|] eqn:Hb.
  - exists b0. split; [|reflexivity]. rewrite insert_id by exact Hb. reflexivity.
  - exists []. split; reflexivity.
Qed.

(** X21 (src/youtube.go, [invalidateCacheIfDirty], [cache]): the second
    revision counts the entries of a bucket in four bytes.  [cache] stores
    an entry whose key and encoded text the bucket takes (at most 32768
    bytes of key, at most 2^31 - 2 bytes of value) under its key, and the
    count plus one, modulo 2^32, which reads back as that number; an entry
    the bucket refuses is rolled back, and neither it nor a count is
    stored.  The dirty check deletes the bucket exactly when the count is
    below the limit converted to [uint32], that is modulo 2^32: with the
    default limit [math.MaxInt] whenever the count is below 2^32 - 1, and
    never with a limit of 2^32. *)
Theorem count_decides_the_reset
    (lib : Counted.Library) (db : Counted.DB) (playlistId : string) (b : Counted.Bucket)
    (n : Z) :
  hd None (Counted.faults db) = None ->
  Counted.buckets db !! playlistId = Some b ->
  Counted.count b = inr n ->
  (forall limit,
      Counted.invalidateCacheIfDirty (Some db) playlistId limit
      = (None,
         Some {| Counted.faults := skipn 1 (Counted.faults db);
                 Counted.buckets :=
                   if n <? limit mod 4294967296
                   then delete playlistId (Counted.buckets db)
                   else Counted.buckets db |}))
  /\ (n < 4294967295 ->
      Counted.invalidateCacheIfDirty (Some db) playlistId MaxInt
      = (None,
         Some {| Counted.faults := skipn 1 (Counted.faults db);
                 Counted.buckets := delete playlistId (Counted.buckets db) |}))
  /\ (0 <= n ->
      Counted.invalidateCacheIfDirty (Some db) playlistId 4294967296
      = (None,
         Some {| Counted.faults := skipn 1 (Counted.faults db);
                 Counted.buckets := Counted.buckets db |}))
  /\ (forall (e : Counted.Entry) (data : string),
         Counted.PlaylistId e = playlistId ->
         playlistId <> "" ->
         Counted.json_Marshal lib e = inr data ->
         Counted_fits e data ->
         exists db' b',
           Counted.cache lib (Some db) e = (None, Some db')
           /\ Counted.buckets db' !! playlistId = Some b'
           /\ Counted.Get b' (Counted.key e) = Some data
           /\ Counted.count b' = inr ((n + 1) mod 4294967296))
  /\ (forall (e : Counted.Entry) (data : string),
         Counted.json_Marshal lib e = inr data ->
         ~ Counted_fits e data ->
         Counted.cache lib (Some db) e
         = (None,
            Some {| Counted.faults := skipn 1 (Counted.faults db);
                    Counted.buckets := Counted.buckets db |})).
Proof.
  intros Hf Hb Hcount.
  assert (Hcheck : forall limit,
      Counted.invalidateCacheIfDirty (Some db) playlistId limit
      = (None,
         Some {| Counted.faults := skipn 1 (Counted.faults db);
                 Counted.buckets :=
                   if n <? limit mod 4294967296
                   then delete playlistId (Counted.buckets db)
                   else Counted.buckets db |})).
  { intros limit. unfold Counted.invalidateCacheIfDirty, Counted.Update.
    rewrite (Counted_Begin_runs db Hf). cbn [Counted.buckets Counted.faults].
    rewrite Hb, Hcount. unfold Counted.uint32.
    destruct (n <? limit mod 4294967296); [|reflexivity].
    unfold Counted.DeleteBucket. rewrite Hb. reflexivity. }
  split; [exact Hcheck|]. split; [|split; [|split]].
  4:{ intros e data Hdata Hnot. apply (Counted_cache_refused lib db e data Hdata Hnot). }
  - intros Hn. rewrite Hcheck.
    change (MaxInt mod 4294967296) with 4294967295.
    replace (n <? 4294967295) with true by (symmetry; apply Z.ltb_lt; exact Hn).
    reflexivity.
  - intros Hn. rewrite Hcheck.
    change (4294967296 mod 4294967296) with 0.
    replace (n <? 0) with false by (symmetry; apply Z.ltb_ge; exact Hn).
    reflexivity.
  - intros e data He Hname Hdata Hfits. subst playlistId.
    destruct (Counted_create (Counted.buckets db) (Counted.PlaylistId e) Hname)
      as (b0 & Hcreate & Hb0).
    rewrite Hb in Hb0. subst b0.
    rewrite (Counted_cache_runs lib db e b data n Hf Hname Hcreate Hdata Hfits Hcount).
    eexists. eexists. split; [reflexivity|]. cbn [Counted.buckets].
    split; [apply lookup_insert_eq|]. split.
    + rewrite Counted_Get_insert_ne
        by (intros Heq; apply (Counted_key_not_count e); congruence).
      apply Counted_Get_insert_eq.
    + unfold Counted.count. rewrite Counted_Get_insert_eq.
      apply Uint32_PutUint32, Counted_uint32_range.
Qed.

Lemma count_decides_the_reset_witness :
  Counted.invalidateCacheIfDirty (Some counted_store) "PL" MaxInt
  = (None, Some {| Counted.faults := []; Counted.buckets := delete "PL" {[ "PL" := [] ]} |}).
Proof.
  destruct (count_decides_the_reset counted_codec counted_store "PL" [] 0)
    as (_ & Hdefault & _).
  - reflexivity.
  - reflexivity.
  - reflexivity.
  - apply Hdefault. reflexivity.
Defined.

Section CountedWalk.

Context {W St : Type}.
Variable lib : Counted.Library.
Variable yield : Yield W (option Counted.Entry) (option error) St.

(** The loop walks the records before position [n], last first. *)
Lemma Counted_walk_spec (b : Counted.Bucket) :
  forall (n : nat) (s : W * St),
    (n <= length b)%nat ->
    match Counted.walk lib b n yield s with
    | (Some e, s') => snd (yield None (Some e) s')
    | (None, s') => s'
    end
    = range (fun w => w) (unmarshalled lib (rev (firstn n b))) yield s.
Proof.
  induction n as [|n IH]; intros [w st] Hle.
  - reflexivity.
  - cbn [Counted.walk].
    destruct (nth_error b n) as [[k v]|] eqn:Hnth.
    2:{ apply nth_error_None in Hnth. lia. }
    rewrite (firstn_succ_nth _ _ _ Hnth), rev_app_distr.
    cbn [rev app unmarshalled].
    destruct (Counted.json_Unmarshal lib v) as [e|item]; cbn [range fst snd].
    + destruct (yield None (Some e) (w, st)) as [more s']. destruct more; reflexivity.
    + destruct (yield (Some item) None (w, st)) as [more s']. destruct more; [|reflexivity].
      apply IH. lia.
Qed.

End CountedWalk.

Lemma Counted_seek_index_le (b : Counted.Bucket) (start : string) :
  (Counted.seek_index b start <= length b)%nat.
Proof.
  induction b as [|[k v] b IH]; cbn [Counted.seek_index length]; [lia|].
  destruct (String.ltb k start); lia.
Qed.

Lemma Counted_seek_index_before (b : Counted.Bucket) (start : string) :
  Forall (fun kv => String.ltb (fst kv) start = true) (firstn (Counted.seek_index b start) b).
Proof.
  induction b as [|[k v] b IH]; cbn [Counted.seek_index]; [constructor|].
  destruct (String.ltb k start) eqn:Hk; cbn [firstn]; [|constructor].
  constructor; [exact Hk|exact IH].
Qed.

Lemma Counted_seek_index_at (b : Counted.Bucket) (start : string) (kv : string * string) :
  nth_error b (Counted.seek_index b start) = Some kv -> String.ltb (fst kv) start = false.
Proof.
  induction b as [|[k v] b IH]; cbn [Counted.seek_index]; [discriminate|].
  destruct (String.ltb k start) eqn:Hk; cbn [nth_error].
  - exact IH.
  - intros H. inversion H; subst. exact Hk.
Qed.

(** X22 (src/youtube.go, [iterCache]): the iterator of the second revision
    begins at the record [Seek] finds, the first whose key is not below
    [start], yields it, and then walks down over the records before it,
    which are below [start].  When no key reaches [start], [Seek] returns a
    nil key and nothing is yielded, though every record is below [start]. *)
Theorem iterCache_starts_at_the_seek_position
    (lib : Counted.Library) (db db' : Counted.DB) (playlistId start : string)
    (b : Counted.Bucket) (St : Type)
    (yield : Yield Counted.Cache (option Counted.Entry) (option error) St) (st : St) :
  Counted.Begin db = (None, db') ->
  Counted.buckets db' !! playlistId = Some b ->
  let pos := Counted.seek_index b start in
  Forall (fun kv => String.ltb (fst kv) start = true) (firstn pos b)
  /\ (forall kv,
         nth_error b pos = Some kv ->
         String.ltb (fst kv) start = false
         /\ Counted.iterCache lib playlistId start St yield (Some db, st)
            = Done (range (fun w => w) (unmarshalled lib (kv :: rev (firstn pos b)))
                      yield (Some db', st)))
  /\ (nth_error b pos = None ->
      firstn pos b = b
      /\ Counted.iterCache lib playlistId start St yield (Some db, st) = Done (Some db', st)).
Proof.
  intros Hbegin Hb pos.
  split; [apply Counted_seek_index_before|]. split.
  - intros kv Hnth. split; [apply (Counted_seek_index_at b start kv Hnth)|].
    unfold Counted.iterCache. cbn [fst snd]. rewrite Hbegin, Hb.
    assert (Hlt : (S pos <= length b)%nat).
    { apply Nat.le_succ_l. apply nth_error_Some. rewrite Hnth. discriminate. }
    pose proof (Counted_walk_spec lib yield b (S pos) (Some db', st) Hlt) as Hwalk.
    rewrite (firstn_succ_nth _ _ _ Hnth), rev_app_distr in Hwalk. cbn [rev app] in Hwalk.
    fold pos.
    destruct (Counted.walk lib b (S pos) yield (Some db', st)) as [[e|] s'];
      rewrite <- Hwalk; reflexivity.
  - intros Hnth. apply nth_error_None in Hnth.
    split; [apply firstn_all2, Hnth|].
    unfold Counted.iterCache. cbn [fst snd]. rewrite Hbegin, Hb. fold pos.
    cbn [Counted.walk].
    replace (nth_error b pos) with (@None (string * string))
      by (symmetry; apply nth_error_None, Hnth).
    reflexivity.
Qed.

Lemma iterCache_starts_at_the_seek_position_witness :
  Counted.iterCache counted_codec "PL" "2024-01-02" _ (private_body collect)
    (Some counted_two, [])
  = Done (Some counted_two, [yielded (counted_entry "" "b"); yielded (counted_entry "" "a")]).
Proof.
  destruct (iterCache_starts_at_the_seek_position counted_codec counted_two counted_two
              "PL" "2024-01-02" [("2024-01-01-a", "a"); ("2024-01-02-b", "b")]
              _ (private_body collect) [] eq_refl eq_refl) as (_ & Hat & _).
  destruct (Hat ("2024-01-02-b", "b") eq_refl) as (_ & Hrun).
  rewrite Hrun. reflexivity.
Defined.

Section CountedPages.

Variable lib : Counted.Library.
Variable playlistId : string.
Hypothesis Hname : playlistId <> "".

Lemma Counted_no_fault (db : Counted.DB) :
  Counted.faults db = [] -> Counted.Begin db = (None, db).
Proof. unfold Counted.Begin. intros ->. reflexivity. Qed.

Lemma Counted_isCached_by_Get (db : Counted.DB) (e : Counted.Entry) :
  Counted.faults db = [] ->
  Counted.isCached (Some db) e
  = (match Counted.Get (Counted_bucket_of (Some db) (Counted.PlaylistId e)) (Counted.key e) with
     | Some _ => true
     | None => false
     end, Some db).
Proof.
  intros Hf. unfold Counted.isCached, Counted_bucket_of.
  rewrite (Counted_no_fault db Hf).
  destruct (Counted.buckets db !! Counted.PlaylistId e); reflexivity.
Qed.

Lemma Counted_cache_quiet (db : Counted.DB) (e : Counted.Entry) (data : string) (n : Z) :
  Counted.faults db = [] ->
  Counted.PlaylistId e = playlistId ->
  Counted.json_Marshal lib e = inr data ->
  Counted_fits e data ->
  Counted.count (Counted_bucket_of (Some db) playlistId) = inr n ->
  Counted.cache lib (Some db) e
  = (None,
     Some {| Counted.faults := [];
             Counted.buckets :=
               <[playlistId :=
                   Counted.insert
                     (Counted.insert (Counted_bucket_of (Some db) playlistId)
                        (Counted.key e) data)
                     "count" (Counted.PutUint32 (Counted.uint32 (n + 1)))]>
                 (Counted.buckets db) |}).
Proof.
  intros Hf He Hdata Hfits Hcount.
  assert (Hhd : hd None (Counted.faults db) = None) by (rewrite Hf; reflexivity).
  assert (Hname' : Counted.PlaylistId e <> "") by (rewrite He; exact Hname).
  destruct (Counted_create (Counted.buckets db) (Counted.PlaylistId e) Hname')
    as (b & Hcreate & Hb).
  rewrite He in Hb. fold (Counted_bucket_of (Some db) playlistId) in Hb. subst b.
  rewrite (Counted_cache_runs lib db e _ data n Hhd Hname' Hcreate Hdata Hfits Hcount).
  rewrite Hf, He. reflexivity.
Qed.

(** A page of entries that are not cached, with room left under the limit
    and a loop that goes on: each entry is cached, then handed to the
    loop. *)
Lemma Counted_page_items_fresh :
  forall (es : list Counted.Entry) (db : Counted.DB)
         (acc : list (option Counted.Entry * option error)) (limit n : Z)
         (done : list Counted.Entry),
    Counted.faults db = [] ->
    Forall (fun e => Counted.PlaylistId e = playlistId) es ->
    Forall (Counted_storable lib) es ->
    NoDup (map Counted.key es) ->
    Forall (fun e => Counted.Get (Counted_bucket_of (Some db) playlistId) (Counted.key e)
                     = None) es ->
    Counted.count (Counted_bucket_of (Some db) playlistId) = inr n ->
    0 <= n < 4294967296 ->
    len es < limit ->
    Forall (fun e => Counted.Get (Counted_bucket_of (Some db) playlistId) (Counted.key e)
                     <> None) done ->
    exists db',
      Counted.page_items lib es (private_body collect) limit (Some db, acc)
      = Done {| Counted.cancelled := false; Counted.continueAt := None;
                Counted.limit_left := limit - len es;
                Counted.state := (Some db', (acc ++ map yielded es)%list) |}
      /\ Counted.faults db' = []
      /\ Counted.count (Counted_bucket_of (Some db') playlistId)
         = inr ((n + len es) mod 4294967296)
      /\ Forall (fun e => Counted.Get (Counted_bucket_of (Some db') playlistId)
                            (Counted.key e) <> None) (done ++ es).
Proof.
  induction es as [|e es IH]; intros db acc limit n done Hf Hp Hm Hnd Hfresh Hcount Hn Hlen Hdone.
  - exists db. cbn [Counted.page_items map]. rewrite !app_nil_r.
    replace (limit - len []) with limit by (unfold len; cbn [length]; lia).
    replace ((n + len []) mod 4294967296) with n
      by (unfold len; cbn [length]; rewrite Z.add_0_r, Z.mod_small by lia; reflexivity).
    auto.
  - apply Forall_cons in Hp. destruct Hp as [He Hp'].
    apply Forall_cons in Hm. destruct Hm as [(data & Hdata & Hfits) Hm'].
    apply Forall_cons in Hfresh. destruct Hfresh as [Hfe Hfresh'].
    cbn [map] in Hnd. apply NoDup_cons in Hnd. destruct Hnd as [Hnotin Hnd'].
    cbn [Counted.page_items fst snd].
    rewrite (Counted_isCached_by_Get db e Hf), He, Hfe.
    rewrite (Counted_cache_quiet db e data n Hf He Hdata Hfits Hcount).
    set (b := Counted_bucket_of (Some db) playlistId) in *.
    set (b1 := Counted.insert (Counted.insert b (Counted.key e) data) "count"
                 (Counted.PutUint32 (Counted.uint32 (n + 1)))).
    set (db1 := {| Counted.faults := [];
                   Counted.buckets := <[playlistId := b1]> (Counted.buckets db) |}).
    unfold private_body at 1, collect at 1. cbv beta iota.
    replace (limit - 1 <=? 0) with false
      by (symmetry; apply Z.leb_gt; unfold len in Hlen; cbn [length] in Hlen; lia).
    cbn [negb orb].
    assert (Hb1 : Counted_bucket_of (Some db1) playlistId = b1).
    { unfold Counted_bucket_of, db1. cbn [Counted.buckets]. rewrite lookup_insert_eq.
      reflexivity. }
    assert (Hget1 : forall k, k <> "count" ->
               Counted.Get b1 k
               = if String.eqb (Counted.key e) k then Some data else Counted.Get b k).
    { intros k Hk. unfold b1. rewrite Counted_Get_insert_ne by congruence.
      destruct (String.eqb_spec (Counted.key e) k) as [->|Hne].
      - apply Counted_Get_insert_eq.
      - apply Counted_Get_insert_ne, Hne. }
    destruct (IH db1 (acc ++ [(Some e, None)])%list (limit - 1) ((n + 1) mod 4294967296)
                (done ++ [e])%list) as (db' & Hrun & Hf' & Hcount' & Hdone').
    + reflexivity.
    + exact Hp'.
    + exact Hm'.
    + exact Hnd'.
    + rewrite Hb1. apply Forall_forall. intros e' He'.
      rewrite Hget1 by apply Counted_key_not_count.
      destruct (String.eqb_spec (Counted.key e) (Counted.key e')) as [Heq|_].
      * exfalso. apply Hnotin. rewrite Heq. apply list_elem_of_fmap_2. exact He'.
      * apply (proj1 (Forall_forall _ _) Hfresh' e' He').
    + rewrite Hb1. unfold Counted.count, b1. rewrite Counted_Get_insert_eq.
      apply Uint32_PutUint32, Counted_uint32_range.
    + apply Z.mod_pos_bound. lia.
    + unfold len in *. cbn [length] in Hlen. lia.
    + rewrite Hb1. apply Forall_app. split.
      * eapply Forall_impl; [exact Hdone|]. intros d Hd.
        rewrite Hget1 by apply Counted_key_not_count.
        destruct (String.eqb (Counted.key e) (Counted.key d)); [discriminate|exact Hd].
      * constructor; [|constructor].
        rewrite Hget1 by apply Counted_key_not_count.
        rewrite String.eqb_refl. discriminate.
    + exists db'. split; [|split; [exact Hf'|split]].
      * etransitivity; [exact Hrun|].
        replace (limit - len (e :: es)) with (limit - 1 - len es)
          by (unfold len; cbn [length]; lia).
        rewrite <- app_assoc. reflexivity.
      * rewrite Hcount'. f_equal. rewrite Z.add_mod_idemp_l by lia. f_equal.
        unfold len. cbn [length]. lia.
      * rewrite <- app_assoc in Hdone'. exact Hdone'.
Qed.

End CountedPages.

(** X23 (src/youtube.go, [allPlaylistItems], [isCached], [cache]): the
    iterator of the second revision caches an entry before it hands it to
    the loop.  So when a page of entries that were not cached, each of which
    encodes and is within the sizes the bucket takes, is followed by a page
    request that fails, the loop has received the entries and then the
    error, and each of the entries is cached and counted, though the
    request as a whole fails. *)
Theorem entries_are_cached_before_they_are_yielded
    (lib : Counted.Library) (db : Counted.DB) (playlistId : string)
    (es : list Counted.Entry) (msg : string) (later : list (string + list Counted.Entry))
    (limit : Z) :
  Counted.faults db = [] ->
  Counted.buckets db !! playlistId = None ->
  playlistId <> "" ->
  Forall (fun e => Counted.PlaylistId e = playlistId) es ->
  Forall (Counted_storable lib) es ->
  NoDup (map Counted.key es) ->
  len es < limit ->
  exists db',
    Counted.allPlaylistItems lib
      {| Counted.client_err := None; Counted.responses := inr es :: inl msg :: later |}
      playlistId limit _ (private_body collect) (Some db, [])
    = Done (Some db', (map yielded es ++ [(None, Some (ErrMsg msg))])%list)
    /\ Forall (fun e => fst (Counted.isCached (Some db') e) = true) es
    /\ Counted.count (Counted_bucket_of (Some db') playlistId)
       = inr (len es mod 4294967296).
Proof.
  intros Hf Hnone Hname Hp Hm Hnd Hlen.
  destruct db as [fs m]. cbn [Counted.faults Counted.buckets] in Hf, Hnone. subst fs.
  set (db := {| Counted.faults := []; Counted.buckets := m |}).
  assert (Hbucket : Counted_bucket_of (Some db) playlistId = []).
  { unfold Counted_bucket_of, db. cbn [Counted.buckets]. rewrite Hnone. reflexivity. }
  destruct (Counted_page_items_fresh lib playlistId Hname es db [] limit 0 [])
    as (db' & Hrun & Hf' & Hcount & Hdone); try assumption.
  - reflexivity.
  - rewrite Hbucket. apply Forall_forall. intros e _. reflexivity.
  - rewrite Hbucket. reflexivity.
  - lia.
  - constructor.
  - exists db'. split; [|split].
    + unfold Counted.allPlaylistItems, Counted.invalidateCacheIfDirty, Counted.Update.
      cbn [fst snd Counted.Begin Counted.faults Counted.buckets db].
      rewrite Hnone. cbn [Counted.client_err Counted.responses Counted.Pages].
      fold db.
      replace (Counted.page_items lib es (private_body collect) limit (Some db, []))
        with (Done {| Counted.cancelled := false; Counted.continueAt := None;
                      Counted.limit_left := limit - len es;
                      Counted.state := (Some db', ([] ++ map yielded es)%list) |})
        by (symmetry; exact Hrun).
      reflexivity.
    + cbn [app] in Hdone. eapply Forall_impl.
      * apply Forall_and. split; [exact Hdone|exact Hp].
      * intros e [Hget He]. rewrite (Counted_isCached_by_Get db' e Hf'), He.
        cbn [fst]. destruct (Counted.Get _ _); [reflexivity|contradiction].
    + rewrite Hcount. reflexivity.
Qed.

Lemma entries_are_cached_before_they_are_yielded_witness :
  exists db',
    Counted.allPlaylistItems counted_codec
      {| Counted.client_err := None;
         Counted.responses :=
           [inr [counted_entry "2024-01-02" "b"; counted_entry "2024-01-01" "a"];
            inl "quota exceeded"] |}
      "PL" 5 _ (private_body collect)
      (Some {| Counted.faults := []; Counted.buckets := ∅ |}, [])
    = Done (Some db', [yielded (counted_entry "2024-01-02" "b");
                       yielded (counted_entry "2024-01-01" "a");
                       (None, Some (ErrMsg "quota exceeded"))])
    /\ Counted.count (Counted_bucket_of (Some db') "PL") = inr 2.
Proof.
  destruct (entries_are_cached_before_they_are_yielded counted_codec
              {| Counted.faults := []; Counted.buckets := ∅ |} "PL"
              [counted_entry "2024-01-02" "b"; counted_entry "2024-01-01" "a"]
              "quota exceeded" [] 5) as (db' & Hrun & _ & Hcount).
  - reflexivity.
  - reflexivity.
  - discriminate.
  - repeat constructor.
  - repeat constructor; eexists; (split; [reflexivity|split; vm_compute; discriminate]).
  - apply NoDup_cons; split.
    + intros H. apply list_elem_of_singleton in H. discriminate H.
    + apply NoDup_singleton.
  - reflexivity.
  - exists db'. split; [exact Hrun|exact Hcount].
Defined.
